(** * Topology and message propagation of the network package

    A shallow embedding of [packages/network/src/dht/DhtNode.ts] together
    with the data structures it drives: the sorted contact list, the
    routing tree of the [k-bucket] package and the store of node objects
    that contacts point into.  The gossip overlay that
    [test/integration/unsubscribe-from-stream.test.ts] exercises follows,
    in the module [Gossip]. *)

From Stdlib Require Import NArith Sorted Permutation.
From stdpp Require Import base list gmap strings.

Local Open Scope N_scope.
Local Open Scope nat_scope.

(** ** Node identifiers *)

(** A node id is a [Uint8Array]: the list of its byte values. *)
Definition NodeId : Type := list N.

(** The handle of a [DhtNode] object in the store of objects. *)
Definition NodeRef : Type := nat.

(** [Buffer.compare(a, b) == 0]: equality of contents. *)
Definition sameId (a b : NodeId) : bool := bool_decide (a = b).

(** Every byte that one id has beyond the other counts as 255, as in
    [KBucket.distance] of the package.  The node ids of the spec have one
    fixed length and leave no such byte. *)
Fixpoint padDistance (acc : N) (n : nat) : N :=
  match n with
  | O => acc
  | S n' => padDistance (acc * 256 + 255)%N n'
  end.

(** XOR metric: the bytewise XOR of two ids read as one unsigned integer,
    most significant byte first.  On ids of one length this is the
    distance of section 3 of the spec, which the contact list sorts by.
    The routing tree has a distance of its own, [KBucket.distance], that
    is added up in double precision. *)
Fixpoint distanceFrom (acc : N) (a b : NodeId) {struct a} : N :=
  match a, b with
  | [], _ => padDistance acc (length b)
  | _ :: _, [] => padDistance acc (length a)
  | x :: a', y :: b' => distanceFrom (acc * 256 + N.lxor x y)%N a' b'
  end.

Definition distance (a b : NodeId) : N := distanceFrom 0%N a b.

(** ** Contact *)

Module Contact.
(** Modelled from the spec: [Contact.ts] is imported by [DhtNode.ts] but
    is not among the sources.  Section 3 of the spec gives a contact an
    id and a handle of its node; [DhtNode.ts] builds one with
    [new Contact(id, dhtNode)] and reads [contact.id] and
    [contact.dhtNode]. *)
Record t : Type := mk { id : NodeId; dhtNode : NodeRef }.

#[global] Instance eq_dec : EqDecision t.
Proof. solve_decision. Defined.
End Contact.

(** ** SortedContactList *)

Module SortedContactList.

(** Modelled from the spec: [SortedContactList.ts] is imported by
    [DhtNode.ts] but is not among the sources.  The spec (sections 3 and
    4.1) describes a sequence of contacts, each with the flags
    [contacted] and [active], sorted ascending by XOR distance to an
    owner id and bounded to [K] entries (default 8). *)
Definition K : nat := 8.

(** Modelled from the spec: "each entry additionally carries two
    booleans", [contacted] and [active]. *)
Record Entry : Type := mkEntry {
  contact : Contact.t;
  contacted : bool;
  active : bool
}.

(** Modelled from the spec: an "ordered sequence of Contact", kept for
    an "owner id". *)
Record t : Type := mk { ownId : NodeId; entries : list Entry }.

Definition entryId (e : Entry) : NodeId := Contact.id (contact e).

(** Modelled from the spec: the "distance to an owner id" the list is
    sorted by. *)
Definition entryDistance (own : NodeId) (e : Entry) : N :=
  distance own (entryId e).

(** Modelled from the spec: "id already present", ids compared by
    content. *)
Definition hasId (i : NodeId) (es : list Entry) : bool :=
  existsb (fun e => sameId (entryId e) i) es.

(** Modelled from the spec: insertion "preserving sort order"; an entry
    goes behind the entries that are at most as far as it is, so that
    the order of application breaks ties. *)
Fixpoint insertSorted (own : NodeId) (e : Entry) (es : list Entry)
  : list Entry :=
  match es with
  | [] => [e]
  | x :: xs =>
      if (entryDistance own e <? entryDistance own x)%N
      then e :: x :: xs
      else x :: insertSorted own e xs
  end.

(** Modelled from the spec: "evicts the farthest entry if size > K after
    insertion". *)
Definition evictFarthest (es : list Entry) : list Entry :=
  if K <? length es then removelast es else es.

(** Modelled from the spec: [new SortedContactList(ownId, [])], as the
    constructor of [DhtNode] calls it. *)
Definition empty (own : NodeId) : t := mk own [].

(** Modelled from the spec, 4.1 [addContact]: "inserts preserving sort
    order; no-op if id already present"; "evicts the farthest entry if
    size > K after insertion". *)
Definition addContact (c : Contact.t) (l : t) : t :=
  if hasId (Contact.id c) (entries l) then l
  else mk (ownId l)
          (evictFarthest
             (insertSorted (ownId l) (mkEntry c false false) (entries l))).

(** Modelled from the spec: "applies [addContact] for each", in order. *)
Definition addContacts (cs : list Contact.t) (l : t) : t :=
  fold_left (fun acc c => addContact c acc) cs l.

(** Modelled from the spec: "returns up to [limit] entries with
    [contacted=false], in ascending distance order". *)
Definition getUncontactedContacts (limit : nat) (l : t) : list Contact.t :=
  take limit
    (map contact (List.filter (fun e => negb (contacted e)) (entries l))).

(** Modelled from the spec: "mark flags; no-op (not an error) if id
    absent". *)
Definition setContacted (i : NodeId) (l : t) : t :=
  mk (ownId l)
     (map (fun e => if sameId (entryId e) i
                    then mkEntry (contact e) true (active e) else e)
          (entries l)).

(** Modelled from the spec: [setActive], as [setContacted]. *)
Definition setActive (i : NodeId) (l : t) : t :=
  mk (ownId l)
     (map (fun e => if sameId (entryId e) i
                    then mkEntry (contact e) (contacted e) true else e)
          (entries l)).

(** Modelled from the spec: "the id of the entry at index 0, or a
    sentinel none if empty". *)
Definition getClosestContactId (l : t) : option NodeId :=
  match entries l with
  | [] => None
  | e :: _ => Some (entryId e)
  end.

(** Modelled from the spec: "filter where [active=true]". *)
Definition getActiveContacts (l : t) : list Contact.t :=
  map contact (List.filter active (entries l)).

(** The mutations a client can apply, for statements over every sequence
    of them. *)
Inductive Op : Type :=
| OpAddContact (c : Contact.t)
| OpAddContacts (cs : list Contact.t)
| OpSetContacted (i : NodeId)
| OpSetActive (i : NodeId).

Definition applyOp (l : t) (o : Op) : t :=
  match o with
  | OpAddContact c => addContact c l
  | OpAddContacts cs => addContacts cs l
  | OpSetContacted i => setContacted i l
  | OpSetActive i => setActive i l
  end.

Definition run (ops : list Op) (l : t) : t := fold_left applyOp ops l.

(** Ascending by distance to the owner id. *)
Definition sortedByDistance (l : t) : Prop :=
  Sorted (fun a b => (entryDistance (ownId l) a <= entryDistance (ownId l) b)%N)
         (entries l).

Definition bounded (l : t) : Prop := length (entries l) <= K.

End SortedContactList.

(** ** The routing tree of the [k-bucket] package *)

Module KBucket.

(** [DhtNode.ts] imports [KBucket] from the third-party package
    [k-bucket], which is not part of the repository.  The definitions
    below follow the package's documented behaviour for the four calls
    the node makes: [add], [get], [closest] and [count].

    The bucket is a binary tree.  A leaf holds at most
    [numberOfNodesPerKBucket] contacts; a full leaf on the path of the
    local id is split on the next bit of the ids, a full leaf off that
    path ([dontSplit]) takes no further contact.

    The package adds distances up in a JavaScript number, see
    [distance] below. *)
Inductive node : Type :=
| Leaf (contacts : list Contact.t) (dontSplit : bool)
| Inner (left right : node).

Record t : Type := mk {
  localNodeId : NodeId;
  numberOfNodesPerKBucket : nat;
  root : node
}.

(** [new KBucket({ localNodeId, numberOfNodesPerKBucket })] *)
Definition create (own : NodeId) (k : nat) : t := mk own k (Leaf [] false).

(** [_determineNode]: [true] selects the right child.  Bit [bitIndex] of
    the id, counted from the most significant bit of byte 0; an id that
    is too short goes left. *)
Definition goesRight (i : NodeId) (bitIndex : nat) : bool :=
  let bytesDescribedByBitIndex := bitIndex / 8 in
  let bitIndexWithinByte := bitIndex mod 8 in
  if (length i <=? bytesDescribedByBitIndex)
     && negb (bitIndexWithinByte =? 0)
  then false
  else match i !! bytesDescribedByBitIndex with
       | None => false
       | Some byteUnderConsideration =>
           N.testbit byteUnderConsideration
                     (N.of_nat (7 - bitIndexWithinByte))
       end.

(** [_indexOf]: the first position whose contact has the given id. *)
Fixpoint indexOf (cs : list Contact.t) (i : NodeId) : option nat :=
  match cs with
  | [] => None
  | c :: cs' =>
      if sameId (Contact.id c) i then Some 0
      else option_map S (indexOf cs' i)
  end.

(** [get(id)]: walk down on the bits of [id], then search the leaf. *)
Fixpoint getAt (n : node) (i : NodeId) (bitIndex : nat)
  : option Contact.t :=
  match n with
  | Leaf cs _ =>
      match indexOf cs i with
      | Some index => cs !! index
      | None => None
      end
  | Inner l r =>
      if goesRight i bitIndex
      then getAt r i (S bitIndex)
      else getAt l i (S bitIndex)
  end.

Definition get (i : NodeId) (b : t) : option Contact.t :=
  getAt (root b) i 0.

(** The leaf that [get] and [add] walk down to for the id: its contacts
    and its [dontSplit]. *)
Fixpoint leafAt (n : node) (i : NodeId) (bitIndex : nat)
  : list Contact.t * bool :=
  match n with
  | Leaf cs dontSplit => (cs, dontSplit)
  | Inner l r =>
      if goesRight i bitIndex
      then leafAt r i (S bitIndex)
      else leafAt l i (S bitIndex)
  end.

(** [add] at a leaf.  A contact whose id is present replaces the stored
    one and moves to the end ([_update]: the arbiter keeps the candidate
    when neither contact carries a vector clock).  Otherwise the contact
    is appended if there is room; a full [dontSplit] leaf only emits
    [ping], for which [DhtNode] registers no listener; any other full
    leaf is split ([_split]) on bit [bitIndex] and the contact is added
    again, one level down.

    The package re-adds without a bound.  Ids of one fixed length are
    told apart by one of their bits, so the bound [fuel] taken in [add]
    below is not reached for them; at the bound the leaf is returned as
    it is. *)
Fixpoint leafAdd (fuel : nat) (k : nat) (own : NodeId)
         (cs : list Contact.t) (dontSplit : bool) (bitIndex : nat)
         (c : Contact.t) : node :=
  match indexOf cs (Contact.id c) with
  | Some index => Leaf (delete index cs ++ [c]) dontSplit
  | None =>
      if length cs <? k then Leaf (cs ++ [c]) dontSplit
      else if dontSplit then Leaf cs dontSplit
      else
        match fuel with
        | O => Leaf cs dontSplit
        | S fuel' =>
            let lcs :=
              List.filter (fun x => negb (goesRight (Contact.id x) bitIndex)) cs in
            let rcs :=
              List.filter (fun x => goesRight (Contact.id x) bitIndex) cs in
            let ownRight := goesRight own bitIndex in
            if goesRight (Contact.id c) bitIndex
            then Inner (Leaf lcs ownRight)
                       (leafAdd fuel' k own rcs (negb ownRight) (S bitIndex) c)
            else Inner (leafAdd fuel' k own lcs ownRight (S bitIndex) c)
                       (Leaf rcs (negb ownRight))
        end
  end.

Fixpoint addAt (fuel k : nat) (own : NodeId) (n : node) (bitIndex : nat)
         (c : Contact.t) : node :=
  match n with
  | Leaf cs dontSplit => leafAdd fuel k own cs dontSplit bitIndex c
  | Inner l r =>
      if goesRight (Contact.id c) bitIndex
      then Inner l (addAt fuel k own r (S bitIndex) c)
      else Inner (addAt fuel k own l (S bitIndex) c) r
  end.

Definition add (c : Contact.t) (b : t) : t :=
  mk (localNodeId b) (numberOfNodesPerKBucket b)
     (addAt (8 * length (Contact.id c) + 1) (numberOfNodesPerKBucket b)
            (localNodeId b) (root b) 0 c).

(** [closest(id, n = Infinity)]: the limit is optional. *)
Definition reached (limit : option nat) (found : list Contact.t) : bool :=
  match limit with
  | None => false
  | Some n => n <=? length found
  end.

(** The traversal of [closest]: nodes are taken from a stack, the child
    on the side of [id] first; it stops once [limit] contacts are
    collected.  The bit index advances with every inner node taken. *)
Fixpoint collect (limit : option nat) (i : NodeId) (n : node)
         (bitIndex : nat) (found : list Contact.t)
  : list Contact.t * nat :=
  if reached limit found then (found, bitIndex)
  else
    match n with
    | Leaf cs _ => (found ++ cs, bitIndex)
    | Inner l r =>
        if goesRight i bitIndex
        then let '(found', bitIndex') := collect limit i r (S bitIndex) found in
             collect limit i l bitIndex' found'
        else let '(found', bitIndex') := collect limit i l (S bitIndex) found in
             collect limit i r bitIndex' found'
    end.

(** A JavaScript number is an IEEE 754 double: 53 significant bits,
    rounded to the nearest, ties to the even one, and a result of
    [2 ^ 1024] or more is [Infinity].  Only natural numbers occur here;
    [infinity] stands for [Infinity]. *)
Definition infinity : N := (2 ^ 1024)%N.

(** The double nearest to the natural number [n]. *)
Definition toDouble (n : N) : N :=
  if (n <? 2 ^ 53)%N then n
  else
    let e := (N.log2 n - 52)%N in
    let q := N.shiftr n e in
    let r := (n - N.shiftl q e)%N in
    let half := N.shiftl 1 (e - 1) in
    let q' :=
      if (r <? half)%N then q
      else if (half <? r)%N then (q + 1)%N
      else if N.even q then q else (q + 1)%N in
    N.min (N.shiftl q' e) infinity.

(** [for (; i < max; ++i) distance = distance * 256 + 255] *)
Fixpoint padDistance (acc : N) (n : nat) : N :=
  match n with
  | O => acc
  | S n' => padDistance (toDouble (acc * 256 + 255)) n'
  end.

(** [distance = distance * 256 + (firstId[i] ^ secondId[i])], for
    [i < min].  The product is exact or [Infinity]; the sum is
    rounded. *)
Fixpoint distanceFrom (acc : N) (a b : NodeId) {struct a} : N :=
  match a, b with
  | [], _ => padDistance acc (length b)
  | _ :: _, [] => padDistance acc (length a)
  | x :: a', y :: b' => distanceFrom (toDouble (acc * 256 + N.lxor x y)) a' b'
  end.

(** [KBucket.distance(firstId, secondId)] *)
Definition distance (a b : NodeId) : N := distanceFrom 0%N a b.

(** [.sort((a, b) => a[0] - b[0])] on the distances: a stable sort.
    The difference of two [Infinity] is [NaN], which [sort] takes for
    zero. *)
Fixpoint insertByDistance (i : NodeId) (c : Contact.t)
         (cs : list Contact.t) : list Contact.t :=
  match cs with
  | [] => [c]
  | x :: xs =>
      if (distance (Contact.id c) i <? distance (Contact.id x) i)%N
      then c :: x :: xs
      else x :: insertByDistance i c xs
  end.

Definition sortByDistance (i : NodeId) (cs : list Contact.t)
  : list Contact.t :=
  fold_left (fun acc c => insertByDistance i c acc) cs [].

(** [.slice(0, n)] *)
Definition slice0 (limit : option nat) (cs : list Contact.t)
  : list Contact.t :=
  match limit with
  | None => cs
  | Some n => take n cs
  end.

Definition closest (i : NodeId) (limit : option nat) (b : t)
  : list Contact.t :=
  slice0 limit (sortByDistance i (fst (collect limit i (root b) 0 []))).

(** Every contact stored under a node, leaves from left to right. *)
Fixpoint contactsOf (n : node) : list Contact.t :=
  match n with
  | Leaf cs _ => cs
  | Inner l r => contactsOf l ++ contactsOf r
  end.

(** [count()] *)
Definition count (b : t) : nat := length (contactsOf (root b)).

End KBucket.

(** ** DhtNode *)

Module DhtNode.

Definition K : nat := 8.
Definition ALPHA : nat := 3.

(** The fields of a [DhtNode] object.  [ownContact] is
    [new Contact(ownId, this)] and is rebuilt from the handle where it is
    read, see [getContact]. *)
Record t : Type := mk {
  bucket : KBucket.t;
  ownId : NodeId;
  numberOfIncomingRpcCalls : nat;
  numberOfOutgoingRpcCalls : nat;
  neighborList : SortedContactList.t
}.

(** [constructor(ownId)] *)
Definition create (own : NodeId) : t :=
  mk (KBucket.create own K) own 0 0 (SortedContactList.empty own).

(** Node objects live in a store and are named by handles: a contact
    holds the handle of its node, several contacts may hold the same one,
    and a call on a handle updates the one object behind it. *)
Definition Store : Type := NodeRef -> t.

Definition update (r : NodeRef) (f : t -> t) (s : Store) : Store :=
  fun r' => if decide (r' = r) then f (s r') else s r'.

Definition withBucket (f : KBucket.t -> KBucket.t) (n : t) : t :=
  mk (f (bucket n)) (ownId n) (numberOfIncomingRpcCalls n)
     (numberOfOutgoingRpcCalls n) (neighborList n).

Definition withNeighborList
           (f : SortedContactList.t -> SortedContactList.t) (n : t) : t :=
  mk (bucket n) (ownId n) (numberOfIncomingRpcCalls n)
     (numberOfOutgoingRpcCalls n) (f (neighborList n)).

Definition countIncoming (n : t) : t :=
  mk (bucket n) (ownId n) (S (numberOfIncomingRpcCalls n))
     (numberOfOutgoingRpcCalls n) (neighborList n).

Definition countOutgoing (n : t) : t :=
  mk (bucket n) (ownId n) (numberOfIncomingRpcCalls n)
     (S (numberOfOutgoingRpcCalls n)) (neighborList n).

Definition getNeightborList (s : Store) (this : NodeRef)
  : SortedContactList.t :=
  neighborList (s this).

Definition getContact (s : Store) (this : NodeRef) : Contact.t :=
  Contact.mk (ownId (s this)) this.

Definition getKBucketSize (s : Store) (this : NodeRef) : nat :=
  KBucket.count (bucket (s this)).

Definition getNumberOfIncomingRpcCalls (s : Store) (this : NodeRef) : nat :=
  numberOfIncomingRpcCalls (s this).

Definition getNumberOfOutgoingRpcCalls (s : Store) (this : NodeRef) : nat :=
  numberOfOutgoingRpcCalls (s this).

(** [getClosestNodesTo(id, caller)], called on the object [this]. *)
Definition getClosestNodesTo (this : NodeRef) (i : NodeId)
           (caller : NodeRef) (s : Store) : list Contact.t * Store :=
  let s1 := update this countIncoming s in
  let ret := KBucket.closest i None (bucket (s1 this)) in
  let s2 :=
    match KBucket.get i (bucket (s1 this)) with
    | Some _ => s1
    | None =>
        let contact := Contact.mk i caller in
        let s' := update this (withBucket (KBucket.add contact)) s1 in
        update this (withNeighborList (SortedContactList.addContact contact)) s'
    end in
  (ret, s2).

(** One turn of the [forEach] in [findMoreContacts(contactList,
    shortlist)].  A [SortedContactList] object is reached through the
    node that holds it as its [neighborList]: [shortlist] names that
    node.  The list is therefore read from the store after the call to
    the contacted node, which may be a call to the very node that holds
    the list. *)
Definition probe (this shortlist : NodeRef) (s : Store)
           (contact : Contact.t) : Store :=
  let s1 := update shortlist
              (withNeighborList
                 (SortedContactList.setContacted (Contact.id contact))) s in
  let s2 := update shortlist
              (withNeighborList
                 (SortedContactList.setActive (Contact.id contact))) s1 in
  let s3 := update this countOutgoing s2 in
  let '(returnedContacts, s4) :=
    getClosestNodesTo (Contact.dhtNode contact) (ownId (s3 this)) this s3 in
  let s5 := update shortlist
              (withNeighborList
                 (SortedContactList.addContacts returnedContacts)) s4 in
  fold_left
    (fun acc returnedContact =>
       match KBucket.get (Contact.id returnedContact) (bucket (acc this)) with
       | Some _ => acc
       | None => update this (withBucket (KBucket.add returnedContact)) acc
       end)
    returnedContacts s5.

Definition findMoreContacts (this : NodeRef)
           (contactList : list Contact.t) (shortlist : NodeRef)
           (s : Store) : Store :=
  fold_left (probe this shortlist) contactList s.

Definition closestContactId (s : Store) (this : NodeRef) : option NodeId :=
  SortedContactList.getClosestContactId (neighborList (s this)).

Definition uncontacted (limit : nat) (s : Store) (this : NodeRef)
  : list Contact.t :=
  SortedContactList.getUncontactedContacts limit (neighborList (s this)).

Definition activeCount (s : Store) (this : NodeRef) : nat :=
  length (SortedContactList.getActiveContacts (neighborList (s this))).

(** What one probe round did: the contacts it was given and the node's
    state before and after.  The loops return the rounds they made next
    to the final store. *)
Record Round : Type := mkRound {
  probed : list Contact.t;
  before : t;
  after : t
}.

(** [oldClosestContactId == this.neighborList.getClosestContactId()].
    The source compares the two [Uint8Array] references.  The entry at
    index 0 is replaced only by an entry inserted in front of it, and an
    entry is inserted only when no entry has its id, so the references
    differ exactly when the contents do. *)
Definition sameClosest (old new : option NodeId) : bool :=
  bool_decide (old = new).

(** The inner [while (true)] of [joinDht]; [fuel] bounds the number of
    turns and [None] means the bound was reached. *)
Fixpoint widenedLoop (fuel : nat) (this : NodeRef)
         (uncontacted0 : list Contact.t) (s : Store)
  : option (list Round * Store) :=
  match fuel with
  | O => None
  | S fuel' =>
      let oldClosestContactId := closestContactId s this in
      let s1 := findMoreContacts this uncontacted0 this s in
      let r := mkRound uncontacted0 (s this) (s1 this) in
      if (K <=? activeCount s1 this)
         || sameClosest oldClosestContactId (closestContactId s1 this)
      then Some ([r], s1)
      else
        match widenedLoop fuel' this (uncontacted ALPHA s1 this) s1 with
        | Some (rs, s') => Some (r :: rs, s')
        | None => None
        end
  end.

(** The outer [while (true)] of [joinDht]. *)
Fixpoint lookupLoop (fuel : nat) (this : NodeRef) (s : Store)
  : option (list Round * Store) :=
  match fuel with
  | O => None
  | S fuel' =>
      let oldClosestContactId := closestContactId s this in
      let uncontacted0 := uncontacted ALPHA s this in
      let s1 := findMoreContacts this uncontacted0 this s in
      let r := mkRound uncontacted0 (s this) (s1 this) in
      let rest :=
        if sameClosest oldClosestContactId (closestContactId s1 this)
        then widenedLoop fuel' this (uncontacted K s1 this) s1
        else lookupLoop fuel' this s1 in
      match rest with
      | Some (rs, s') => Some (r :: rs, s')
      | None => None
      end
  end.

(** [joinDht(entryPoint)], called on the object [this]. *)
Definition joinDht (fuel : nat) (this entryPoint : NodeRef) (s : Store)
  : option (list Round * Store) :=
  if sameId (Contact.id (getContact s entryPoint)) (ownId (s this))
  then Some ([], s)
  else
    let s1 := update this
                (withBucket (KBucket.add (getContact s entryPoint))) s in
    let closest :=
      KBucket.closest (ownId (s1 this)) (Some ALPHA) (bucket (s1 this)) in
    let s2 := update this
                (withNeighborList (SortedContactList.addContacts closest))
                s1 in
    lookupLoop fuel this s2.

End DhtNode.

(** ** Vocabulary of the statements about the lookup *)

(** [new] is the closest contact id after some steps, [old] the one before:
    either nothing moved, or a contact strictly closer to [own] came to the
    front. *)
Definition improves (own : NodeId) (old new : option NodeId) : Prop :=
  old = new \/
  exists n, new = Some n /\
            forall o, old = Some o -> (distance own n < distance own o)%N.

(** The distance of the closest contact did not grow. *)
Definition notFarther (own : NodeId) (old new : option NodeId) : Prop :=
  forall o, old = Some o ->
            exists n, new = Some n /\ (distance own n <= distance own o)%N.

(** The node measures its neighbor list against its own id, as the
    constructor sets it up. *)
Definition ownsNeighborList (n : DhtNode.t) : Prop :=
  SortedContactList.ownId (DhtNode.neighborList n) = DhtNode.ownId n.

Definition closestOf (n : DhtNode.t) : option NodeId :=
  SortedContactList.getClosestContactId (DhtNode.neighborList n).

Definition activeOf (n : DhtNode.t) : nat :=
  length (SortedContactList.getActiveContacts (DhtNode.neighborList n)).

Definition uncontactedOf (limit : nat) (n : DhtNode.t) : list Contact.t :=
  SortedContactList.getUncontactedContacts limit (DhtNode.neighborList n).

(** The closest contact id is the same before and after the round. *)
Definition converged (r : DhtNode.Round) : Prop :=
  closestOf (DhtNode.before r) = closestOf (DhtNode.after r).

(** The round probed up to [limit] uncontacted contacts of the list as it
    was when the round began. *)
Definition probedUpTo (limit : nat) (r : DhtNode.Round) : Prop :=
  DhtNode.probed r = uncontactedOf limit (DhtNode.before r).

(** The test that ends the widened search. *)
Definition stops (r : DhtNode.Round) : Prop :=
  DhtNode.K <= activeOf (DhtNode.after r) \/ converged r.

(** Each round starts from the state the previous one left. *)
Fixpoint chained (rs : list DhtNode.Round) : Prop :=
  match rs with
  | r :: ((r' :: _) as rest) =>
      DhtNode.before r' = DhtNode.after r /\ chained rest
  | _ => True
  end.

(** Rounds of the widened search after its first one: every round but the
    last fails the test and is followed by a round of width [ALPHA]; the
    last round passes the test. *)
Fixpoint widenedRounds (r : DhtNode.Round) (rest : list DhtNode.Round)
  : Prop :=
  match rest with
  | [] => stops r
  | r' :: rest' =>
      ~ stops r /\ probedUpTo DhtNode.ALPHA r' /\ widenedRounds r' rest'
  end.

(** The state the last round left is the state of the node at the end. *)
Definition endsIn (n : DhtNode.t) (rs : list DhtNode.Round) : Prop :=
  match last rs with
  | Some r => DhtNode.after r = n
  | None => True
  end.

(** What every step of the protocol preserves, for each node of the
    store: its id, the owner id of its list, and a closest contact that
    only moves closer. *)
Definition nodeAdvances (n n' : DhtNode.t) : Prop :=
  DhtNode.ownId n' = DhtNode.ownId n /\
  SortedContactList.ownId (DhtNode.neighborList n')
  = SortedContactList.ownId (DhtNode.neighborList n) /\
  improves (SortedContactList.ownId (DhtNode.neighborList n))
           (closestOf n) (closestOf n').

Definition advances (s s' : DhtNode.Store) : Prop :=
  forall r, nodeAdvances (s r) (s' r).

(** The invariant of a contact list owned by [own]. *)
Definition wellFormed (own : NodeId) (l : SortedContactList.t) : Prop :=
  SortedContactList.ownId l = own /\
  length (SortedContactList.entries l) <= SortedContactList.K /\
  Sorted (fun a b => (SortedContactList.entryDistance own a
                      <= SortedContactList.entryDistance own b)%N)
         (SortedContactList.entries l) /\
  NoDup (map SortedContactList.entryId (SortedContactList.entries l)).

(** The order [closest] returns contacts in: by the distance the package
    computes. *)
Definition closerTo (i : NodeId) (a b : Contact.t) : Prop :=
  (KBucket.distance (Contact.id a) i <= KBucket.distance (Contact.id b) i)%N.

(** Ascending by the XOR distance of section 3 of the spec. *)
Definition xorCloserTo (i : NodeId) (a b : Contact.t) : Prop :=
  (distance (Contact.id a) i <= distance (Contact.id b) i)%N.

(** The elements of a [Uint8Array] are below 256. *)
Definition isBytes (i : NodeId) : Prop := Forall (fun x => (x < 256)%N) i.

(** The responder holds a contact that refers to the node [caller]. *)
Definition knows (n : DhtNode.t) (caller : NodeRef) : Prop :=
  exists c, c ∈ KBucket.contactsOf (KBucket.root (DhtNode.bucket n))
            /\ Contact.dhtNode c = caller.

(** [joinDht(entryPoint)] called [times] times in a row. *)
Fixpoint joinRepeatedly (times fuel : nat) (this entryPoint : NodeRef)
         (s : DhtNode.Store) : option DhtNode.Store :=
  match times with
  | O => Some s
  | S times' =>
      match DhtNode.joinDht fuel this entryPoint s with
      | Some (_, s') => joinRepeatedly times' fuel this entryPoint s'
      | None => None
      end
  end.

(** ** Stores used in examples *)

(** Node [r] has the one-byte id [r]; nothing has happened yet. *)
Definition fresh : DhtNode.Store := fun r => DhtNode.create [N.of_nat r].

(** The node [caller] looks itself up at [this], as [findMoreContacts]
    does. *)
Definition ask (this : NodeRef) (s : DhtNode.Store) (caller : NodeRef)
  : DhtNode.Store :=
  snd (DhtNode.getClosestNodesTo this (DhtNode.ownId (s caller)) caller s).

(** Node 0 after nine nodes have looked themselves up there. *)
Definition crowded : DhtNode.Store :=
  fold_left (ask 0) [128; 129; 130; 131; 132; 133; 134; 135; 1] fresh.

(** ** The gossip overlay of a node *)

Module Gossip.

(** Modelled from the spec: the node logic of the overlay ([logic/Node],
    [NetworkNode]) is not among the sources; only an integration test
    of it is.  Section 3 of the spec gives the data, section 4.3 the
    operations. *)
Abbreviation PeerId := string (only parsing).
Abbreviation StreamPart := (string * nat)%type (only parsing).

(** Modelled from the spec: the message identity
    "(streamId, partition, publisherId, msgChainId, timestamp,
    sequenceNumber)". *)
Record MessageID : Type := mkMessageID {
  streamId : string;
  streamPartition : nat;
  timestamp : nat;
  sequenceNumber : nat;
  publisherId : string;
  msgChainId : string
}.

#[global] Instance MessageID_eq_dec : EqDecision MessageID.
Proof. solve_decision. Defined.

(** Modelled from the spec: a message is its identity and a content;
    the test builds one with [new StreamMessage({ messageId, content })]. *)
Record StreamMessage : Type := mkStreamMessage {
  messageId : MessageID;
  content : string
}.

#[global] Instance StreamMessage_eq_dec : EqDecision StreamMessage.
Proof. solve_decision. Defined.

(** Modelled from the spec: "(message.streamId, message.partition)". *)
Definition partOf (m : StreamMessage) : StreamPart :=
  (streamId (messageId m), streamPartition (messageId m)).

(** Modelled from the spec: the lifecycle events of section 6 that the
    operations below emit. *)
Inductive Event : Type :=
| NODE_UNSUBSCRIBED (peer : PeerId) (sp : StreamPart)
| NODE_DISCONNECTED (peer : PeerId)
| UNSEEN_MESSAGE_RECEIVED (m : StreamMessage).

(** Modelled from the spec, 4.3: the "states per (node, streamId,
    partition) pair", which the node's own [subscribe] and
    [unsubscribe] move. *)
Inductive SubscriptionState : Type :=
| UNSUBSCRIBED
| SUBSCRIBING
| SUBSCRIBED
| UNSUBSCRIBING.

#[global] Instance SubscriptionState_eq_dec : EqDecision SubscriptionState.
Proof. solve_decision. Defined.

(** Modelled from the spec: [states] holds the state of the node for
    each partition, a partition without an entry being [UNSUBSCRIBED];
    the "stream partition subscription set" maps a partition to "the
    set of neighbor connections currently carrying that partition's
    traffic"; connections are per peer and shared by partitions; the
    "deduplication cache" is a recency list of identities bounded by a
    count. *)
Record Node : Type := mkNode {
  states : gmap StreamPart SubscriptionState;
  subscriptions : gmap StreamPart (gset PeerId);
  connections : gset PeerId;
  cacheSize : nat;
  dedupCache : list MessageID;
  delivered : list StreamMessage;
  events : list Event
}.

(** Modelled from the spec: the "neighbor connections currently carrying
    that partition's traffic". *)
Definition neighborsOn (sp : StreamPart) (n : Node) : gset PeerId :=
  default ∅ (subscriptions n !! sp).

(** Modelled from the spec: the state of the node for a partition. *)
Definition stateOf (sp : StreamPart) (n : Node) : SubscriptionState :=
  default UNSUBSCRIBED (states n !! sp).

(** Modelled from the spec: "locally subscribed": the node's own state
    for the partition is [SUBSCRIBED], whoever its neighbors are. *)
Definition subscribedTo (sp : StreamPart) (n : Node) : bool :=
  bool_decide (stateOf sp n = SUBSCRIBED).

(** Modelled from the spec: "an atomic check-and-insert on the cache
    keyed by message identity"; the most recent identity is in front and
    the oldest falls out beyond [cacheSize]. *)
Definition checkAndInsert (i : MessageID) (size : nat)
           (cache : list MessageID) : bool * list MessageID :=
  if bool_decide (i ∈ cache)
  then (false, i :: List.filter (fun j => negb (bool_decide (j = i))) cache)
  else (true, take size (i :: cache)).

(** Modelled from the spec, [publish(message)]: "run through dedup
    cache; if novel, forward to every neighbor currently subscribed to
    (message.streamId, message.partition) except the one it arrived from
    (if relayed); deliver to local listeners if locally subscribed".
    The result is the node and the peers the message is forwarded to. *)
Definition publish (m : StreamMessage) (source : option PeerId) (n : Node)
  : Node * list PeerId :=
  let '(novel, cache) :=
    checkAndInsert (messageId m) (cacheSize n) (dedupCache n) in
  if novel then
    let targets :=
      List.filter (fun p => negb (bool_decide (source = Some p)))
                  (elements (neighborsOn (partOf m) n)) in
    if subscribedTo (partOf m) n
    then (mkNode (states n) (subscriptions n) (connections n) (cacheSize n)
                 cache (delivered n ++ [m])
                 (events n ++ [UNSEEN_MESSAGE_RECEIVED m]),
          targets)
    else (mkNode (states n) (subscriptions n) (connections n) (cacheSize n)
                 cache (delivered n) (events n),
          targets)
  else (mkNode (states n) (subscriptions n) (connections n) (cacheSize n)
               cache (delivered n) (events n),
        []).

(** Modelled from the spec: a "remaining shared partition": the peer
    carries at least one partition of the node. *)
Definition sharesPartition (peer : PeerId) (n : Node) : Prop :=
  map_Exists (fun _ neighbors => peer ∈ neighbors) (subscriptions n).

#[global] Instance sharesPartition_dec peer n : Decision (sharesPartition peer n).
Proof. unfold sharesPartition. apply map_Exists_dec. intros ? ?. apply _. Defined.

(** Modelled from the spec: "if no remaining shared partition exists,
    close the underlying connection (emit disconnect event)". *)
Definition closeIfUnshared (peer : PeerId) (n : Node) : Node :=
  if decide (sharesPartition peer n) then n
  else mkNode (states n) (subscriptions n) (connections n ∖ {[peer]})
              (cacheSize n) (dedupCache n) (delivered n)
              (events n ++ [NODE_DISCONNECTED peer]).

(** Modelled from the spec: an unsubscribe control message from [peer]
    takes it out of the partition's neighbor set; the "entry [is]
    removed when neighbor count drops to zero".  The node's own state
    for the partition stays what it is. *)
Definition onUnsubscribeRequest (peer : PeerId) (sp : StreamPart)
           (n : Node) : Node :=
  let remaining := neighborsOn sp n ∖ {[peer]} in
  let subscriptions' :=
    if decide (remaining = ∅) then delete sp (subscriptions n)
    else <[sp := remaining]> (subscriptions n) in
  closeIfUnshared peer
    (mkNode (states n) subscriptions' (connections n) (cacheSize n)
            (dedupCache n) (delivered n)
            (events n ++ [NODE_UNSUBSCRIBED peer sp])).

(** Modelled from the spec: the nodes of a network, by peer id. *)
Abbreviation Network := (gmap string Node) (only parsing).

(** Modelled from the spec, [unsubscribe(streamId, partition)]:
    "transition to UNSUBSCRIBING; send unsubscribe control messages to
    all neighbors on that partition; remove the partition entry; for
    each neighbor, if no remaining shared partition exists, close the
    underlying connection".  The call runs to its end, where the state
    is [UNSUBSCRIBED]. *)
Definition unsubscribe (self : PeerId) (sp : StreamPart) (net : Network)
  : Network :=
  match net !! self with
  | None => net
  | Some n =>
      let neighbors := elements (neighborsOn sp n) in
      let net' :=
        foldr (fun peer acc => alter (onUnsubscribeRequest self sp) peer acc)
              net neighbors in
      let n' := mkNode (<[sp := UNSUBSCRIBED]> (states n))
                       (delete sp (subscriptions n)) (connections n)
                       (cacheSize n) (dedupCache n) (delivered n)
                       (events n) in
      <[self := foldr closeIfUnshared n' neighbors]> net'
  end.

(** Modelled from the spec: "forward to every neighbor".  Forwarded
    messages travel one at a time; each arrives at its target as a
    relayed [publish].  [fuel] bounds the number of arrivals. *)
Fixpoint relay (fuel : nat) (inFlight : list (PeerId * PeerId * StreamMessage))
         (net : Network) : Network :=
  match fuel, inFlight with
  | S fuel', (target, source, m) :: rest =>
      match net !! target with
      | None => relay fuel' rest net
      | Some n =>
          let '(n', targets) := publish m (Some source) n in
          relay fuel' (rest ++ map (fun p => (p, target, m)) targets)
                (<[target := n']> net)
      end
  | _, _ => net
  end.

(** Modelled from the spec, section 6: [publishToNode(message)], "fire
    to local node for propagation", at the node [self]. *)
Definition publishToNode (fuel : nat) (self : PeerId) (m : StreamMessage)
           (net : Network) : Network :=
  match net !! self with
  | None => net
  | Some n =>
      let '(n', targets) := publish m None n in
      relay fuel (map (fun p => (p, self, m)) targets) (<[self := n']> net)
  end.

End Gossip.

(** Deliveries one after the other at one node; what is forwarded is
    dropped. *)
Definition publishAll (ms : list (Gossip.StreamMessage * option Gossip.PeerId))
           (n : Gossip.Node) : Gossip.Node :=
  fold_left (fun acc '(m, source) => fst (Gossip.publish m source acc)) ms n.

(** How often a message of the identity [i] was handed to the listeners. *)
Definition deliveriesOf (i : Gossip.MessageID) (n : Gossip.Node) : nat :=
  length (List.filter (fun x => bool_decide (Gossip.messageId x = i))
                      (Gossip.delivered n)).

(** Two nodes that are each other's only neighbor, on the partitions 1 and
    2 of the stream [s]. *)
Definition pairedOn (s : string) (peer : Gossip.PeerId) (n : Gossip.Node)
  : Prop :=
  Gossip.subscriptions n = {[ (s, 1) := {[peer]}; (s, 2) := {[peer]} ]} /\
  Gossip.connections n = {[peer]}.

(** The identity is among the first [S k] of the cache. *)
Definition recentWithin (k : nat) (i : Gossip.MessageID)
           (cache : list Gossip.MessageID) : Prop :=
  exists j, j <= k /\ cache !! j = Some i.

(** The node after a first arrival of [m] that is handed to the
    listeners. *)
Definition received (m : Gossip.StreamMessage) (n : Gossip.Node)
  : Gossip.Node :=
  Gossip.mkNode (Gossip.states n) (Gossip.subscriptions n)
                (Gossip.connections n) (Gossip.cacheSize n)
                (take (Gossip.cacheSize n)
                      (Gossip.messageId m :: Gossip.dedupCache n))
                (Gossip.delivered n ++ [m])
                (Gossip.events n ++ [Gossip.UNSEEN_MESSAGE_RECEIVED m]).

(** The node after a first arrival of [m] on a partition it is not
    subscribed to. *)
Definition noted (m : Gossip.StreamMessage) (n : Gossip.Node)
  : Gossip.Node :=
  Gossip.mkNode (Gossip.states n) (Gossip.subscriptions n)
                (Gossip.connections n) (Gossip.cacheSize n)
                (take (Gossip.cacheSize n)
                      (Gossip.messageId m :: Gossip.dedupCache n))
                (Gossip.delivered n) (Gossip.events n).

(** The node with its state for the partition [sp] set to [st]. *)
Definition withState (sp : Gossip.StreamPart) (st : Gossip.SubscriptionState)
           (n : Gossip.Node) : Gossip.Node :=
  Gossip.mkNode (<[sp := st]> (Gossip.states n)) (Gossip.subscriptions n)
                (Gossip.connections n) (Gossip.cacheSize n)
                (Gossip.dedupCache n) (Gossip.delivered n) (Gossip.events n).

(** The node whose neighbor map keeps partition 1 of the stream [s]
    only, with [evs] emitted. *)
Definition onlyFirst (s : string) (peer : Gossip.PeerId)
           (evs : list Gossip.Event) (n : Gossip.Node) : Gossip.Node :=
  Gossip.mkNode (Gossip.states n) {[ (s, 1) := {[peer]} ]}
                (Gossip.connections n) (Gossip.cacheSize n)
                (Gossip.dedupCache n) (Gossip.delivered n)
                (Gossip.events n ++ evs).

(** Two nodes that differ at most in what they hold for the partition
    [sp], in their connections and in their events. *)
Definition agreeOff (sp : Gossip.StreamPart) (n n' : Gossip.Node) : Prop :=
  Gossip.cacheSize n' = Gossip.cacheSize n /\
  Gossip.dedupCache n' = Gossip.dedupCache n /\
  Gossip.delivered n' = Gossip.delivered n /\
  forall sp', sp' <> sp ->
              Gossip.neighborsOn sp' n' = Gossip.neighborsOn sp' n /\
              Gossip.stateOf sp' n' = Gossip.stateOf sp' n.

(** ** Lists and nodes used in examples *)

(** Eight contacts fill a list; one of them is marked. *)
Definition fullList : list SortedContactList.Op :=
  [SortedContactList.OpAddContacts
     [Contact.mk [10%N] 10; Contact.mk [11%N] 11; Contact.mk [12%N] 12;
      Contact.mk [13%N] 13; Contact.mk [14%N] 14; Contact.mk [15%N] 15;
      Contact.mk [16%N] 16; Contact.mk [17%N] 17];
   SortedContactList.OpSetContacted [12%N]].

(** The nodes and messages of [unsubscribe-from-stream.test.ts]: a node
    subscribed to the partitions 1 and 2 of the stream "s" with one
    neighbor, and one message for each partition. *)
Definition pairNode (peer : Gossip.PeerId) : Gossip.Node :=
  Gossip.mkNode {[ ("s"%string, 1) := Gossip.SUBSCRIBED;
                   ("s"%string, 2) := Gossip.SUBSCRIBED ]}
                {[ ("s"%string, 1) := {[peer]}; ("s"%string, 2) := {[peer]} ]}
                {[peer]} 10 [] [] [].

Definition message1 : Gossip.StreamMessage :=
  Gossip.mkStreamMessage
    (Gossip.mkMessageID "s" 1 0 0 "publisherId" "msgChainId") "{}".

Definition message2 : Gossip.StreamMessage :=
  Gossip.mkStreamMessage
    (Gossip.mkMessageID "s" 2 0 0 "publisherId" "msgChainId") "{}".

(** Whoever is marked active was contacted: [findMoreContacts] sets the
    two flags together. *)
Definition flagsConsistent (l : SortedContactList.t) : Prop :=
  Forall (fun e => SortedContactList.active e = true ->
                   SortedContactList.contacted e = true)
         (SortedContactList.entries l).

(** A node whose neighbor list is in order. *)
Definition sound (n : DhtNode.t) : Prop :=
  wellFormed (DhtNode.ownId n) (DhtNode.neighborList n) /\
  flagsConsistent (DhtNode.neighborList n).



(** ** Vocabulary of the statements about calls and contacts *)

(** Every contact a run probed, round by round. *)
Definition probedContacts (rounds : list DhtNode.Round) : list Contact.t :=
  concat (map DhtNode.probed rounds).

(** How many of the contacts refer to the node [r]. *)
Definition callsTo (r : NodeRef) (cs : list Contact.t) : nat :=
  length (List.filter (fun c => bool_decide (Contact.dhtNode c = r)) cs).

(** [bucket.get(id)] finds a contact. *)
Definition knowsId (i : NodeId) (n : DhtNode.t) : Prop :=
  is_Some (KBucket.get i (DhtNode.bucket n)).

(** The id is not in the list, and the list is full of entries that are
    at most as far from the owner as the id is. *)
Definition outOfReach (i : NodeId) (l : SortedContactList.t) : Prop :=
  SortedContactList.hasId i (SortedContactList.entries l) = false /\
  SortedContactList.K <= length (SortedContactList.entries l) /\
  Forall (fun e => (SortedContactList.entryDistance (SortedContactList.ownId l) e
                    <= distance (SortedContactList.ownId l) i)%N)
         (SortedContactList.entries l).

(** An entry with the id passes the test [q], or the id is out of
    reach. *)
Definition heldOrOut (q : SortedContactList.Entry -> bool) (i : NodeId)
           (l : SortedContactList.t) : Prop :=
  (exists e, e ∈ SortedContactList.entries l /\
             SortedContactList.entryId e = i /\ q e = true)
  \/ outOfReach i l.

(** The id is in the list, or out of reach. *)
Definition listed : NodeId -> SortedContactList.t -> Prop :=
  heldOrOut (fun _ => true).

(** The id is in the list and marked contacted, or out of reach. *)
Definition asked : NodeId -> SortedContactList.t -> Prop :=
  heldOrOut SortedContactList.contacted.




(** The contact in front of the neighbor list, if there is one, has been
    contacted. *)
Definition closestAsked (n : DhtNode.t) : Prop :=
  forall e, head (SortedContactList.entries (DhtNode.neighborList n)) = Some e ->
            SortedContactList.contacted e = true.

(** * Facts about the sorted contact list *)

Section SortedListFacts.
Import SortedContactList.
Variable own : NodeId.

Let le (a b : Entry) : Prop := (entryDistance own a <= entryDistance own b)%N.

Lemma insertSorted_length e es :
  length (insertSorted own e es) = S (length es).
Proof.
  induction es as [|x xs IH]; simpl; [reflexivity|].
  destruct (_ <? _)%N; simpl; congruence.
Qed.

Lemma insertSorted_perm e es : insertSorted own e es ≡ₚ e :: es.
Proof.
  induction es as [|x xs IH]; simpl; [reflexivity|].
  destruct (_ <? _)%N; [reflexivity|].
  rewrite IH. apply Permutation_swap.
Qed.

Lemma insertSorted_ids e es :
  map entryId (insertSorted own e es) ≡ₚ entryId e :: map entryId es.
Proof.
  change (entryId e :: map entryId es) with (map entryId (e :: es)).
  apply Permutation_map, insertSorted_perm.
Qed.

Lemma insertSorted_HdRel a e es :
  le a e -> HdRel le a es -> HdRel le a (insertSorted own e es).
Proof.
  intros Hae Hhd. destruct es as [|x xs]; simpl.
  - constructor; exact Hae.
  - destruct (_ <? _)%N; constructor; [exact Hae|].
    inversion Hhd; assumption.
Qed.

Lemma insertSorted_sorted e es :
  Sorted le es -> Sorted le (insertSorted own e es).
Proof.
  induction 1 as [|x xs Hs IH Hhd]; simpl.
  - repeat constructor.
  - destruct (N.ltb_spec (entryDistance own e) (entryDistance own x)) as [Hlt|Hge].
    + constructor; [constructor; assumption|].
      constructor. unfold le. lia.
    + constructor; [exact IH|].
      apply insertSorted_HdRel; [exact Hge | exact Hhd].
Qed.

Lemma removelast_sorted es : Sorted le es -> Sorted le (removelast es).
Proof.
  induction 1 as [|x xs Hs IH Hhd]; simpl; [constructor|].
  destruct xs as [|y ys]; [constructor|].
  constructor; [exact IH|].
  inversion Hhd; subst. simpl. destruct ys; constructor; assumption.
Qed.

Lemma evictFarthest_sorted es : Sorted le es -> Sorted le (evictFarthest es).
Proof.
  intros Hs. unfold evictFarthest.
  destruct (K <? length es); [apply removelast_sorted|]; exact Hs.
Qed.

Lemma removelast_length (es : list Entry) :
  length (removelast es) = pred (length es).
Proof.
  induction es as [|x [|y ys] IH]; simpl in *; [reflexivity..|].
  rewrite IH. reflexivity.
Qed.

Lemma evictFarthest_length es :
  length es <= S K -> length (evictFarthest es) <= K.
Proof.
  intros Hlen. unfold evictFarthest.
  destruct (Nat.ltb_spec K (length es)) as [Hlt|Hge].
  - rewrite removelast_length. lia.
  - exact Hge.
Qed.

Lemma removelast_sublist (es : list Entry) : sublist (removelast es) es.
Proof.
  induction es as [|x [|y ys] IH]; simpl in *.
  - constructor.
  - apply sublist_nil_l.
  - apply sublist_skip. exact IH.
Qed.

Lemma evictFarthest_sublist es : sublist (evictFarthest es) es.
Proof.
  unfold evictFarthest. destruct (K <? length es); [apply removelast_sublist|reflexivity].
Qed.

Lemma hasId_false i es :
  hasId i es = false <-> i ∉ map entryId es.
Proof.
  unfold hasId, sameId. induction es as [|x xs IH]; simpl.
  - split; [intros _ H; inversion H | reflexivity].
  - rewrite orb_false_iff, IH, bool_decide_eq_false, not_elem_of_cons.
    split; intros [H1 H2]; split; auto.
Qed.

Lemma hasId_true i es :
  hasId i es = true <-> i ∈ map entryId es.
Proof.
  destruct (hasId i es) eqn:E.
  - split; [intros _|reflexivity].
    destruct (decide (i ∈ map entryId es)) as [|Hn]; [assumption|].
    apply hasId_false in Hn. congruence.
  - apply hasId_false in E. split; [discriminate|]. intros; contradiction.
Qed.

Lemma empty_wellFormed : wellFormed own (empty own).
Proof. repeat split; simpl; [unfold K; lia | constructor | constructor]. Qed.

Lemma addContact_wellFormed c l : wellFormed own l -> wellFormed own (addContact c l).
Proof.
  intros (Hown & Hlen & Hsorted & Hnodup). unfold addContact.
  destruct (hasId (Contact.id c) (entries l)) eqn:Hhas.
  - repeat split; assumption.
  - simpl. rewrite Hown. repeat split.
    + apply evictFarthest_length. rewrite insertSorted_length. lia.
    + apply evictFarthest_sorted, insertSorted_sorted, Hsorted.
    + apply (sublist_NoDup _
               (map entryId (insertSorted own (mkEntry c false false) (entries l)))).
      * rewrite insertSorted_ids.
        apply NoDup_cons_2; [apply hasId_false; exact Hhas | exact Hnodup].
      * apply (fmap_sublist entryId), evictFarthest_sublist.
Qed.

Lemma addContacts_wellFormed cs l : wellFormed own l -> wellFormed own (addContacts cs l).
Proof.
  unfold addContacts. revert l.
  induction cs as [|c cs IH]; intros l Hl; simpl; [exact Hl|].
  apply IH, addContact_wellFormed, Hl.
Qed.

Lemma mark_wellFormed (f : Entry -> Entry) l :
  (forall e, entryId (f e) = entryId e) ->
  wellFormed own l -> wellFormed own (mk (ownId l) (map f (entries l))).
Proof.
  intros Hf (Hown & Hlen & Hsorted & Hnodup). repeat split; simpl.
  - exact Hown.
  - rewrite length_map. exact Hlen.
  - assert (Hle : forall a b, le a b -> le (f a) (f b)).
    { intros a b. unfold le, entryDistance. rewrite !Hf. trivial. }
    clear -Hsorted Hle. induction Hsorted as [|x xs Hs IH Hhd]; simpl; constructor.
    + exact IH.
    + destruct Hhd; simpl; constructor. apply Hle. assumption.
  - rewrite map_map. rewrite (map_ext _ entryId); [exact Hnodup | exact Hf].
Qed.

Lemma setContacted_wellFormed i l : wellFormed own l -> wellFormed own (setContacted i l).
Proof.
  apply mark_wellFormed. intros e. destruct (sameId (entryId e) i); reflexivity.
Qed.

Lemma setActive_wellFormed i l : wellFormed own l -> wellFormed own (setActive i l).
Proof.
  apply mark_wellFormed. intros e. destruct (sameId (entryId e) i); reflexivity.
Qed.

Lemma run_wellFormed ops l : wellFormed own l -> wellFormed own (run ops l).
Proof.
  unfold run. revert l.
  induction ops as [|o ops IH]; intros l Hl; simpl; [exact Hl|].
  apply IH. destruct o; simpl.
  - apply addContact_wellFormed, Hl.
  - apply addContacts_wellFormed, Hl.
  - apply setContacted_wellFormed, Hl.
  - apply setActive_wellFormed, Hl.
Qed.

Lemma removelast_cons (x : Entry) l :
  l <> [] -> removelast (x :: l) = x :: removelast l.
Proof. destruct l; [congruence | reflexivity]. Qed.

Lemma insertSorted_cons e x xs :
  insertSorted own e (x :: xs) =
  if (entryDistance own e <? entryDistance own x)%N
  then e :: x :: xs else x :: insertSorted own e xs.
Proof. reflexivity. Qed.

Lemma insertSorted_nonempty e es : insertSorted own e es <> [].
Proof.
  intros E. pose proof (insertSorted_length e es) as Hl.
  rewrite E in Hl. discriminate.
Qed.

(** A closer contact entering a full list pushes the last entry out. *)
Lemma removelast_insertSorted e far es :
  last es = Some far ->
  (entryDistance own e < entryDistance own far)%N ->
  removelast (insertSorted own e es) = insertSorted own e (removelast es).
Proof.
  induction es as [|x xs IH]; intros Hlast Hlt; [discriminate|].
  destruct xs as [|y ys].
  - simpl in Hlast. injection Hlast as ->.
    simpl. apply N.ltb_lt in Hlt. rewrite Hlt. reflexivity.
  - change (last (x :: y :: ys)) with (last (y :: ys)) in Hlast.
    specialize (IH Hlast Hlt).
    rewrite (removelast_cons x (y :: ys)) by discriminate.
    rewrite (insertSorted_cons e x (y :: ys)), (insertSorted_cons e x (removelast (y :: ys))).
    destruct (entryDistance own e <? entryDistance own x)%N.
    + rewrite !removelast_cons by discriminate. reflexivity.
    + rewrite removelast_cons by apply insertSorted_nonempty.
      rewrite IH. reflexivity.
Qed.
End SortedListFacts.

(** * The closest contact only moves closer *)

Lemma improves_refl own a : improves own a a.
Proof. left; reflexivity. Qed.

Lemma improves_trans own a b c :
  improves own a b -> improves own b c -> improves own a c.
Proof.
  intros [->|(n1 & -> & H1)] Hbc; [exact Hbc|].
  destruct Hbc as [<-|(n2 & -> & H2)].
  - right. exists n1. split; [reflexivity | exact H1].
  - right. exists n2. split; [reflexivity|].
    intros o Ho. specialize (H1 o Ho). specialize (H2 n1 eq_refl). lia.
Qed.

Lemma improves_notFarther own a b : improves own a b -> notFarther own a b.
Proof.
  intros [<-|(n & -> & Hn)] o Ho.
  - exists o. split; [exact Ho | lia].
  - exists n. split; [reflexivity|]. specialize (Hn o Ho). lia.
Qed.

Section ClosestMoves.
Import SortedContactList.

Lemma closest_head own es :
  getClosestContactId (mk own es) = entryId <$> head es.
Proof. destruct es; reflexivity. Qed.

Lemma head_evictFarthest (es : list Entry) :
  head (evictFarthest es) = head es.
Proof.
  unfold evictFarthest. destruct (Nat.ltb_spec K (length es)) as [Hlt|_]; [|reflexivity].
  destruct es as [|x [|y ys]]; [reflexivity| |reflexivity].
  unfold K in Hlt. simpl in Hlt. lia.
Qed.

Lemma addContact_ownId c l : ownId (addContact c l) = ownId l.
Proof. unfold addContact. destruct (hasId _ _); reflexivity. Qed.

Lemma addContact_improves c l :
  improves (ownId l) (getClosestContactId l) (getClosestContactId (addContact c l)).
Proof.
  unfold addContact. destruct (hasId _ _); [apply improves_refl|].
  destruct l as [own es]. rewrite !closest_head. cbn [ownId entries].
  rewrite head_evictFarthest.
  destruct es as [|x xs]; cbn [insertSorted].
  - right. eexists. split; [reflexivity|]. discriminate.
  - destruct (N.ltb_spec (entryDistance own (mkEntry c false false))
                         (entryDistance own x)) as [Hlt|_].
    + right. eexists. split; [reflexivity|].
      intros o [= <-]. exact Hlt.
    + apply improves_refl.
Qed.

Lemma addContacts_ownId cs l : ownId (addContacts cs l) = ownId l.
Proof.
  unfold addContacts. revert l. induction cs as [|c cs IH]; intros l; simpl; [reflexivity|].
  rewrite IH. apply addContact_ownId.
Qed.

Lemma addContacts_improves cs l :
  improves (ownId l) (getClosestContactId l) (getClosestContactId (addContacts cs l)).
Proof.
  unfold addContacts. revert l. induction cs as [|c cs IH]; intros l; simpl.
  - apply improves_refl.
  - eapply improves_trans; [apply addContact_improves|].
    rewrite <- (addContact_ownId c l). apply IH.
Qed.

Lemma mark_closest (f : Entry -> Entry) own es :
  (forall e, entryId (f e) = entryId e) ->
  getClosestContactId (mk own (map f es)) = getClosestContactId (mk own es).
Proof.
  intros Hf. destruct es as [|e es]; [reflexivity|].
  unfold getClosestContactId. cbn [entries map]. f_equal. apply Hf.
Qed.

Lemma setContacted_closest i l :
  getClosestContactId (setContacted i l) = getClosestContactId l.
Proof.
  destruct l as [own es]. apply mark_closest.
  intros e. destruct (sameId _ _); reflexivity.
Qed.

Lemma setActive_closest i l :
  getClosestContactId (setActive i l) = getClosestContactId l.
Proof.
  destruct l as [own es]. apply mark_closest.
  intros e. destruct (sameId _ _); reflexivity.
Qed.
End ClosestMoves.

(** * Every call leaves every node's list at least as close *)

Section StoreSteps.
Import DhtNode.

Lemma nodeAdvances_refl n : nodeAdvances n n.
Proof. repeat split. apply improves_refl. Qed.

Lemma nodeAdvances_trans a b c :
  nodeAdvances a b -> nodeAdvances b c -> nodeAdvances a c.
Proof.
  intros (H1 & H2 & H3) (H4 & H5 & H6). repeat split; [congruence..|].
  eapply improves_trans; [exact H3|]. rewrite <- H2. exact H6.
Qed.

Lemma advances_refl s : advances s s.
Proof. intros r. apply nodeAdvances_refl. Qed.

Lemma advances_trans a b c : advances a b -> advances b c -> advances a c.
Proof. intros H1 H2 r. eapply nodeAdvances_trans; [apply H1 | apply H2]. Qed.

Lemma update_advances this f s :
  (forall n, nodeAdvances n (f n)) -> advances s (update this f s).
Proof.
  intros Hf r. unfold update. destruct (decide (r = this)); [apply Hf | apply nodeAdvances_refl].
Qed.

Lemma countIncoming_advances n : nodeAdvances n (countIncoming n).
Proof. repeat split. apply improves_refl. Qed.

Lemma countOutgoing_advances n : nodeAdvances n (countOutgoing n).
Proof. repeat split. apply improves_refl. Qed.

Lemma withBucket_advances f n : nodeAdvances n (withBucket f n).
Proof. repeat split. apply improves_refl. Qed.

Lemma addContact_advances c n :
  nodeAdvances n (withNeighborList (SortedContactList.addContact c) n).
Proof.
  repeat split; simpl.
  - apply addContact_ownId.
  - apply addContact_improves.
Qed.

Lemma addContacts_advances cs n :
  nodeAdvances n (withNeighborList (SortedContactList.addContacts cs) n).
Proof.
  repeat split; simpl.
  - apply addContacts_ownId.
  - apply addContacts_improves.
Qed.

Lemma setContacted_advances i n :
  nodeAdvances n (withNeighborList (SortedContactList.setContacted i) n).
Proof.
  repeat split; simpl. unfold closestOf; simpl.
  rewrite setContacted_closest. apply improves_refl.
Qed.

Lemma setActive_advances i n :
  nodeAdvances n (withNeighborList (SortedContactList.setActive i) n).
Proof.
  repeat split; simpl. unfold closestOf; simpl.
  rewrite setActive_closest. apply improves_refl.
Qed.

Lemma getClosestNodesTo_advances this i caller s :
  advances s (snd (getClosestNodesTo this i caller s)).
Proof.
  unfold getClosestNodesTo. cbn [snd].
  eapply advances_trans; [apply update_advances, countIncoming_advances|].
  destruct (KBucket.get _ _); [apply advances_refl|].
  eapply advances_trans; [apply update_advances, withBucket_advances|].
  apply update_advances, addContact_advances.
Qed.

Lemma learn_advances this cs s :
  advances s
    (fold_left
       (fun acc returnedContact =>
          match KBucket.get (Contact.id returnedContact) (bucket (acc this)) with
          | Some _ => acc
          | None => update this (withBucket (KBucket.add returnedContact)) acc
          end) cs s).
Proof.
  revert s. induction cs as [|c cs IH]; intros s; simpl; [apply advances_refl|].
  eapply advances_trans; [|apply IH].
  destruct (KBucket.get _ _); [apply advances_refl|].
  apply update_advances, withBucket_advances.
Qed.

Lemma probe_advances this shortlist s contact :
  advances s (probe this shortlist s contact).
Proof.
  unfold probe.
  eapply advances_trans; [apply update_advances, setContacted_advances|].
  eapply advances_trans; [apply update_advances, setActive_advances|].
  eapply advances_trans; [apply update_advances, countOutgoing_advances|].
  match goal with |- context [getClosestNodesTo ?a ?b ?c ?d] =>
    pose proof (getClosestNodesTo_advances a b c d) as Hrpc;
    destruct (getClosestNodesTo a b c d) as [returnedContacts s4] end.
  cbn [snd] in Hrpc.
  eapply advances_trans; [exact Hrpc|].
  eapply advances_trans; [apply update_advances, addContacts_advances|].
  apply learn_advances.
Qed.

Lemma findMoreContacts_advances this contactList shortlist s :
  advances s (findMoreContacts this contactList shortlist s).
Proof.
  unfold findMoreContacts. revert s.
  induction contactList as [|c cs IH]; intros s; simpl; [apply advances_refl|].
  eapply advances_trans; [apply probe_advances | apply IH].
Qed.
End StoreSteps.

(** * The lookup loops end *)

Section Termination.
Import DhtNode.

Lemma round_moves_closer this contactList s :
  let s1 := findMoreContacts this contactList this s in
  sameClosest (closestContactId s this) (closestContactId s1 this) = false ->
  SortedContactList.ownId (neighborList (s1 this))
  = SortedContactList.ownId (neighborList (s this)) /\
  exists n, closestOf (s1 this) = Some n /\
    forall o, closestOf (s this) = Some o ->
      (distance (SortedContactList.ownId (neighborList (s this))) n
       < distance (SortedContactList.ownId (neighborList (s this))) o)%N.
Proof.
  intros s1 Hdiff.
  destruct (findMoreContacts_advances this contactList this s this) as (_ & Hown & Himp).
  fold s1 in Hown, Himp. split; [exact Hown|].
  destruct Himp as [Heq|Hcloser]; [|exact Hcloser].
  unfold sameClosest in Hdiff. apply bool_decide_eq_false in Hdiff.
  exfalso. apply Hdiff. exact Heq.
Qed.

Lemma widenedLoop_ends_within (bound : nat) this :
  forall contactList s i,
    closestOf (s this) = Some i ->
    N.to_nat (distance (SortedContactList.ownId (neighborList (s this))) i) < bound ->
    exists fuel rounds s', widenedLoop fuel this contactList s = Some (rounds, s').
Proof.
  induction bound as [|bound IH]; intros contactList s i Hi Hlt; [lia|].
  pose (s1 := findMoreContacts this contactList this s).
  destruct ((K <=? activeCount s1 this)
            || sameClosest (closestContactId s this) (closestContactId s1 this)) eqn:Htest.
  - exists 1. do 2 eexists. cbn [widenedLoop]. fold s1. rewrite Htest. reflexivity.
  - apply orb_false_iff in Htest as Htest'. destruct Htest' as [_ Hdiff].
    destruct (round_moves_closer this contactList s Hdiff) as (Hown & n & Hn & Hcloser).
    fold s1 in Hown, Hn.
    specialize (Hcloser i Hi).
    destruct (IH (uncontacted ALPHA s1 this) s1 n Hn) as (fuel & rounds & s' & Hrun).
    { rewrite Hown. lia. }
    exists (S fuel). do 2 eexists. cbn [widenedLoop]. fold s1.
    rewrite Htest, Hrun. reflexivity.
Qed.

Lemma widenedLoop_ends this contactList s :
  exists fuel rounds s', widenedLoop fuel this contactList s = Some (rounds, s').
Proof.
  destruct (closestOf (s this)) as [i|] eqn:Hi.
  - eapply widenedLoop_ends_within; [exact Hi | apply Nat.lt_succ_diag_r].
  - pose (s1 := findMoreContacts this contactList this s).
    destruct ((K <=? activeCount s1 this)
              || sameClosest (closestContactId s this) (closestContactId s1 this)) eqn:Htest.
    + exists 1. do 2 eexists. cbn [widenedLoop]. fold s1. rewrite Htest. reflexivity.
    + apply orb_false_iff in Htest as Htest'. destruct Htest' as [_ Hdiff].
      destruct (round_moves_closer this contactList s Hdiff) as (_ & n & Hn & _).
      fold s1 in Hn.
      destruct (widenedLoop_ends_within _ this (uncontacted ALPHA s1 this) s1 n Hn
                  (Nat.lt_succ_diag_r _)) as (fuel & rounds & s' & Hrun).
      exists (S fuel). do 2 eexists. cbn [widenedLoop]. fold s1.
      rewrite Htest, Hrun. reflexivity.
Qed.

Lemma lookupLoop_step fuel this s :
  lookupLoop (S fuel) this s =
  let s1 := findMoreContacts this (uncontacted ALPHA s this) this s in
  match (if sameClosest (closestContactId s this) (closestContactId s1 this)
         then widenedLoop fuel this (uncontacted K s1 this) s1
         else lookupLoop fuel this s1) with
  | Some (rs, s') =>
      Some (mkRound (uncontacted ALPHA s this) (s this) (s1 this) :: rs, s')
  | None => None
  end.
Proof. reflexivity. Qed.

Lemma lookupLoop_ends_within (bound : nat) this :
  forall s i,
    closestOf (s this) = Some i ->
    N.to_nat (distance (SortedContactList.ownId (neighborList (s this))) i) < bound ->
    exists fuel rounds s', lookupLoop fuel this s = Some (rounds, s').
Proof.
  induction bound as [|bound IH]; intros s i Hi Hlt; [lia|].
  pose (s1 := findMoreContacts this (uncontacted ALPHA s this) this s).
  destruct (sameClosest (closestContactId s this) (closestContactId s1 this)) eqn:Htest.
  - destruct (widenedLoop_ends this (uncontacted K s1 this) s1) as (fuel & rounds & s' & Hrun).
    exists (S fuel). do 2 eexists. rewrite lookupLoop_step. cbv zeta. fold s1.
    rewrite Htest, Hrun. reflexivity.
  - destruct (round_moves_closer this _ s Htest) as (Hown & n & Hn & Hcloser).
    fold s1 in Hown, Hn. specialize (Hcloser i Hi).
    destruct (IH s1 n Hn) as (fuel & rounds & s' & Hrun).
    { rewrite Hown. lia. }
    exists (S fuel). do 2 eexists. rewrite lookupLoop_step. cbv zeta. fold s1.
    rewrite Htest, Hrun. reflexivity.
Qed.

Lemma lookupLoop_ends this s :
  exists fuel rounds s', lookupLoop fuel this s = Some (rounds, s').
Proof.
  destruct (closestOf (s this)) as [i|] eqn:Hi.
  - eapply lookupLoop_ends_within; [exact Hi | apply Nat.lt_succ_diag_r].
  - pose (s1 := findMoreContacts this (uncontacted ALPHA s this) this s).
    destruct (sameClosest (closestContactId s this) (closestContactId s1 this)) eqn:Htest.
    + destruct (widenedLoop_ends this (uncontacted K s1 this) s1) as (fuel & rounds & s' & Hrun).
      exists (S fuel). do 2 eexists. rewrite lookupLoop_step. cbv zeta. fold s1.
      rewrite Htest, Hrun. reflexivity.
    + destruct (round_moves_closer this _ s Htest) as (_ & n & Hn & _).
      fold s1 in Hn.
      destruct (lookupLoop_ends_within _ this s1 n Hn (Nat.lt_succ_diag_r _))
        as (fuel & rounds & s' & Hrun).
      exists (S fuel). do 2 eexists. rewrite lookupLoop_step. cbv zeta. fold s1.
      rewrite Htest, Hrun. reflexivity.
Qed.

(** C1: for every store of nodes and every call [joinDht(entryPoint)] on
    one of them, both lookup loops end after finitely many probe rounds:
    some number of turns lets the call return.  Each turn that does not
    end the loop brings a strictly closer contact to the front of the
    neighbor list. *)
Theorem joinDht_terminates (this entryPoint : NodeRef) (s : Store) :
  exists fuel rounds s', joinDht fuel this entryPoint s = Some (rounds, s').
Proof.
  unfold joinDht.
  destruct (sameId _ _).
  - exists 0. do 2 eexists. reflexivity.
  - apply lookupLoop_ends.
Qed.
End Termination.

(** * The shape of every completed lookup *)

Section Rounds.
Import DhtNode.

Lemma stops_test this contactList s :
  let s1 := findMoreContacts this contactList this s in
  (K <=? activeCount s1 this)
  || sameClosest (closestContactId s this) (closestContactId s1 this) = true
  <-> stops (mkRound contactList (s this) (s1 this)).
Proof.
  intros s1. unfold stops, converged, sameClosest. cbn [before after].
  rewrite orb_true_iff, Nat.leb_le, bool_decide_eq_true. reflexivity.
Qed.

Lemma widenedLoop_rounds fuel this :
  forall contactList s rounds s',
    widenedLoop fuel this contactList s = Some (rounds, s') ->
    exists r rest,
      rounds = r :: rest /\ probed r = contactList /\ before r = s this /\
      widenedRounds r rest /\ chained rounds /\ endsIn (s' this) rounds /\
      Forall (fun r => nodeAdvances (s this) (before r)
                       /\ nodeAdvances (before r) (after r)) rounds.
Proof.
  induction fuel as [|fuel IH]; intros contactList s rounds s' Hrun; [discriminate|].
  cbn [widenedLoop] in Hrun.
  set (s1 := findMoreContacts this contactList this s) in *.
  pose proof (stops_test this contactList s) as Hstops. cbv zeta in Hstops. fold s1 in Hstops.
  pose proof (findMoreContacts_advances this contactList this s this) as Hadv. fold s1 in Hadv.
  destruct ((K <=? activeCount s1 this)
            || sameClosest (closestContactId s this) (closestContactId s1 this)) eqn:Htest.
  - injection Hrun as <- <-. do 2 eexists. split; [reflexivity|].
    split; [reflexivity|]. split; [reflexivity|].
    split; [apply Hstops; reflexivity|].
    split; [exact I|]. split; [reflexivity|].
    constructor; [|constructor]. cbn. split; [apply nodeAdvances_refl | exact Hadv].
  - destruct (widenedLoop fuel this (uncontacted ALPHA s1 this) s1)
      as [[rs s'']|] eqn:Hrest; [|discriminate].
    injection Hrun as <- <-.
    destruct (IH _ _ _ _ Hrest) as (r' & rest' & -> & Hp & Hb & Hw & Hc & He & Hall).
    do 2 eexists. split; [reflexivity|].
    split; [reflexivity|]. split; [reflexivity|].
    split; [|split; [|split]].
    + cbn [widenedRounds]. split; [|split; [|exact Hw]].
      * intros Hs. apply Hstops in Hs. congruence.
      * unfold probedUpTo. rewrite Hp, Hb. reflexivity.
    + cbn [chained]. split; [exact Hb | exact Hc].
    + exact He.
    + constructor.
      * cbn. split; [apply nodeAdvances_refl | exact Hadv].
      * eapply Forall_impl; [exact Hall|]. cbn. intros r [H1 H2]. split; [|exact H2].
        eapply nodeAdvances_trans; [exact Hadv | exact H1].
Qed.

Lemma lookupLoop_rounds fuel this :
  forall s rounds s',
    lookupLoop fuel this s = Some (rounds, s') ->
    exists narrow a k wide,
      rounds = narrow ++ a :: k :: wide /\
      Forall (fun r => probedUpTo ALPHA r /\ ~ converged r) narrow /\
      probedUpTo ALPHA a /\ converged a /\
      probedUpTo K k /\ widenedRounds k wide /\
      chained rounds /\ endsIn (s' this) rounds /\
      (exists r0 rest, rounds = r0 :: rest /\ before r0 = s this) /\
      Forall (fun r => nodeAdvances (s this) (before r)
                       /\ nodeAdvances (before r) (after r)) rounds.
Proof.
  induction fuel as [|fuel IH]; intros s rounds s' Hrun; [discriminate|].
  rewrite lookupLoop_step in Hrun. cbv zeta in Hrun.
  set (s1 := findMoreContacts this (uncontacted ALPHA s this) this s) in *.
  pose proof (findMoreContacts_advances this (uncontacted ALPHA s this) this s this) as Hadv.
  fold s1 in Hadv.
  destruct (sameClosest (closestContactId s this) (closestContactId s1 this)) eqn:Htest.
  - destruct (widenedLoop fuel this (uncontacted K s1 this) s1)
      as [[rs s'']|] eqn:Hrest; [|discriminate].
    injection Hrun as <- <-.
    destruct (widenedLoop_rounds _ _ _ _ _ _ Hrest)
      as (k & wide & -> & Hp & Hb & Hw & Hc & He & Hall).
    exists [], (mkRound (uncontacted ALPHA s this) (s this) (s1 this)), k, wide.
    split; [reflexivity|].
    split; [|split; [|split; [|split; [|split; [|split; [|split; [|split]]]]]]].
    + constructor.
    + reflexivity.
    + unfold converged, sameClosest in *. cbn [before after].
      apply bool_decide_eq_true in Htest. exact Htest.
    + unfold probedUpTo. rewrite Hp, Hb. reflexivity.
    + exact Hw.
    + cbn [app chained]. split; [exact Hb | exact Hc].
    + exact He.
    + do 2 eexists. split; reflexivity.
    + constructor.
      * cbn. split; [apply nodeAdvances_refl | exact Hadv].
      * eapply Forall_impl; [exact Hall|]. cbn. intros r [H1 H2]. split; [|exact H2].
        eapply nodeAdvances_trans; [exact Hadv | exact H1].
  - destruct (lookupLoop fuel this s1) as [[rs s'']|] eqn:Hrest; [|discriminate].
    injection Hrun as <- <-.
    destruct (IH _ _ _ Hrest)
      as (narrow & a & k & wide & -> & Hn & Ha & Hca & Hk & Hw & Hc & He
          & (r0 & rest & Hr0 & Hb0) & Hall).
    exists (mkRound (uncontacted ALPHA s this) (s this) (s1 this) :: narrow), a, k, wide.
    split; [reflexivity|].
    split; [|split; [|split; [|split; [|split; [|split; [|split; [|split]]]]]]];
      try assumption.
    + constructor; [|exact Hn]. split; [reflexivity|].
      unfold converged, sameClosest in *. cbn [before after].
      apply bool_decide_eq_false in Htest. exact Htest.
    + cbn [app]. rewrite Hr0 in *. cbn [chained]. split; [exact Hb0 | exact Hc].
    + cbn [app]. unfold endsIn in *. rewrite Hr0 in *. exact He.
    + do 2 eexists. split; reflexivity.
    + cbn [app]. constructor.
      * cbn. split; [apply nodeAdvances_refl | exact Hadv].
      * eapply Forall_impl; [exact Hall|]. cbn. intros r [H1 H2]. split; [|exact H2].
        eapply nodeAdvances_trans; [exact Hadv | exact H1].
Qed.

(** More turns than needed change nothing. *)
Lemma widenedLoop_more_fuel fuel this :
  forall contactList s result,
    widenedLoop fuel this contactList s = Some result ->
    widenedLoop (S fuel) this contactList s = Some result.
Proof.
  induction fuel as [|fuel IH]; intros contactList s result Hrun; [discriminate|].
  cbn [widenedLoop] in Hrun.
  change (widenedLoop (S (S fuel)) this contactList s) with
    (let s1 := findMoreContacts this contactList this s in
     if (K <=? activeCount s1 this)
        || sameClosest (closestContactId s this) (closestContactId s1 this)
     then Some ([mkRound contactList (s this) (s1 this)], s1)
     else match widenedLoop (S fuel) this (uncontacted ALPHA s1 this) s1 with
          | Some (rs, s') => Some (mkRound contactList (s this) (s1 this) :: rs, s')
          | None => None
          end).
  cbv zeta.
  destruct (_ || _); [exact Hrun|].
  destruct (widenedLoop fuel this _ _) as [[rs s']|] eqn:Hrest; [|discriminate].
  rewrite (IH _ _ _ Hrest). exact Hrun.
Qed.

Lemma lookupLoop_more_fuel fuel this :
  forall s result,
    lookupLoop fuel this s = Some result ->
    lookupLoop (S fuel) this s = Some result.
Proof.
  induction fuel as [|fuel IH]; intros s result Hrun; [discriminate|].
  rewrite lookupLoop_step in Hrun. rewrite lookupLoop_step.
  cbv zeta in *.
  destruct (sameClosest _ _).
  - destruct (widenedLoop fuel this _ _) as [[rs s']|] eqn:Hrest; [|discriminate].
    rewrite (widenedLoop_more_fuel _ _ _ _ _ Hrest). exact Hrun.
  - destruct (lookupLoop fuel this _) as [[rs s']|] eqn:Hrest; [|discriminate].
    rewrite (IH _ _ Hrest). exact Hrun.
Qed.

Lemma joinDht_more_fuel fuel extra this entryPoint s result :
  joinDht fuel this entryPoint s = Some result ->
  joinDht (extra + fuel) this entryPoint s = Some result.
Proof.
  intros Hrun. induction extra as [|extra IH]; [exact Hrun|].
  unfold joinDht in *. destruct (sameId _ _); [exact Hrun|].
  apply lookupLoop_more_fuel. exact IH.
Qed.

(** The outcome of a call does not depend on how many turns were
    allowed, once they suffice. *)
Lemma joinDht_outcome_unique fuel1 fuel2 this entryPoint s result1 result2 :
  joinDht fuel1 this entryPoint s = Some result1 ->
  joinDht fuel2 this entryPoint s = Some result2 ->
  result1 = result2.
Proof.
  intros H1 H2.
  apply (joinDht_more_fuel _ fuel2) in H1.
  apply (joinDht_more_fuel _ fuel1) in H2.
  rewrite Nat.add_comm in H2. congruence.
Qed.
End Rounds.

(** * What a round keeps true of a node *)

Section Keeps.
Import DhtNode.

(** A property of nodes that every step of the protocol keeps; marking
    is only known to keep it for the ids in [M]. *)
Variable P : t -> Prop.
Variable M : NodeId -> Prop.
Hypothesis P_countIncoming : forall n, P n -> P (countIncoming n).
Hypothesis P_countOutgoing : forall n, P n -> P (countOutgoing n).
Hypothesis P_withBucket : forall f n, P n -> P (withBucket f n).
Hypothesis P_addContact :
  forall c n, P n -> P (withNeighborList (SortedContactList.addContact c) n).
Hypothesis P_mark :
  forall i n, M i -> P n ->
    P (withNeighborList (SortedContactList.setActive i)
         (withNeighborList (SortedContactList.setContacted i) n)).

Lemma update_keeps r f s x :
  (forall n, P n -> P (f n)) -> P (s x) -> P (update r f s x).
Proof.
  intros Hf Hx. unfold update. destruct (decide (x = r)); [apply Hf|]; exact Hx.
Qed.

Lemma addContacts_keeps cs n :
  P n -> P (withNeighborList (SortedContactList.addContacts cs) n).
Proof.
  revert n. induction cs as [|c cs IH]; intros n Hn.
  - destruct n; exact Hn.
  - specialize (IH _ (P_addContact c n Hn)). exact IH.
Qed.

Lemma getClosestNodesTo_keeps this i caller s x :
  P (s x) -> P (snd (getClosestNodesTo this i caller s) x).
Proof.
  intros Hx. unfold getClosestNodesTo. cbn [snd].
  destruct (KBucket.get _ _).
  - apply update_keeps; [exact P_countIncoming | exact Hx].
  - apply update_keeps; [apply P_addContact|].
    apply update_keeps; [apply P_withBucket|].
    apply update_keeps; [exact P_countIncoming | exact Hx].
Qed.

Lemma learn_keeps this cs s x :
  P (s x) ->
  P (fold_left
       (fun acc returnedContact =>
          match KBucket.get (Contact.id returnedContact) (bucket (acc this)) with
          | Some _ => acc
          | None => update this (withBucket (KBucket.add returnedContact)) acc
          end) cs s x).
Proof.
  revert s. induction cs as [|c cs IH]; intros s Hx; simpl; [exact Hx|].
  apply IH. destruct (KBucket.get _ _); [exact Hx|].
  apply update_keeps; [apply P_withBucket | exact Hx].
Qed.

Lemma mark_twice shortlist i (s : Store) x :
  update shortlist (withNeighborList (SortedContactList.setActive i))
    (update shortlist (withNeighborList (SortedContactList.setContacted i)) s) x
  = update shortlist
      (fun n => withNeighborList (SortedContactList.setActive i)
                  (withNeighborList (SortedContactList.setContacted i) n)) s x.
Proof. unfold update. destruct (decide (x = shortlist)); reflexivity. Qed.

Lemma probe_keeps this shortlist s contact x :
  M (Contact.id contact) -> P (s x) -> P (probe this shortlist s contact x).
Proof.
  intros Hm Hx. unfold probe.
  match goal with |- context [getClosestNodesTo ?a ?b ?c ?d] =>
    pose proof (getClosestNodesTo_keeps a b c d x) as Hrpc;
    destruct (getClosestNodesTo a b c d) as [returnedContacts s4] end.
  cbn [snd] in Hrpc.
  apply learn_keeps. apply update_keeps; [apply addContacts_keeps|].
  apply Hrpc. apply update_keeps; [exact P_countOutgoing|].
  rewrite mark_twice. apply update_keeps; [|exact Hx].
  intros n Hn. apply P_mark; assumption.
Qed.

Lemma findMoreContacts_keeps this contactList shortlist s x :
  Forall (fun c => M (Contact.id c)) contactList ->
  P (s x) -> P (findMoreContacts this contactList shortlist s x).
Proof.
  unfold findMoreContacts. revert s.
  induction contactList as [|c cs IH]; intros s Hall Hx; simpl; [exact Hx|].
  inversion Hall as [|? ? Hc Hcs]; subst.
  apply IH; [exact Hcs|]. apply probe_keeps; assumption.
Qed.
End Keeps.

(** * Sound nodes stay sound *)

Section Sound.
Import SortedContactList.

Lemma flags_addContact c l : flagsConsistent l -> flagsConsistent (addContact c l).
Proof.
  unfold flagsConsistent, addContact. intros Hl.
  destruct (hasId _ _); [exact Hl|]. cbn [entries].
  rewrite Forall_forall in *. intros e He.
  assert (He' : e ∈ mkEntry c false false :: entries l).
  { rewrite <- (insertSorted_perm (ownId l)).
    eapply elem_of_sublist; [exact He | apply evictFarthest_sublist]. }
  apply elem_of_cons in He' as [->|He']; [discriminate|].
  apply Hl. exact He'.
Qed.

Lemma flags_mark i l :
  flagsConsistent l -> flagsConsistent (setActive i (setContacted i l)).
Proof.
  unfold flagsConsistent. cbn [setActive setContacted entries]. intros Hl.
  rewrite map_map. apply Forall_map.
  eapply Forall_impl; [exact Hl|]. intros e He. cbn beta.
  destruct (sameId (entryId e) i) eqn:Hid.
  - unfold entryId in *. cbn [contact]. rewrite Hid. reflexivity.
  - rewrite Hid. exact He.
Qed.

Lemma sound_addContact c n :
  sound n -> sound (DhtNode.withNeighborList (addContact c) n).
Proof.
  intros [Hwf Hflags]. split; cbn.
  - apply addContact_wellFormed, Hwf.
  - apply flags_addContact, Hflags.
Qed.

Lemma sound_mark i n :
  sound n ->
  sound (DhtNode.withNeighborList (setActive i)
           (DhtNode.withNeighborList (setContacted i) n)).
Proof.
  intros [Hwf Hflags]. split; cbn.
  - apply setActive_wellFormed, setContacted_wellFormed, Hwf.
  - apply flags_mark, Hflags.
Qed.

Lemma findMoreContacts_sound this contactList shortlist s x :
  sound (s x) -> sound (DhtNode.findMoreContacts this contactList shortlist s x).
Proof.
  apply (findMoreContacts_keeps sound (fun _ => True)).
  - intros n Hn. exact Hn.
  - intros n Hn. exact Hn.
  - intros f n Hn. exact Hn.
  - intros c n. apply sound_addContact.
  - intros i n _. apply sound_mark.
  - apply Forall_forall. intros; exact I.
Qed.

Lemma filter_all {A} (p : A -> bool) (l : list A) :
  length l <= length (List.filter p l) -> Forall (fun x => p x = true) l.
Proof.
  induction l as [|x l IH]; simpl; [constructor|].
  destruct (p x) eqn:Hp; simpl; intros Hlen.
  - constructor; [exact Hp | apply IH; lia].
  - pose proof (List.filter_length_le p l). lia.
Qed.

End Sound.

(** * A round that changes the closest contact leaves it unprobed *)

Section Front.
Import SortedContactList.
Variables (own i0 : NodeId).


End Front.

Section ChangedRound.
Import DhtNode.



End ChangedRound.

(** * Nothing is probed once [K] contacts are active *)

Section FullList.
Import DhtNode.



End FullList.

(** * The distance of the k-bucket package and the XOR distance *)

Section DistanceFacts.
(** Numbers below [2 ^ 53] are doubles. *)
Lemma toDouble_small n : (n < 2 ^ 53)%N -> KBucket.toDouble n = n.
Proof.
  intros Hn. unfold KBucket.toDouble. apply N.ltb_lt in Hn. rewrite Hn. reflexivity.
Qed.

Lemma lxor_byte x y : (x < 256)%N -> (y < 256)%N -> (N.lxor x y < 256)%N.
Proof.
  intros Hx Hy. change 256%N with (2 ^ 8)%N in *.
  destruct (N.eq_dec (N.lxor x y) 0%N) as [->|Hne]; [reflexivity|].
  apply N.log2_lt_pow2; [lia|].
  eapply N.le_lt_trans; [apply N.log2_lxor|].
  apply N.max_lub_lt.
  - destruct (N.eq_dec x 0%N) as [->|Hx0]; [reflexivity|].
    apply N.log2_lt_pow2; [lia | exact Hx].
  - destruct (N.eq_dec y 0%N) as [->|Hy0]; [reflexivity|].
    apply N.log2_lt_pow2; [lia | exact Hy].
Qed.

Lemma padDistance_exact n :
  forall acc,
    ((acc + 1) * 256 ^ N.of_nat n <= 2 ^ 53)%N ->
    KBucket.padDistance acc n = padDistance acc n.
Proof.
  induction n as [|n IH]; intros acc Hacc; [reflexivity|].
  cbn [KBucket.padDistance padDistance].
  rewrite Nat2N.inj_succ, N.pow_succ_r' in Hacc.
  assert (Hpos : (256 ^ N.of_nat n <> 0)%N) by (apply N.pow_nonzero; lia).
  rewrite toDouble_small by nia.
  apply IH. nia.
Qed.

Lemma distanceFrom_exact a :
  forall b acc,
    isBytes a -> isBytes b ->
    ((acc + 1) * 256 ^ N.of_nat (length a `max` length b) <= 2 ^ 53)%N ->
    KBucket.distanceFrom acc a b = distanceFrom acc a b.
Proof.
  induction a as [|x a IH]; intros b acc Ha Hb Hacc.
  - cbn [KBucket.distanceFrom distanceFrom]. apply padDistance_exact. exact Hacc.
  - destruct b as [|y b].
    + cbn [KBucket.distanceFrom distanceFrom]. apply padDistance_exact.
      rewrite Nat.max_0_r in Hacc. exact Hacc.
    + cbn [KBucket.distanceFrom distanceFrom].
      inversion Ha as [|? ? Hx Ha']; inversion Hb as [|? ? Hy Hb']; subst.
      pose proof (lxor_byte x y Hx Hy) as Hxor.
      cbn [length] in Hacc. rewrite <- Nat.succ_max_distr in Hacc.
      rewrite Nat2N.inj_succ, N.pow_succ_r' in Hacc.
      assert (Hpos : (256 ^ N.of_nat (length a `max` length b) <> 0)%N)
        by (apply N.pow_nonzero; lia).
      rewrite toDouble_small by nia.
      apply IH; [assumption..|]. nia.
Qed.

(** On ids of up to six bytes the package's distance is the XOR
    distance. *)
Lemma distance_exact a b :
  isBytes a -> isBytes b -> length a <= 6 -> length b <= 6 ->
  KBucket.distance a b = distance a b.
Proof.
  intros Ha Hb Hla Hlb. apply distanceFrom_exact; [assumption..|].
  assert (Hmax : (N.of_nat (length a `max` length b) <= 6)%N) by lia.
  rewrite N.mul_1_l.
  etransitivity; [apply N.pow_le_mono_r; [lia | exact Hmax]|].
  vm_compute. discriminate.
Qed.
End DistanceFacts.

(** * Facts about the routing tree *)

Section BucketFacts.
Import KBucket.

Lemma indexOf_Some cs i index :
  indexOf cs i = Some index ->
  exists c, cs !! index = Some c /\ Contact.id c = i.
Proof.
  revert index. induction cs as [|c cs IH]; intros index; simpl; [discriminate|].
  unfold sameId. destruct (bool_decide_reflect (Contact.id c = i)) as [Heq|_].
  - intros [= <-]. exists c. split; [reflexivity | exact Heq].
  - destruct (indexOf cs i) as [k|]; [|discriminate].
    intros [= <-]. apply IH. reflexivity.
Qed.

Lemma indexOf_None cs i :
  indexOf cs i = None <-> forall c, c ∈ cs -> Contact.id c <> i.
Proof.
  induction cs as [|c cs IH]; simpl.
  - split; [intros _ c Hc; inversion Hc | reflexivity].
  - unfold sameId. destruct (bool_decide_reflect (Contact.id c = i)) as [Heq|Hne].
    + split; [discriminate|]. intros H. exfalso. apply (H c); [left | exact Heq].
    + destruct (indexOf cs i) as [k|]; simpl.
      * split; [discriminate|]. intros H. exfalso.
        assert (Hn : @None nat = None) by reflexivity.
        destruct IH as [_ IH]. discriminate IH.
        intros c' Hc'. apply H. right. exact Hc'.
      * split; [|reflexivity]. intros _ c' Hc'.
        apply elem_of_cons in Hc' as [->|Hc']; [exact Hne|].
        destruct IH as [IH _]. apply IH; [reflexivity | exact Hc'].
Qed.

Lemma getAt_inner l r j bitIndex :
  getAt (Inner l r) j bitIndex
  = if goesRight j bitIndex then getAt r j (S bitIndex) else getAt l j (S bitIndex).
Proof. reflexivity. Qed.

(** [get] only finds what is stored, under the id asked for. *)
Lemma getAt_Some n i bitIndex c :
  getAt n i bitIndex = Some c -> c ∈ contactsOf n /\ Contact.id c = i.
Proof.
  revert bitIndex. induction n as [cs ds|l IHl r IHr]; intros bitIndex; simpl.
  - destruct (indexOf cs i) as [index|] eqn:E; [|discriminate].
    destruct (indexOf_Some _ _ _ E) as (c' & Hc' & Hid).
    rewrite Hc'. intros [= <-]. split; [|exact Hid].
    eapply list_elem_of_lookup_2. exact Hc'.
  - destruct (goesRight i bitIndex); intros H.
    + destruct (IHr _ H) as [Hin Hid]. split; [|exact Hid].
      apply elem_of_app. right. exact Hin.
    + destruct (IHl _ H) as [Hin Hid]. split; [|exact Hid].
      apply elem_of_app. left. exact Hin.
Qed.

Lemma get_None_of_absent i b :
  (forall c, c ∈ contactsOf (root b) -> Contact.id c <> i) -> get i b = None.
Proof.
  intros Habs. unfold get. destruct (getAt (root b) i 0) as [c|] eqn:E; [|reflexivity].
  destruct (getAt_Some _ _ _ _ E) as [Hin Hid]. exfalso. exact (Habs c Hin Hid).
Qed.

(** Without a limit the traversal of [closest] visits every leaf. *)
Lemma collect_all i n :
  forall bitIndex found,
    fst (collect None i n bitIndex found) ≡ₚ found ++ contactsOf n.
Proof.
  induction n as [cs ds|l IHl r IHr]; intros bitIndex found; simpl.
  - reflexivity.
  - destruct (goesRight i bitIndex).
    + specialize (IHr (S bitIndex) found).
      destruct (collect None i r (S bitIndex) found) as [found' bitIndex'].
      rewrite IHl. simpl in IHr. rewrite IHr.
      rewrite <- !app_assoc. apply Permutation_app_head, Permutation_app_comm.
    + specialize (IHl (S bitIndex) found).
      destruct (collect None i l (S bitIndex) found) as [found' bitIndex'].
      rewrite IHr. simpl in IHl. rewrite IHl.
      rewrite <- !app_assoc. reflexivity.
Qed.

(** With a limit it still returns stored contacts only. *)
Lemma collect_stored limit i n :
  forall bitIndex found c,
    c ∈ fst (collect limit i n bitIndex found) ->
    c ∈ found \/ c ∈ contactsOf n.
Proof.
  induction n as [cs ds|l IHl r IHr]; intros bitIndex found c; simpl.
  - destruct (reached limit found); simpl; [left; assumption|].
    intros H. apply elem_of_app in H. exact H.
  - destruct (reached limit found); simpl; [left; assumption|].
    destruct (goesRight i bitIndex).
    + pose proof (IHr (S bitIndex) found c) as Hr.
      destruct (collect limit i r (S bitIndex) found) as [found' bitIndex'].
      intros H. apply IHl in H as [H|H].
      * apply Hr in H as [H|H]; [left; exact H|].
        right. apply elem_of_app. right. exact H.
      * right. apply elem_of_app. left. exact H.
    + pose proof (IHl (S bitIndex) found c) as Hl.
      destruct (collect limit i l (S bitIndex) found) as [found' bitIndex'].
      intros H. apply IHr in H as [H|H].
      * apply Hl in H as [H|H]; [left; exact H|].
        right. apply elem_of_app. left. exact H.
      * right. apply elem_of_app. right. exact H.
Qed.

Lemma insertByDistance_perm i c cs : insertByDistance i c cs ≡ₚ c :: cs.
Proof.
  induction cs as [|x xs IH]; simpl; [reflexivity|].
  destruct (_ <? _)%N; [reflexivity|]. rewrite IH. apply Permutation_swap.
Qed.

Lemma insertByDistance_sorted i c cs :
  Sorted (closerTo i) cs -> Sorted (closerTo i) (insertByDistance i c cs).
Proof.
  induction 1 as [|x xs Hs IH Hhd]; simpl.
  - repeat constructor.
  - destruct (N.ltb_spec (distance (Contact.id c) i) (distance (Contact.id x) i)) as [Hlt|Hge].
    + constructor; [constructor; assumption|]. constructor. unfold closerTo. lia.
    + constructor; [exact IH|].
      destruct xs as [|y ys]; simpl.
      * constructor. exact Hge.
      * destruct (_ <? _)%N; constructor; [exact Hge|].
        inversion Hhd; assumption.
Qed.

Lemma sortByDistance_from i cs acc :
  Sorted (closerTo i) acc ->
  fold_left (fun acc c => insertByDistance i c acc) cs acc ≡ₚ acc ++ cs
  /\ Sorted (closerTo i)
            (fold_left (fun acc c => insertByDistance i c acc) cs acc).
Proof.
  revert acc. induction cs as [|c cs IH]; intros acc Hacc; simpl.
  - rewrite app_nil_r. split; [reflexivity | exact Hacc].
  - destruct (IH (insertByDistance i c acc)) as [Hp Hs].
    { apply insertByDistance_sorted, Hacc. }
    split; [|exact Hs].
    rewrite Hp, insertByDistance_perm. simpl. apply Permutation_middle.
Qed.

Lemma sortByDistance_perm i cs : sortByDistance i cs ≡ₚ cs.
Proof. apply (sortByDistance_from i cs []). constructor. Qed.

Lemma sortByDistance_sorted i cs : Sorted (closerTo i) (sortByDistance i cs).
Proof. apply (sortByDistance_from i cs []). constructor. Qed.

Lemma closest_all i b : closest i None b ≡ₚ contactsOf (root b).
Proof.
  unfold closest, slice0. rewrite sortByDistance_perm, collect_all. reflexivity.
Qed.

Lemma closest_stored i limit b c :
  c ∈ closest i limit b -> c ∈ contactsOf (root b).
Proof.
  unfold closest. intros H.
  assert (H' : c ∈ sortByDistance i (fst (collect limit i (root b) 0 []))).
  { destruct limit as [n|]; simpl in H; [|exact H].
    eapply elem_of_sublist; [exact H | apply sublist_take]. }
  rewrite sortByDistance_perm in H'.
  apply collect_stored in H' as [H'|H']; [inversion H' | exact H'].
Qed.

Lemma Sorted_same_order {A} (R R' : A -> A -> Prop) (l : list A) :
  (forall x y, x ∈ l -> y ∈ l -> R x y -> R' x y) ->
  Sorted R l -> Sorted R' l.
Proof.
  intros Hsame Hs. induction Hs as [|x xs Hs IH Hhd]; constructor.
  - apply IH. intros a b Ha Hb. apply Hsame; right; assumption.
  - destruct Hhd as [|y ys Hxy]; constructor.
    apply Hsame; [left | right; left | exact Hxy].
Qed.

(** On such ids [closest] returns contacts in ascending XOR distance. *)
Lemma closest_xor_sorted i b :
  isBytes i -> length i <= 6 ->
  Forall (fun c => isBytes (Contact.id c) /\ length (Contact.id c) <= 6)
         (closest i None b) ->
  Sorted (xorCloserTo i) (closest i None b).
Proof.
  intros Hi Hli Hall. rewrite Forall_forall in Hall.
  apply (Sorted_same_order (closerTo i)).
  - intros x y Hx Hy. unfold closerTo, xorCloserTo.
    destruct (Hall x Hx) as [Hbx Hlx]. destruct (Hall y Hy) as [Hby Hly].
    rewrite !distance_exact by assumption. trivial.
  - apply sortByDistance_sorted.
Qed.
End BucketFacts.

Section AddFacts.
Import KBucket.

Lemma indexOf_app_new cs c :
  indexOf cs (Contact.id c) = None ->
  indexOf (cs ++ [c]) (Contact.id c) = Some (length cs).
Proof.
  induction cs as [|x xs IH]; simpl.
  - intros _. unfold sameId. rewrite bool_decide_eq_true_2; reflexivity.
  - destruct (sameId (Contact.id x) (Contact.id c)); [discriminate|].
    destruct (indexOf xs (Contact.id c)); [discriminate|].
    intros _. rewrite IH; reflexivity.
Qed.

Lemma indexOf_filter_None (p : Contact.t -> bool) cs i :
  indexOf cs i = None -> indexOf (List.filter p cs) i = None.
Proof.
  rewrite !indexOf_None. intros H c Hc. apply H.
  apply list_elem_of_In in Hc. apply filter_In in Hc as [Hc _].
  apply list_elem_of_In. exact Hc.
Qed.

Lemma split_perm (p : Contact.t -> bool) (cs : list Contact.t) :
  List.filter (fun x => negb (p x)) cs ++ List.filter p cs ≡ₚ cs.
Proof.
  induction cs as [|x xs IH]; simpl; [reflexivity|].
  destruct (p x); simpl.
  - rewrite <- Permutation_middle. constructor. exact IH.
  - constructor. exact IH.
Qed.

(** A contact whose id is new to its leaf is stored, or the stored
    contacts stay what they were (the leaf is full and may not split). *)
Lemma leafAdd_new fuel k own c :
  forall cs dontSplit bitIndex,
    indexOf cs (Contact.id c) = None ->
    let n' := leafAdd fuel k own cs dontSplit bitIndex c in
    getAt n' (Contact.id c) bitIndex = Some c \/ contactsOf n' ≡ₚ cs.
Proof.
  induction fuel as [|fuel IH]; intros cs dontSplit bitIndex Hnew; simpl; rewrite Hnew.
  - destruct (length cs <? k).
    + left. simpl. rewrite indexOf_app_new by exact Hnew.
      rewrite lookup_app_r, Nat.sub_diag by reflexivity. reflexivity.
    + right. destruct dontSplit; reflexivity.
  - destruct (length cs <? k).
    + left. simpl. rewrite indexOf_app_new by exact Hnew.
      rewrite lookup_app_r, Nat.sub_diag by reflexivity. reflexivity.
    + destruct dontSplit; [right; reflexivity|].
      destruct (goesRight (Contact.id c) bitIndex) eqn:Hside; simpl; rewrite Hside.
      * destruct (IH (List.filter (fun x => goesRight (Contact.id x) bitIndex) cs)
                    (negb (goesRight own bitIndex)) (S bitIndex)) as [Hget|Hperm].
        { apply indexOf_filter_None, Hnew. }
        -- left. exact Hget.
        -- right. rewrite Hperm. apply split_perm.
      * destruct (IH (List.filter (fun x => negb (goesRight (Contact.id x) bitIndex)) cs)
                    (goesRight own bitIndex) (S bitIndex)) as [Hget|Hperm].
        { apply indexOf_filter_None, Hnew. }
        -- left. exact Hget.
        -- right. rewrite Hperm. apply split_perm.
Qed.

Lemma addAt_new fuel k own c n :
  forall bitIndex,
    getAt n (Contact.id c) bitIndex = None ->
    let n' := addAt fuel k own n bitIndex c in
    getAt n' (Contact.id c) bitIndex = Some c \/ contactsOf n' ≡ₚ contactsOf n.
Proof.
  induction n as [cs ds|l IHl r IHr]; intros bitIndex Hnone; simpl.
  - apply leafAdd_new. simpl in Hnone.
    destruct (indexOf cs (Contact.id c)) as [index|] eqn:E; [|reflexivity].
    destruct (indexOf_Some _ _ _ E) as (c' & Hc' & _). congruence.
  - simpl in Hnone. destruct (goesRight (Contact.id c) bitIndex) eqn:Hside;
      simpl; rewrite Hside.
    + destruct (IHr _ Hnone) as [Hget|Hperm]; [left; exact Hget|].
      right. rewrite Hperm. reflexivity.
    + destruct (IHl _ Hnone) as [Hget|Hperm]; [left; exact Hget|].
      right. rewrite Hperm. reflexivity.
Qed.

Lemma add_new c b :
  get (Contact.id c) b = None ->
  get (Contact.id c) (add c b) = Some c
  \/ contactsOf (root (add c b)) ≡ₚ contactsOf (root b).
Proof. intros Hnone. apply addAt_new. exact Hnone. Qed.
Lemma leafAdd_room fuel k own c cs dontSplit bitIndex :
  indexOf cs (Contact.id c) = None -> length cs < k ->
  leafAdd fuel k own cs dontSplit bitIndex c = Leaf (cs ++ [c]) dontSplit.
Proof.
  intros Hnew Hroom. apply Nat.ltb_lt in Hroom.
  destruct fuel; cbn [leafAdd]; rewrite Hnew, Hroom; reflexivity.
Qed.

(** The leaf of the id has room: the contact is stored there. *)
Lemma addAt_leaf_room fuel k own c n :
  forall bitIndex,
    getAt n (Contact.id c) bitIndex = None ->
    length (fst (leafAt n (Contact.id c) bitIndex)) < k ->
    getAt (addAt fuel k own n bitIndex c) (Contact.id c) bitIndex = Some c /\
    length (contactsOf (addAt fuel k own n bitIndex c)) = S (length (contactsOf n)).
Proof.
  induction n as [cs ds|l IHl r IHr]; intros bitIndex Hnone Hroom; cbn [addAt].
  - assert (Hnew : indexOf cs (Contact.id c) = None).
    { cbn [getAt] in Hnone.
      destruct (indexOf cs (Contact.id c)) as [index|] eqn:E; [|reflexivity].
      destruct (indexOf_Some _ _ _ E) as (c' & Hc' & _). congruence. }
    cbn [leafAt fst] in Hroom.
    rewrite leafAdd_room by assumption. cbn [getAt contactsOf]. split.
    + rewrite indexOf_app_new by exact Hnew.
      rewrite lookup_app_r, Nat.sub_diag by reflexivity. reflexivity.
    + rewrite length_app. cbn. lia.
  - cbn [getAt] in Hnone. cbn [leafAt] in Hroom.
    destruct (goesRight (Contact.id c) bitIndex) eqn:Hside;
      rewrite getAt_inner, Hside; cbn [contactsOf]; rewrite !length_app.
    + destruct (IHr (S bitIndex) Hnone Hroom) as [Hget Hlen].
      split; [exact Hget | lia].
    + destruct (IHl (S bitIndex) Hnone Hroom) as [Hget Hlen].
      split; [exact Hget | lia].
Qed.

(** The leaf of the id is full and may not split: nothing changes. *)
Lemma addAt_leaf_closed fuel k own c n :
  forall bitIndex,
    getAt n (Contact.id c) bitIndex = None ->
    k <= length (fst (leafAt n (Contact.id c) bitIndex)) ->
    snd (leafAt n (Contact.id c) bitIndex) = true ->
    addAt fuel k own n bitIndex c = n.
Proof.
  induction n as [cs ds|l IHl r IHr]; intros bitIndex Hnone Hfull Hclosed; cbn [addAt].
  - assert (Hnew : indexOf cs (Contact.id c) = None).
    { cbn [getAt] in Hnone.
      destruct (indexOf cs (Contact.id c)) as [index|] eqn:E; [|reflexivity].
      destruct (indexOf_Some _ _ _ E) as (c' & Hc' & _). congruence. }
    cbn [leafAt fst snd] in Hfull, Hclosed. subst ds.
    assert (Hno : (length cs <? k) = false) by (apply Nat.ltb_ge; exact Hfull).
    destruct fuel; cbn [leafAdd]; rewrite Hnew, Hno; reflexivity.
  - cbn [getAt] in Hnone. cbn [leafAt] in Hfull, Hclosed.
    destruct (goesRight (Contact.id c) bitIndex).
    + rewrite (IHr (S bitIndex)) by assumption. reflexivity.
    + rewrite (IHl (S bitIndex)) by assumption. reflexivity.
Qed.

Lemma add_leaf_room c b :
  get (Contact.id c) b = None ->
  length (fst (leafAt (root b) (Contact.id c) 0)) < numberOfNodesPerKBucket b ->
  get (Contact.id c) (add c b) = Some c /\ count (add c b) = S (count b).
Proof. apply addAt_leaf_room. Qed.

Lemma add_leaf_closed c b :
  get (Contact.id c) b = None ->
  numberOfNodesPerKBucket b <= length (fst (leafAt (root b) (Contact.id c) 0)) ->
  snd (leafAt (root b) (Contact.id c) 0) = true ->
  add c b = b.
Proof.
  intros Hnone Hfull Hclosed. unfold add.
  rewrite addAt_leaf_closed by assumption. destruct b; reflexivity.
Qed.
End AddFacts.

Section InsertFacts.
Import SortedContactList.

Lemma insertSorted_last_or_kept own e es :
  insertSorted own e es = es ++ [e] \/ e ∈ removelast (insertSorted own e es).
Proof.
  induction es as [|x xs IH]; simpl; [left; reflexivity|].
  destruct (_ <? _)%N.
  - right. rewrite removelast_cons by discriminate. left.
  - destruct IH as [->|Hin]; [left; reflexivity|].
    right. rewrite removelast_cons by apply insertSorted_nonempty.
    right. exact Hin.
Qed.

Lemma hasId_of_elem e es : e ∈ es -> hasId (entryId e) es = true.
Proof.
  intros Hin. apply hasId_true. apply (list_elem_of_fmap_2 entryId) in Hin. exact Hin.
Qed.

(** An offered contact is in the list afterwards, or the entries are what
    they were (the list is full and the contact is the farthest). *)
Lemma addContact_kept_or_same c l :
  hasId (Contact.id c) (entries (addContact c l)) = true
  \/ entries (addContact c l) = entries l.
Proof.
  unfold addContact. destruct (hasId (Contact.id c) (entries l)) eqn:Hhas.
  - left. exact Hhas.
  - cbn [entries]. unfold evictFarthest.
    destruct (K <? length _).
    + destruct (insertSorted_last_or_kept (ownId l) (mkEntry c false false) (entries l))
        as [->|Hin].
      * right. apply removelast_last.
      * left. apply (hasId_of_elem _ _ Hin).
    + left. apply (hasId_of_elem (mkEntry c false false)).
      apply (elem_of_Permutation_proper _ _ _ (insertSorted_perm _ _ _)). left.
Qed.
(** A new contact stays in the list when the list has room or holds an
    entry that is farther. *)
Lemma insertSorted_before_farther own e es :
  Exists (fun x => (entryDistance own e < entryDistance own x)%N) es ->
  e ∈ removelast (insertSorted own e es).
Proof.
  induction es as [|x xs IH]; intros Hfar; [inversion Hfar|].
  rewrite insertSorted_cons.
  destruct (N.ltb_spec (entryDistance own e) (entryDistance own x)) as [Hlt|Hge].
  - rewrite removelast_cons by discriminate. left.
  - rewrite removelast_cons by apply insertSorted_nonempty. right.
    apply IH. inversion Hfar as [? ? Hx|? ? Hxs]; subst; [lia | exact Hxs].
Qed.

Lemma addContact_records c l :
  hasId (Contact.id c) (entries l) = false ->
  length (entries l) < K \/
  Exists (fun x => (distance (ownId l) (Contact.id c) < entryDistance (ownId l) x)%N)
         (entries l) ->
  mkEntry c false false ∈ entries (addContact c l).
Proof.
  intros Hnew Hkeep. unfold addContact. rewrite Hnew. cbn [entries].
  unfold evictFarthest.
  destruct (Nat.ltb_spec K
              (length (insertSorted (ownId l) (mkEntry c false false) (entries l))))
    as [Hover|_].
  - rewrite insertSorted_length in Hover.
    destruct Hkeep as [Hroom|Hfar]; [lia|].
    apply insertSorted_before_farther. exact Hfar.
  - rewrite insertSorted_perm. left.
Qed.

Lemma insertSorted_behind own e es :
  Forall (fun x => (entryDistance own x <= entryDistance own e)%N) es ->
  insertSorted own e es = es ++ [e].
Proof.
  induction 1 as [|x xs Hx Hxs IH]; simpl; [reflexivity|].
  destruct (N.ltb_spec (entryDistance own e) (entryDistance own x)) as [Hlt|_]; [lia|].
  rewrite IH. reflexivity.
Qed.

(** It does not enter a full list of entries that are at most as
    far. *)
Lemma addContact_drops c l :
  hasId (Contact.id c) (entries l) = true \/
  (K <= length (entries l) /\
   Forall (fun x => (entryDistance (ownId l) x <= distance (ownId l) (Contact.id c))%N)
          (entries l)) ->
  addContact c l = l.
Proof.
  intros Hcase. unfold addContact.
  destruct (hasId (Contact.id c) (entries l)) eqn:Hhas; [reflexivity|].
  destruct Hcase as [Habs|[Hfull Hfar]]; [discriminate|].
  rewrite insertSorted_behind by exact Hfar.
  unfold evictFarthest. rewrite length_app. cbn [length].
  destruct (Nat.ltb_spec K (length (entries l) + 1)) as [_|Hno]; [|lia].
  rewrite removelast_last. destruct l; reflexivity.
Qed.
End InsertFacts.

(** * The claims about the sorted contact list *)

(** C7: after every sequence of [addContact], [addContacts],
    [setContacted] and [setActive] on a list, it holds at most [K] entries
    and is sorted ascending by XOR distance to the owner id.  A contact
    whose id is present is not inserted again, and marking an id changes
    flags only.  A contact new to a full list and strictly closer than its
    farthest entry takes a place in the list, and the farthest entry
    leaves it. *)
Theorem sortedContactList_invariant
        (own : NodeId) (ops : list SortedContactList.Op) (c : Contact.t) :
  let l := SortedContactList.run ops (SortedContactList.empty own) in
  let l' := SortedContactList.addContact c l in
  (SortedContactList.bounded l /\ SortedContactList.sortedByDistance l) /\
  (SortedContactList.hasId (Contact.id c) (SortedContactList.entries l) = true ->
   l' = l) /\
  (forall i,
      map SortedContactList.entryId
          (SortedContactList.entries (SortedContactList.setContacted i l))
      = map SortedContactList.entryId (SortedContactList.entries l) /\
      map SortedContactList.entryId
          (SortedContactList.entries (SortedContactList.setActive i l))
      = map SortedContactList.entryId (SortedContactList.entries l)) /\
  (forall far,
      SortedContactList.hasId (Contact.id c) (SortedContactList.entries l) = false ->
      length (SortedContactList.entries l) = SortedContactList.K ->
      last (SortedContactList.entries l) = Some far ->
      (distance own (Contact.id c) < SortedContactList.entryDistance own far)%N ->
      length (SortedContactList.entries l') = SortedContactList.K /\
      SortedContactList.hasId (Contact.id c) (SortedContactList.entries l') = true /\
      SortedContactList.hasId (SortedContactList.entryId far)
                              (SortedContactList.entries l') = false).
Proof.
  intros l l'.
  assert (Hwf : wellFormed own l).
  { apply run_wellFormed, empty_wellFormed. }
  destruct Hwf as (Hown & Hlen & Hsorted & Hnodup).
  split; [|split; [|split]].
  - split; [exact Hlen|]. unfold SortedContactList.sortedByDistance.
    rewrite Hown. exact Hsorted.
  - intros Hhas. unfold l', SortedContactList.addContact. rewrite Hhas. reflexivity.
  - intros i. split; cbn [SortedContactList.setContacted SortedContactList.setActive
                           SortedContactList.entries];
      rewrite map_map; apply map_ext; intros e;
      destruct (sameId _ _); reflexivity.
  - intros far Hhas Hfull Hlast Hcloser.
    assert (Hl' : SortedContactList.entries l'
                  = SortedContactList.insertSorted own
                      (SortedContactList.mkEntry c false false)
                      (removelast (SortedContactList.entries l))).
    { unfold l', SortedContactList.addContact. rewrite Hhas.
      cbn [SortedContactList.entries]. rewrite Hown.
      unfold SortedContactList.evictFarthest.
      rewrite insertSorted_length, Hfull.
      change (SortedContactList.K <? S SortedContactList.K) with true. cbv iota.
      apply (removelast_insertSorted own _ far); [exact Hlast | exact Hcloser]. }
    assert (Hsplit : SortedContactList.entries l
                     = removelast (SortedContactList.entries l) ++ [far]).
    { apply last_Some in Hlast as [es' Hes']. rewrite Hes' at 1.
      rewrite Hes', removelast_last. reflexivity. }
    split; [|split].
    + rewrite Hl', insertSorted_length, removelast_length, Hfull.
      unfold SortedContactList.K. reflexivity.
    + apply hasId_true. rewrite Hl', insertSorted_ids. left.
    + apply hasId_false. rewrite Hl', insertSorted_ids.
      rewrite Hsplit, map_app in Hnodup. cbn [map] in Hnodup.
      apply NoDup_app in Hnodup as (_ & Hdisj & _).
      apply not_elem_of_cons. split.
      * intros Heq. apply hasId_false in Hhas. apply Hhas.
        change (Contact.id c ∈ map SortedContactList.entryId (SortedContactList.entries l)).
        replace (Contact.id c) with (SortedContactList.entryId far) by exact Heq.
        rewrite Hsplit, map_app. apply elem_of_app. right. left.
      * intros Hin. apply (Hdisj _ Hin). left.
Qed.

Lemma sortedContactList_invariant_witness :
  let l := SortedContactList.run fullList (SortedContactList.empty [0%N]) in
  let l' := SortedContactList.addContact (Contact.mk [1%N] 1) l in
  SortedContactList.addContact (Contact.mk [12%N] 99) l = l /\
  length (SortedContactList.entries l') = SortedContactList.K /\
  SortedContactList.hasId [1%N] (SortedContactList.entries l') = true /\
  SortedContactList.hasId [17%N] (SortedContactList.entries l') = false.
Proof.
  split.
  - apply (sortedContactList_invariant [0%N] fullList (Contact.mk [12%N] 99)).
    reflexivity.
  - apply (sortedContactList_invariant [0%N] fullList (Contact.mk [1%N] 1))
      with (far := SortedContactList.mkEntry (Contact.mk [17%N] 17) false false).
    + reflexivity.
    + reflexivity.
    + reflexivity.
    + vm_compute. reflexivity.
Defined.

(** * The claims about [joinDht] *)

Section JoinClaims.
Import DhtNode.

Lemma seeding_advances this entryPoint s :
  advances s
    (update this
       (withNeighborList
          (SortedContactList.addContacts
             (KBucket.closest
                (ownId (update this (withBucket (KBucket.add (getContact s entryPoint))) s this))
                (Some ALPHA)
                (bucket (update this (withBucket (KBucket.add (getContact s entryPoint))) s this)))))
       (update this (withBucket (KBucket.add (getContact s entryPoint))) s)).
Proof.
  eapply advances_trans; [apply update_advances, withBucket_advances|].
  apply update_advances, addContacts_advances.
Qed.

(** C2: in every completed [joinDht] call whose entry point has another
    id than the node, each probe round starts from the state the
    previous round left, and after each round the closest contact of the
    neighbor list is at most as far from the node's own id, in XOR
    distance, as it was before the round. *)
Theorem joinDht_closest_never_farther
        (fuel : nat) (this entryPoint : NodeRef) (s s' : Store)
        (rounds : list Round) :
  ownsNeighborList (s this) ->
  Contact.id (getContact s entryPoint) <> ownId (s this) ->
  joinDht fuel this entryPoint s = Some (rounds, s') ->
  chained rounds /\ endsIn (s' this) rounds /\
  Forall (fun r => notFarther (ownId (s this))
                              (closestOf (before r)) (closestOf (after r)))
         rounds.
Proof.
  intros Howns Hother Hrun. unfold joinDht in Hrun.
  unfold sameId in Hrun. rewrite bool_decide_eq_false_2 in Hrun by exact Hother.
  pose proof (seeding_advances this entryPoint s this) as (_ & Hown2 & _).
  destruct (lookupLoop_rounds _ _ _ _ _ Hrun)
    as (_ & _ & _ & _ & _ & _ & _ & _ & _ & _ & Hc & He & _ & Hall).
  split; [exact Hc|]. split; [exact He|].
  eapply Forall_impl; [exact Hall|]. cbn.
  intros r [(_ & Hownr & _) (_ & _ & Himp)].
  apply improves_notFarther.
  assert (Hq : SortedContactList.ownId (neighborList (before r)) = ownId (s this)).
  { etransitivity; [exact Hownr|]. etransitivity; [exact Hown2 | exact Howns]. }
  rewrite Hq in Himp. exact Himp.
Qed.

Lemma joinDht_closest_never_farther_witness :
  match joinDht 10 3 0 (ask 0 (ask 0 fresh 1) 2) with
  | Some (rounds, s') =>
      chained rounds /\ endsIn (s' 3) rounds /\
      Forall (fun r => notFarther [3%N] (closestOf (before r)) (closestOf (after r)))
             rounds
  | None => False
  end.
Proof.
  assert (Hsome : match joinDht 10 3 0 (ask 0 (ask 0 fresh 1) 2) with
                  | Some _ => true
                  | None => false
                  end = true) by (vm_compute; reflexivity).
  destruct (joinDht 10 3 0 (ask 0 (ask 0 fresh 1) 2)) as [[rounds s']|] eqn:Hrun;
    [|discriminate Hsome].
  apply (joinDht_closest_never_farther 10 3 0 (ask 0 (ask 0 fresh 1) 2) s' rounds).
  - vm_compute. reflexivity.
  - vm_compute. discriminate.
  - exact Hrun.
Defined.

Lemma create_sound own : sound (create own).
Proof.
  split.
  - apply empty_wellFormed.
  - constructor.
Qed.

Lemma seeding_sound this entryPoint s :
  sound (s this) ->
  sound
    (update this
       (withNeighborList
          (SortedContactList.addContacts
             (KBucket.closest
                (ownId (update this (withBucket (KBucket.add (getContact s entryPoint))) s this))
                (Some ALPHA)
                (bucket (update this (withBucket (KBucket.add (getContact s entryPoint))) s this)))))
       (update this (withBucket (KBucket.add (getContact s entryPoint))) s) this).
Proof.
  intros Hsound.
  apply (update_keeps sound).
  - intros n Hn. apply (addContacts_keeps sound); [|exact Hn].
    intros c n0. apply sound_addContact.
  - apply (update_keeps sound); [|exact Hsound].
    intros n Hn. exact Hn.
Qed.

(** C6: when the entry point has the node's own id, [joinDht] returns at
    once, makes no probe round and leaves the store of nodes as it was;
    bucket, neighbor list and both call counters of the node are the
    same, however often the call is repeated. *)
Theorem joinDht_self_is_noop
        (fuel times : nat) (this entryPoint : NodeRef) (s : Store) :
  Contact.id (getContact s entryPoint) = ownId (s this) ->
  joinDht fuel this entryPoint s = Some ([], s) /\
  joinRepeatedly times fuel this entryPoint s = Some s.
Proof.
  intros Hself.
  assert (Hone : joinDht fuel this entryPoint s = Some ([], s)).
  { unfold joinDht, sameId. rewrite bool_decide_eq_true_2 by exact Hself. reflexivity. }
  split; [exact Hone|].
  induction times as [|times IH]; cbn [joinRepeatedly]; [reflexivity|].
  rewrite Hone. exact IH.
Qed.

Lemma joinDht_self_is_noop_witness :
  joinDht 0 0 0 crowded = Some ([], crowded) /\
  joinRepeatedly 5 0 0 0 crowded = Some crowded.
Proof. apply (joinDht_self_is_noop 0 5 0 0 crowded). vm_compute. reflexivity. Defined.
End JoinClaims.

(** * The claims about [getClosestNodesTo] *)

Section RpcClaims.
Import DhtNode.

Lemma update_this this f (s : Store) : update this f s this = f (s this).
Proof. unfold update. rewrite decide_True; reflexivity. Qed.

(** What the call leaves in the responder, by the two cases of
    [bucket.get(id)]. *)
Lemma getClosestNodesTo_node this i caller s :
  snd (getClosestNodesTo this i caller s) this =
  match KBucket.get i (bucket (s this)) with
  | Some _ => countIncoming (s this)
  | None =>
      withNeighborList
        (SortedContactList.addContact (Contact.mk i caller))
        (withBucket (KBucket.add (Contact.mk i caller)) (countIncoming (s this)))
  end.
Proof.
  unfold getClosestNodesTo. cbn [snd]. rewrite update_this.
  cbn [countIncoming bucket].
  destruct (KBucket.get i (bucket (s this))).
  - rewrite update_this. reflexivity.
  - rewrite !update_this. reflexivity.
Qed.

Lemma getClosestNodesTo_reply this i caller s :
  fst (getClosestNodesTo this i caller s)
  = KBucket.closest i None (bucket (s this)).
Proof.
  unfold getClosestNodesTo. cbn [fst]. rewrite update_this. reflexivity.
Qed.

(** C4, as the code has it: every call [getClosestNodesTo(targetId,
    caller)] adds exactly one to the counter of incoming calls and
    leaves the counter of outgoing calls alone; it returns
    [bucket.closest(targetId)] taken without a limit, which is every
    contact of the bucket, as many as [bucket.count()], in ascending
    order of the distance the package computes.  That distance is the
    XOR distance added up in double precision: for ids of up to six
    bytes it is the XOR distance itself, and the reply is in ascending
    XOR distance to [targetId]. *)
Theorem getClosestNodesTo_returns_whole_bucket
        (this : NodeRef) (i : NodeId) (caller : NodeRef) (s : Store) :
  let ret := fst (getClosestNodesTo this i caller s) in
  let s' := snd (getClosestNodesTo this i caller s) in
  getNumberOfIncomingRpcCalls s' this = S (getNumberOfIncomingRpcCalls s this) /\
  getNumberOfOutgoingRpcCalls s' this = getNumberOfOutgoingRpcCalls s this /\
  ret = KBucket.closest i None (bucket (s this)) /\
  ret ≡ₚ KBucket.contactsOf (KBucket.root (bucket (s this))) /\
  length ret = getKBucketSize s this /\
  Sorted (closerTo i) ret /\
  (isBytes i -> length i <= 6 ->
   Forall (fun c => isBytes (Contact.id c) /\ length (Contact.id c) <= 6) ret ->
   Sorted (xorCloserTo i) ret).
Proof.
  intros ret s'. unfold ret, s'.
  unfold getNumberOfIncomingRpcCalls, getNumberOfOutgoingRpcCalls.
  rewrite getClosestNodesTo_node, getClosestNodesTo_reply.
  split; [|split; [|split; [|split; [|split; [|split]]]]].
  - destruct (KBucket.get i (bucket (s this))); reflexivity.
  - destruct (KBucket.get i (bucket (s this))); reflexivity.
  - reflexivity.
  - apply closest_all.
  - unfold getKBucketSize, KBucket.count. rewrite closest_all. reflexivity.
  - apply sortByDistance_sorted.
  - apply closest_xor_sorted.
Qed.

(** The order of the reply on longer ids.  A node holds the contacts
    [1,0,0,0,0,0,0,1] and [1,0,0,0,0,0,0,0], added in this order.
    Asked for [0,0,0,0,0,0,0,0] it returns them in this order: in
    double precision both are at the distance [2 ^ 56], and the sort
    leaves ties as they were.  The second one is closer in XOR
    distance. *)
Lemma getClosestNodesTo_rounds_long_ids :
  let far := [1; 0; 0; 0; 0; 0; 0; 1]%N in
  let near := [1; 0; 0; 0; 0; 0; 0; 0]%N in
  let target := [0; 0; 0; 0; 0; 0; 0; 0]%N in
  let s := snd (getClosestNodesTo 0 near 2 (snd (getClosestNodesTo 0 far 1 fresh))) in
  fst (getClosestNodesTo 0 target 9 s) = [Contact.mk far 1; Contact.mk near 2] /\
  KBucket.distance far target = (2 ^ 56)%N /\
  KBucket.distance near target = (2 ^ 56)%N /\
  (distance near target < distance far target)%N.
Proof.
  cbv zeta. split; [vm_compute; reflexivity|].
  split; [vm_compute; reflexivity|]. split; vm_compute; reflexivity.
Qed.

(** C4 as stated fails: node 0, after nine nodes have looked themselves
    up there, answers the next call with nine contacts, more than [K]. *)
Lemma getClosestNodesTo_exceeds_K :
  length (fst (getClosestNodesTo 0 [2%N] 2 crowded)) = 9 /\
  ~ length (fst (getClosestNodesTo 0 [2%N] 2 crowded)) <= K.
Proof.
  assert (H : length (fst (getClosestNodesTo 0 [2%N] 2 crowded)) = 9)
    by (vm_compute; reflexivity).
  split; [exact H|]. rewrite H. unfold K. lia.
Qed.

(** C5, as the code has it: the test is whether the bucket holds a
    contact with the id that was asked for.  If it holds none, a new
    contact of that id and the caller's reference is handed to
    [bucket.add] and to [neighborList.addContact].  The bucket records
    it when the leaf of that id holds fewer contacts than a leaf
    takes: it then returns the contact under that id and counts one
    more; when that leaf is full and may not split, the bucket stays
    as it is; in every case it returns the contact afterwards or
    stores what it stored before.  The neighbor list records it when
    it has no entry of that id and has fewer than [K] entries or an
    entry that is farther; when it has an entry of that id, or [K]
    entries none of which is farther, the list stays as it is.  If the
    bucket holds a contact with the id, bucket and neighbor list stay
    as they are. *)
Theorem getClosestNodesTo_learns_by_id
        (this : NodeRef) (i : NodeId) (caller : NodeRef) (s : Store) :
  let s' := snd (getClosestNodesTo this i caller s) in
  let contact := Contact.mk i caller in
  let b := bucket (s this) in
  let l := neighborList (s this) in
  let leaf := KBucket.leafAt (KBucket.root b) i 0 in
  let farther e :=
    (distance (SortedContactList.ownId l) i
     < SortedContactList.entryDistance (SortedContactList.ownId l) e)%N in
  match KBucket.get i b with
  | None =>
      bucket (s' this) = KBucket.add contact b /\
      neighborList (s' this) = SortedContactList.addContact contact l /\
      (length (fst leaf) < KBucket.numberOfNodesPerKBucket b ->
       KBucket.get i (bucket (s' this)) = Some contact /\
       getKBucketSize s' this = S (getKBucketSize s this)) /\
      (KBucket.numberOfNodesPerKBucket b <= length (fst leaf) ->
       snd leaf = true ->
       bucket (s' this) = b) /\
      (KBucket.get i (bucket (s' this)) = Some contact \/
       KBucket.contactsOf (KBucket.root (bucket (s' this)))
       ≡ₚ KBucket.contactsOf (KBucket.root b)) /\
      (SortedContactList.hasId i (SortedContactList.entries l) = false ->
       length (SortedContactList.entries l) < SortedContactList.K \/
       Exists farther (SortedContactList.entries l) ->
       SortedContactList.mkEntry contact false false
       ∈ SortedContactList.entries (neighborList (s' this))) /\
      (SortedContactList.hasId i (SortedContactList.entries l) = true \/
       (SortedContactList.K <= length (SortedContactList.entries l) /\
        Forall (fun e => ~ farther e) (SortedContactList.entries l)) ->
       neighborList (s' this) = l)
  | Some _ =>
      bucket (s' this) = b /\ neighborList (s' this) = l
  end.
Proof.
  intros s' contact b l leaf farther. unfold s', getKBucketSize.
  rewrite getClosestNodesTo_node. fold b l.
  destruct (KBucket.get i b) eqn:Hget.
  - split; reflexivity.
  - cbn [bucket neighborList withNeighborList withBucket countIncoming].
    fold b l.
    split; [reflexivity|]. split; [reflexivity|].
    split; [|split; [|split; [|split]]].
    + intros Hroom. apply (add_leaf_room contact b Hget Hroom).
    + intros Hfull Hclosed. apply (add_leaf_closed contact b Hget Hfull Hclosed).
    + apply (add_new contact). exact Hget.
    + intros Hnew Hkeep. apply (addContact_records contact l Hnew Hkeep).
    + intros Hcase. apply (addContact_drops contact l).
      destruct Hcase as [Hhas|[Hfull Hnone]]; [left; exact Hhas|].
      right. split; [exact Hfull|].
      eapply Forall_impl; [exact Hnone|]. intros e He. unfold farther in He.
      cbn [Contact.id contact]. lia.
Qed.

(** C5 as stated fails.  Node 0 does not know node 136, which asks for
    its own id: the leaf for that id is full and may not split, the
    neighbor list is full of closer contacts, and nothing is recorded.
    Node 0 knows node 5; when node 5 asks for another id, bucket and
    neighbor list change.  Node 0 does not know node 7; when node 7 asks
    for the id of node 5, nothing is recorded. *)
Lemma getClosestNodesTo_does_not_follow_caller :
  (ownId (crowded 136) = [136%N] /\
   ~ knows (crowded 0) 136 /\
   bucket (snd (getClosestNodesTo 0 [136%N] 136 crowded) 0) = bucket (crowded 0) /\
   neighborList (snd (getClosestNodesTo 0 [136%N] 136 crowded) 0)
   = neighborList (crowded 0)) /\
  (knows (ask 0 fresh 5 0) 5 /\
   bucket (snd (getClosestNodesTo 0 [9%N] 5 (ask 0 fresh 5)) 0)
   <> bucket (ask 0 fresh 5 0) /\
   neighborList (snd (getClosestNodesTo 0 [9%N] 5 (ask 0 fresh 5)) 0)
   <> neighborList (ask 0 fresh 5 0)) /\
  (~ knows (ask 0 fresh 5 0) 7 /\
   ~ knows (snd (getClosestNodesTo 0 [5%N] 7 (ask 0 fresh 5)) 0) 7 /\
   bucket (snd (getClosestNodesTo 0 [5%N] 7 (ask 0 fresh 5)) 0)
   = bucket (ask 0 fresh 5 0) /\
   neighborList (snd (getClosestNodesTo 0 [5%N] 7 (ask 0 fresh 5)) 0)
   = neighborList (ask 0 fresh 5 0)).
Proof.
  assert (Hc : KBucket.contactsOf (KBucket.root (bucket (crowded 0)))
               = [Contact.mk [1%N] 1; Contact.mk [128%N] 128;
                  Contact.mk [129%N] 129; Contact.mk [130%N] 130;
                  Contact.mk [131%N] 131; Contact.mk [132%N] 132;
                  Contact.mk [133%N] 133; Contact.mk [134%N] 134;
                  Contact.mk [135%N] 135])
    by (vm_compute; reflexivity).
  assert (Hb : bucket (ask 0 fresh 5 0)
               = KBucket.mk [0%N] 8 (KBucket.Leaf [Contact.mk [5%N] 5] false))
    by (vm_compute; reflexivity).
  assert (Hb7 : bucket (snd (getClosestNodesTo 0 [5%N] 7 (ask 0 fresh 5)) 0)
                = bucket (ask 0 fresh 5 0))
    by (vm_compute; reflexivity).
  split; [|split].
  - split; [vm_compute; reflexivity|]. split; [|split].
    + intros (c & Hin & Href). rewrite Hc in Hin.
      assert (Hall : Forall (fun c => Contact.dhtNode c <> 136)
                       [Contact.mk [1%N] 1; Contact.mk [128%N] 128;
                        Contact.mk [129%N] 129; Contact.mk [130%N] 130;
                        Contact.mk [131%N] 131; Contact.mk [132%N] 132;
                        Contact.mk [133%N] 133; Contact.mk [134%N] 134;
                        Contact.mk [135%N] 135])
        by (repeat constructor; discriminate).
      rewrite Forall_forall in Hall. exact (Hall c Hin Href).
    + vm_compute. reflexivity.
    + vm_compute. reflexivity.
  - split; [|split].
    + exists (Contact.mk [5%N] 5). rewrite Hb. split; [left | reflexivity].
    + vm_compute. discriminate.
    + vm_compute. discriminate.
  - split; [|split; [|split]].
    + intros (c & Hin & Href). rewrite Hb in Hin. cbn in Hin.
      apply list_elem_of_singleton in Hin. subst c. discriminate Href.
    + intros (c & Hin & Href). rewrite Hb7, Hb in Hin. cbn in Hin.
      apply list_elem_of_singleton in Hin. subst c. discriminate Href.
    + exact Hb7.
    + vm_compute. reflexivity.
Qed.

(** C10: when the bucket holds no contact with the id asked for, the
    reply is [bucket.closest(id)] of the bucket as it was before the
    call, so no contact of that id, and in particular not the contact
    made for the caller, is in the reply; the contact handed to the
    bucket and to the neighbor list carries the id that was asked for
    and the caller's reference, whatever the caller's own id is. *)
Theorem getClosestNodesTo_reply_precedes_record
        (this : NodeRef) (i : NodeId) (caller : NodeRef) (s : Store) :
  (forall c, c ∈ KBucket.contactsOf (KBucket.root (bucket (s this))) ->
             Contact.id c <> i) ->
  let ret := fst (getClosestNodesTo this i caller s) in
  let s' := snd (getClosestNodesTo this i caller s) in
  ret = KBucket.closest i None (bucket (s this)) /\
  (forall c, c ∈ ret -> Contact.id c <> i) /\
  (Contact.mk i caller ∉ ret) /\
  bucket (s' this) = KBucket.add (Contact.mk i caller) (bucket (s this)) /\
  neighborList (s' this)
  = SortedContactList.addContact (Contact.mk i caller) (neighborList (s this)).
Proof.
  intros Habsent ret s'. unfold ret, s'.
  rewrite getClosestNodesTo_node, getClosestNodesTo_reply.
  rewrite (get_None_of_absent i (bucket (s this)) Habsent).
  assert (Hret : forall c, c ∈ KBucket.closest i None (bucket (s this)) ->
                           Contact.id c <> i).
  { intros c Hc. apply Habsent. eapply closest_stored. exact Hc. }
  split; [reflexivity|]. split; [exact Hret|]. split.
  - intros Hin. apply (Hret _ Hin). reflexivity.
  - split; reflexivity.
Qed.

Lemma getClosestNodesTo_reply_precedes_record_witness :
  let s := ask 0 fresh 5 in
  let ret := fst (getClosestNodesTo 0 [9%N] 5 s) in
  let s' := snd (getClosestNodesTo 0 [9%N] 5 s) in
  ret = KBucket.closest [9%N] None (bucket (s 0)) /\
  (forall c, c ∈ ret -> Contact.id c <> [9%N]) /\
  (Contact.mk [9%N] 5 ∉ ret) /\
  bucket (s' 0) = KBucket.add (Contact.mk [9%N] 5) (bucket (s 0)) /\
  neighborList (s' 0)
  = SortedContactList.addContact (Contact.mk [9%N] 5) (neighborList (s 0)).
Proof.
  intros s.
  apply (getClosestNodesTo_reply_precedes_record 0 [9%N] 5 s).
  assert (Hb : bucket (s 0)
               = KBucket.mk [0%N] 8 (KBucket.Leaf [Contact.mk [5%N] 5] false))
    by (vm_compute; reflexivity).
  intros c Hin. rewrite Hb in Hin. cbn in Hin.
  apply list_elem_of_singleton in Hin. subst c. discriminate.
Defined.

(** The reply of the crowded node, and a first call recorded. *)
Lemma getClosestNodesTo_returns_whole_bucket_witness :
  let ret := fst (getClosestNodesTo 0 [2%N] 2 crowded) in
  map Contact.id ret
  = [[1]; [130]; [131]; [128]; [129]; [134]; [135]; [132]; [133]]%N /\
  Sorted (xorCloserTo [2%N]) ret.
Proof.
  split; [vm_compute; reflexivity|].
  destruct (getClosestNodesTo_returns_whole_bucket 0 [2%N] 2 crowded)
    as (_ & _ & _ & _ & _ & _ & Hxor).
  apply Hxor.
  - constructor; [lia | constructor].
  - vm_compute. lia.
  - change (fst (getClosestNodesTo 0 [2%N] 2 crowded))
      with (Contact.mk [1%N] 1
            :: map (fun r => Contact.mk [N.of_nat r] r)
                   [130; 131; 128; 129; 134; 135; 132; 133]).
    repeat (constructor;
            [split; [constructor; [vm_compute; reflexivity | constructor]
                    | vm_compute; lia] |]).
    constructor.
Defined.

Lemma getClosestNodesTo_learns_by_id_witness :
  let s' := snd (getClosestNodesTo 0 [5%N] 5 fresh) in
  KBucket.get [5%N] (bucket (fresh 0)) = None /\
  KBucket.get [5%N] (bucket (s' 0)) = Some (Contact.mk [5%N] 5) /\
  getKBucketSize s' 0 = S (getKBucketSize fresh 0) /\
  SortedContactList.mkEntry (Contact.mk [5%N] 5) false false
  ∈ SortedContactList.entries (neighborList (s' 0)).
Proof.
  intros s'.
  assert (Hnone : KBucket.get [5%N] (bucket (fresh 0)) = None)
    by (vm_compute; reflexivity).
  split; [exact Hnone|].
  pose proof (getClosestNodesTo_learns_by_id 0 [5%N] 5 fresh) as H.
  cbv zeta in H. rewrite Hnone in H.
  destruct H as (_ & _ & Hroom & _ & _ & Hlist & _).
  destruct Hroom as [Hget Hsize]; [vm_compute; lia|].
  split; [exact Hget|]. split; [exact Hsize|].
  apply Hlist.
  - vm_compute. reflexivity.
  - left. vm_compute. lia.
Defined.
End RpcClaims.

(** * What calls keep, when the bucket only takes contacts in *)

Section KeepsAdding.
Import DhtNode.

(** As [Keeps], for a property that [bucket.add] keeps but other changes
    of the bucket may not, and that marking an id contacted and active keeps. *)
Variable P : t -> Prop.
Hypothesis P_countIncoming : forall n, P n -> P (countIncoming n).
Hypothesis P_countOutgoing : forall n, P n -> P (countOutgoing n).
Hypothesis P_add : forall c n, P n -> P (withBucket (KBucket.add c) n).
Hypothesis P_addContact :
  forall c n, P n -> P (withNeighborList (SortedContactList.addContact c) n).
Hypothesis P_mark :
  forall i n, P n ->
    P (withNeighborList (SortedContactList.setActive i)
         (withNeighborList (SortedContactList.setContacted i) n)).

Lemma update_holds r f s x :
  (forall n, P n -> P (f n)) -> P (s x) -> P (update r f s x).
Proof.
  intros Hf Hx. unfold update. destruct (decide (x = r)); [apply Hf|]; exact Hx.
Qed.

Lemma addContacts_holds cs n :
  P n -> P (withNeighborList (SortedContactList.addContacts cs) n).
Proof.
  revert n. induction cs as [|c cs IH]; intros n Hn.
  - destruct n; exact Hn.
  - specialize (IH _ (P_addContact c n Hn)). exact IH.
Qed.

Lemma getClosestNodesTo_holds this i caller s x :
  P (s x) -> P (snd (getClosestNodesTo this i caller s) x).
Proof.
  intros Hx. unfold getClosestNodesTo. cbn [snd].
  destruct (KBucket.get _ _).
  - apply update_holds; [exact P_countIncoming | exact Hx].
  - apply update_holds; [apply P_addContact|].
    apply update_holds; [apply P_add|].
    apply update_holds; [exact P_countIncoming | exact Hx].
Qed.

Lemma learn_holds this cs s x :
  P (s x) ->
  P (fold_left
       (fun acc returnedContact =>
          match KBucket.get (Contact.id returnedContact) (bucket (acc this)) with
          | Some _ => acc
          | None => update this (withBucket (KBucket.add returnedContact)) acc
          end) cs s x).
Proof.
  revert s. induction cs as [|c cs IH]; intros s Hx; simpl; [exact Hx|].
  apply IH. destruct (KBucket.get _ _); [exact Hx|].
  apply update_holds; [apply P_add | exact Hx].
Qed.

Lemma probe_holds this shortlist s contact x :
  P (s x) -> P (probe this shortlist s contact x).
Proof.
  intros Hx. unfold probe.
  match goal with |- context [getClosestNodesTo ?a ?b ?c ?d] =>
    pose proof (getClosestNodesTo_holds a b c d x) as Hrpc;
    destruct (getClosestNodesTo a b c d) as [returnedContacts s4] end.
  cbn [snd] in Hrpc.
  apply learn_holds. apply update_holds; [apply addContacts_holds|].
  apply Hrpc. apply update_holds; [exact P_countOutgoing|].
  rewrite mark_twice. apply update_holds; [apply P_mark | exact Hx].
Qed.

Lemma findMoreContacts_holds this contactList shortlist s x :
  P (s x) -> P (findMoreContacts this contactList shortlist s x).
Proof.
  unfold findMoreContacts. revert s.
  induction contactList as [|c cs IH]; intros s Hx; simpl; [exact Hx|].
  apply IH. apply probe_holds. exact Hx.
Qed.

Lemma widenedLoop_holds fuel this x :
  forall contactList s rounds s',
    widenedLoop fuel this contactList s = Some (rounds, s') ->
    P (s x) -> P (s' x).
Proof.
  induction fuel as [|fuel IH]; intros contactList s rounds s' Hrun Hx; [discriminate|].
  cbn [widenedLoop] in Hrun.
  pose proof (findMoreContacts_holds this contactList this s x Hx) as Hx1.
  destruct (_ || _).
  - injection Hrun as _ <-. exact Hx1.
  - destruct (widenedLoop fuel this _ _) as [[rs s'']|] eqn:Hrest; [|discriminate].
    injection Hrun as _ <-. eapply IH; eassumption.
Qed.

Lemma lookupLoop_holds fuel this x :
  forall s rounds s',
    lookupLoop fuel this s = Some (rounds, s') -> P (s x) -> P (s' x).
Proof.
  induction fuel as [|fuel IH]; intros s rounds s' Hrun Hx; [discriminate|].
  rewrite lookupLoop_step in Hrun. cbv zeta in Hrun.
  pose proof (findMoreContacts_holds this (uncontacted ALPHA s this) this s x Hx)
    as Hx1.
  destruct (sameClosest _ _).
  - destruct (widenedLoop fuel this _ _) as [[rs s'']|] eqn:Hrest; [|discriminate].
    injection Hrun as _ <-. eapply widenedLoop_holds; eassumption.
  - destruct (lookupLoop fuel this _) as [[rs s'']|] eqn:Hrest; [|discriminate].
    injection Hrun as _ <-. eapply IH; eassumption.
Qed.

Lemma joinDht_holds fuel this entryPoint s rounds s' x :
  joinDht fuel this entryPoint s = Some (rounds, s') -> P (s x) -> P (s' x).
Proof.
  unfold joinDht. destruct (sameId _ _).
  - intros [= _ <-] Hx. exact Hx.
  - intros Hrun Hx. eapply lookupLoop_holds; [exact Hrun|].
    apply update_holds; [apply addContacts_holds|].
    apply update_holds; [apply P_add | exact Hx].
Qed.
End KeepsAdding.

(** * Every node, responders included *)

Section EveryNode.
Import DhtNode.

(** X1: a completed [joinDht] leaves every node of the store, the joiner
    and every node it called, with the id it had and with a neighbor
    list whose closest contact is the one it was or a strictly closer
    one. *)
Theorem joinDht_advances_every_node
        (fuel : nat) (this entryPoint : NodeRef) (s s' : Store)
        (rounds : list Round) :
  joinDht fuel this entryPoint s = Some (rounds, s') ->
  advances s s'.
Proof.
  intros Hrun r.
  apply (joinDht_holds (fun n => nodeAdvances (s r) n)
           ltac:(intros n Hn; exact Hn)
           ltac:(intros n Hn; exact Hn)
           ltac:(intros c n Hn; exact Hn)
           ltac:(intros c n Hn; eapply nodeAdvances_trans;
                 [exact Hn | apply addContact_advances])
           ltac:(intros i n Hn; eapply nodeAdvances_trans;
                 [exact Hn|]; eapply nodeAdvances_trans;
                 [apply setContacted_advances | apply setActive_advances])
           fuel this entryPoint s rounds s' r Hrun).
  apply nodeAdvances_refl.
Qed.

Lemma joinDht_advances_every_node_witness :
  match joinDht 10 3 0 (ask 0 (ask 0 fresh 1) 2) with
  | Some (rounds, s') => advances (ask 0 (ask 0 fresh 1) 2) s'
  | None => False
  end.
Proof.
  assert (Hsome : match joinDht 10 3 0 (ask 0 (ask 0 fresh 1) 2) with
                  | Some _ => true
                  | None => false
                  end = true) by (vm_compute; reflexivity).
  destruct (joinDht 10 3 0 (ask 0 (ask 0 fresh 1) 2)) as [[rounds s']|] eqn:Hrun;
    [|discriminate Hsome].
  apply (joinDht_advances_every_node
           10 3 0 (ask 0 (ask 0 fresh 1) 2) s' rounds Hrun).
Defined.

(** X2: a completed [joinDht] keeps the neighbor list of every node in
    order: owned by the node's id, at most [K] entries, ascending by
    distance, no id twice, and nobody active who was not contacted. *)
Theorem joinDht_keeps_lists_in_order
        (fuel : nat) (this entryPoint : NodeRef) (s s' : Store)
        (rounds : list Round) (r : NodeRef) :
  joinDht fuel this entryPoint s = Some (rounds, s') ->
  sound (s r) -> sound (s' r).
Proof.
  intros Hrun.
  apply (joinDht_holds sound
           ltac:(intros n Hn; exact Hn)
           ltac:(intros n Hn; exact Hn)
           ltac:(intros c n Hn; exact Hn)
           sound_addContact sound_mark
           fuel this entryPoint s rounds s' r Hrun).
Qed.

Lemma joinDht_keeps_lists_in_order_witness :
  match joinDht 10 3 0 (ask 0 (ask 0 fresh 1) 2) with
  | Some (rounds, s') => sound (s' 3)
  | None => False
  end.
Proof.
  assert (Hnode : ask 0 (ask 0 fresh 1) 2 3 = create [3%N])
    by (vm_compute; reflexivity).
  assert (Hsome : match joinDht 10 3 0 (ask 0 (ask 0 fresh 1) 2) with
                  | Some _ => true
                  | None => false
                  end = true) by (vm_compute; reflexivity).
  destruct (joinDht 10 3 0 (ask 0 (ask 0 fresh 1) 2)) as [[rounds s']|] eqn:Hrun;
    [|discriminate Hsome].
  apply (joinDht_keeps_lists_in_order
           10 3 0 (ask 0 (ask 0 fresh 1) 2) s' rounds 3 Hrun).
  rewrite Hnode. apply create_sound.
Defined.
End EveryNode.

(** * Who is touched, and how calls are counted *)

Section Calls.
Import DhtNode.

Lemma update_other r f (s : Store) x : x <> r -> update r f s x = s x.
Proof. intros Hx. unfold update. rewrite decide_False; [reflexivity | exact Hx]. Qed.

Lemma getClosestNodesTo_other this i caller s r :
  r <> this -> snd (getClosestNodesTo this i caller s) r = s r.
Proof.
  intros Hr. unfold getClosestNodesTo. cbn [snd].
  destruct (KBucket.get _ _); rewrite ?update_other by exact Hr; reflexivity.
Qed.

(** X3: [getClosestNodesTo] changes the node it is called on and no
    other; there it leaves the id and the counter of outgoing calls as
    they were. *)
Theorem getClosestNodesTo_touches_responder_only
        (this : NodeRef) (i : NodeId) (caller : NodeRef) (s : Store) :
  let s' := snd (getClosestNodesTo this i caller s) in
  (forall r, r <> this -> s' r = s r) /\
  ownId (s' this) = ownId (s this) /\
  getNumberOfOutgoingRpcCalls s' this = getNumberOfOutgoingRpcCalls s this.
Proof.
  intros s'. unfold s'. split; [|split].
  - intros r Hr. apply getClosestNodesTo_other. exact Hr.
  - rewrite getClosestNodesTo_node. destruct (KBucket.get _ _); reflexivity.
  - unfold getNumberOfOutgoingRpcCalls. rewrite getClosestNodesTo_node.
    destruct (KBucket.get _ _); reflexivity.
Qed.

Lemma getClosestNodesTo_touches_responder_only_witness :
  let s' := snd (getClosestNodesTo 0 [5%N] 5 crowded) in
  s' 1 = crowded 1 /\
  ownId (s' 0) = ownId (crowded 0) /\
  getNumberOfOutgoingRpcCalls s' 0 = getNumberOfOutgoingRpcCalls crowded 0.
Proof.
  destruct (getClosestNodesTo_touches_responder_only 0 [5%N] 5 crowded)
    as (Hframe & Hid & Hout).
  split; [apply Hframe; discriminate|]. split; assumption.
Defined.

(** A reading of a node that changes of the bucket and of the neighbor
    list leave alone. *)
Section Reading.
Variable g : t -> nat.
Hypothesis g_withBucket : forall f n, g (withBucket f n) = g n.
Hypothesis g_withNeighborList : forall f n, g (withNeighborList f n) = g n.

Lemma reading_learn this cs s x :
  g (fold_left
       (fun acc returnedContact =>
          match KBucket.get (Contact.id returnedContact) (bucket (acc this)) with
          | Some _ => acc
          | None => update this (withBucket (KBucket.add returnedContact)) acc
          end) cs s x) = g (s x).
Proof.
  revert s. induction cs as [|c cs IH]; intros s; simpl; [reflexivity|].
  rewrite IH. destruct (KBucket.get _ _); [reflexivity|].
  unfold update. destruct (decide (x = this)); [apply g_withBucket | reflexivity].
Qed.

Lemma reading_update_list r f s x :
  g (update r (withNeighborList f) s x) = g (s x).
Proof.
  unfold update. destruct (decide (x = r)); [apply g_withNeighborList | reflexivity].
Qed.

Lemma reading_update_bucket r f s x :
  g (update r (withBucket f) s x) = g (s x).
Proof.
  unfold update. destruct (decide (x = r)); [apply g_withBucket | reflexivity].
Qed.

Lemma reading_getClosestNodesTo this i caller s x :
  g (snd (getClosestNodesTo this i caller s) x)
  = g (update this countIncoming s x).
Proof.
  unfold getClosestNodesTo. cbn [snd].
  destruct (KBucket.get _ _); [reflexivity|].
  rewrite reading_update_list, reading_update_bucket. reflexivity.
Qed.

Lemma reading_probe_tail this shortlist s contact x :
  g (probe this shortlist s contact x)
  = g (update (Contact.dhtNode contact) countIncoming
         (update this countOutgoing
            (update shortlist
               (withNeighborList
                  (SortedContactList.setActive (Contact.id contact)))
               (update shortlist
                  (withNeighborList
                     (SortedContactList.setContacted (Contact.id contact)))
                  s))) x).
Proof.
  unfold probe.
  match goal with |- context [getClosestNodesTo ?a ?b ?c ?d] =>
    pose proof (reading_getClosestNodesTo a b c d x) as Hrpc;
    destruct (getClosestNodesTo a b c d) as [returnedContacts s4] end.
  cbn [snd] in Hrpc.
  rewrite reading_learn, reading_update_list, Hrpc. reflexivity.
Qed.
End Reading.

Lemma probe_incoming this shortlist s contact x :
  numberOfIncomingRpcCalls (probe this shortlist s contact x)
  = numberOfIncomingRpcCalls (s x) + callsTo x [contact].
Proof.
  rewrite (reading_probe_tail numberOfIncomingRpcCalls) by reflexivity.
  unfold callsTo, update. cbn [List.filter].
  destruct (decide (x = Contact.dhtNode contact)) as [->|Hne].
  - rewrite bool_decide_eq_true_2 by reflexivity.
    destruct (decide (Contact.dhtNode contact = this));
      destruct (decide (Contact.dhtNode contact = shortlist)); cbn; lia.
  - rewrite bool_decide_eq_false_2 by (intros E; apply Hne; symmetry; exact E).
    destruct (decide (x = this)); destruct (decide (x = shortlist)); cbn; lia.
Qed.

Lemma probe_outgoing this shortlist s contact x :
  numberOfOutgoingRpcCalls (probe this shortlist s contact x)
  = numberOfOutgoingRpcCalls (s x) + (if decide (x = this) then 1 else 0).
Proof.
  rewrite (reading_probe_tail numberOfOutgoingRpcCalls) by reflexivity.
  unfold update.
  destruct (decide (x = Contact.dhtNode contact));
    destruct (decide (x = this)); destruct (decide (x = shortlist)); cbn; lia.
Qed.

Lemma callsTo_app x cs1 cs2 : callsTo x (cs1 ++ cs2) = callsTo x cs1 + callsTo x cs2.
Proof. unfold callsTo. rewrite List.filter_app, length_app. reflexivity. Qed.

Lemma callsTo_cons x c cs : callsTo x (c :: cs) = callsTo x [c] + callsTo x cs.
Proof. apply (callsTo_app x [c] cs). Qed.

Lemma findMoreContacts_calls this contactList shortlist s x :
  let s' := findMoreContacts this contactList shortlist s in
  getNumberOfOutgoingRpcCalls s' x
  = getNumberOfOutgoingRpcCalls s x
    + (if decide (x = this) then length contactList else 0) /\
  getNumberOfIncomingRpcCalls s' x
  = getNumberOfIncomingRpcCalls s x + callsTo x contactList.
Proof.
  unfold getNumberOfOutgoingRpcCalls, getNumberOfIncomingRpcCalls, findMoreContacts.
  revert s. induction contactList as [|c cs IH]; intros s; cbn [fold_left].
  - cbn. destruct (decide (x = this)); split; lia.
  - destruct (IH (probe this shortlist s c)) as [Hout Hin].
    rewrite Hout, Hin, probe_outgoing, probe_incoming, (callsTo_cons x c cs).
    cbn [length]. destruct (decide (x = this)); split; lia.
Qed.

(** X4: [findMoreContacts] makes one call for each contact it is
    given: the caller's counter of outgoing calls goes up by the length
    of the list and nobody else's moves, and every node's counter of
    incoming calls goes up by the number of contacts that refer to
    it. *)
Theorem findMoreContacts_counts_calls
        (this : NodeRef) (contactList : list Contact.t)
        (shortlist : NodeRef) (s : Store) (x : NodeRef) :
  let s' := findMoreContacts this contactList shortlist s in
  getNumberOfOutgoingRpcCalls s' x
  = getNumberOfOutgoingRpcCalls s x
    + (if decide (x = this) then length contactList else 0) /\
  getNumberOfIncomingRpcCalls s' x
  = getNumberOfIncomingRpcCalls s x + callsTo x contactList.
Proof. apply findMoreContacts_calls. Qed.

Lemma widenedLoop_counts_calls fuel this x :
  forall contactList s rounds s',
    widenedLoop fuel this contactList s = Some (rounds, s') ->
    getNumberOfOutgoingRpcCalls s' x
    = getNumberOfOutgoingRpcCalls s x
      + (if decide (x = this) then length (probedContacts rounds) else 0) /\
    getNumberOfIncomingRpcCalls s' x
    = getNumberOfIncomingRpcCalls s x + callsTo x (probedContacts rounds).
Proof.
  induction fuel as [|fuel IH]; intros contactList s rounds s' Hrun; [discriminate|].
  cbn [widenedLoop] in Hrun.
  destruct (findMoreContacts_calls this contactList this s x) as [Hout Hin].
  cbv zeta in Hout, Hin.
  destruct (_ || _).
  - injection Hrun as <- <-. unfold probedContacts. cbn. rewrite app_nil_r.
    split; assumption.
  - destruct (widenedLoop fuel this _ _) as [[rs s'']|] eqn:Hrest; [|discriminate].
    injection Hrun as <- <-.
    destruct (IH _ _ _ _ Hrest) as [Hout' Hin'].
    unfold probedContacts in *. cbn [map concat probed].
    rewrite Hout', Hin', Hout, Hin, length_app, callsTo_app.
    destruct (decide (x = this)); split; lia.
Qed.

Lemma lookupLoop_counts_calls fuel this x :
  forall s rounds s',
    lookupLoop fuel this s = Some (rounds, s') ->
    getNumberOfOutgoingRpcCalls s' x
    = getNumberOfOutgoingRpcCalls s x
      + (if decide (x = this) then length (probedContacts rounds) else 0) /\
    getNumberOfIncomingRpcCalls s' x
    = getNumberOfIncomingRpcCalls s x + callsTo x (probedContacts rounds).
Proof.
  induction fuel as [|fuel IH]; intros s rounds s' Hrun; [discriminate|].
  rewrite lookupLoop_step in Hrun. cbv zeta in Hrun.
  destruct (findMoreContacts_calls this (uncontacted ALPHA s this) this s x)
    as [Hout Hin].
  cbv zeta in Hout, Hin.
  assert (Hstep : forall rs s'',
             (getNumberOfOutgoingRpcCalls s'' x
              = getNumberOfOutgoingRpcCalls
                  (findMoreContacts this (uncontacted ALPHA s this) this s) x
                + (if decide (x = this) then length (probedContacts rs) else 0) /\
              getNumberOfIncomingRpcCalls s'' x
              = getNumberOfIncomingRpcCalls
                  (findMoreContacts this (uncontacted ALPHA s this) this s) x
                + callsTo x (probedContacts rs)) ->
             let rounds' :=
               mkRound (uncontacted ALPHA s this) (s this)
                       (findMoreContacts this (uncontacted ALPHA s this) this s this)
               :: rs in
             getNumberOfOutgoingRpcCalls s'' x
             = getNumberOfOutgoingRpcCalls s x
               + (if decide (x = this) then length (probedContacts rounds') else 0) /\
             getNumberOfIncomingRpcCalls s'' x
             = getNumberOfIncomingRpcCalls s x + callsTo x (probedContacts rounds')).
  { intros rs s'' [Hout' Hin'] rounds'. unfold rounds', probedContacts in *.
    cbn [map concat probed].
    rewrite Hout', Hin', Hout, Hin, length_app, callsTo_app.
    destruct (decide (x = this)); split; lia. }
  destruct (sameClosest _ _).
  - destruct (widenedLoop fuel this _ _) as [[rs s'']|] eqn:Hrest; [|discriminate].
    injection Hrun as <- <-. apply Hstep.
    apply (widenedLoop_counts_calls _ _ _ _ _ _ _ Hrest).
  - destruct (lookupLoop fuel this _) as [[rs s'']|] eqn:Hrest; [|discriminate].
    injection Hrun as <- <-. apply Hstep. apply (IH _ _ _ Hrest).
Qed.
(** X5: over a completed [joinDht], the joiner's counter of outgoing
    calls goes up by the number of contacts probed in all rounds, no
    other node's counter of outgoing calls moves, and every node's
    counter of incoming calls goes up by the number of probed contacts
    that refer to it: each outgoing call is one incoming call. *)
Theorem joinDht_counts_calls
        (fuel : nat) (this entryPoint : NodeRef) (s s' : Store)
        (rounds : list Round) (x : NodeRef) :
  joinDht fuel this entryPoint s = Some (rounds, s') ->
  getNumberOfOutgoingRpcCalls s' x
  = getNumberOfOutgoingRpcCalls s x
    + (if decide (x = this) then length (probedContacts rounds) else 0) /\
  getNumberOfIncomingRpcCalls s' x
  = getNumberOfIncomingRpcCalls s x + callsTo x (probedContacts rounds).
Proof.
  unfold joinDht. destruct (sameId _ _).
  - intros [= <- <-]. cbn. destruct (decide (x = this)); split; lia.
  - intros Hrun.
    destruct (lookupLoop_counts_calls _ _ x _ _ _ Hrun) as [Hout Hin].
    rewrite Hout, Hin.
    unfold getNumberOfOutgoingRpcCalls, getNumberOfIncomingRpcCalls.
    rewrite !(reading_update_list numberOfOutgoingRpcCalls) by reflexivity.
    rewrite !(reading_update_list numberOfIncomingRpcCalls) by reflexivity.
    rewrite !(reading_update_bucket numberOfOutgoingRpcCalls) by reflexivity.
    rewrite !(reading_update_bucket numberOfIncomingRpcCalls) by reflexivity.
    split; reflexivity.
Qed.

Lemma joinDht_counts_calls_witness :
  match joinDht 10 3 0 (ask 0 (ask 0 fresh 1) 2) with
  | Some (rounds, s') =>
      getNumberOfOutgoingRpcCalls s' 3
      = getNumberOfOutgoingRpcCalls (ask 0 (ask 0 fresh 1) 2) 3
        + (if decide (3 = 3) then length (probedContacts rounds) else 0) /\
      getNumberOfIncomingRpcCalls s' 3
      = getNumberOfIncomingRpcCalls (ask 0 (ask 0 fresh 1) 2) 3
        + callsTo 3 (probedContacts rounds)
  | None => False
  end.
Proof.
  assert (Hsome : match joinDht 10 3 0 (ask 0 (ask 0 fresh 1) 2) with
                  | Some _ => true
                  | None => false
                  end = true) by (vm_compute; reflexivity).
  destruct (joinDht 10 3 0 (ask 0 (ask 0 fresh 1) 2)) as [[rounds s']|] eqn:Hrun;
    [|discriminate Hsome].
  apply (joinDht_counts_calls 10 3 0 (ask 0 (ask 0 fresh 1) 2) s' rounds 3 Hrun).
Defined.

Lemma callsTo_none x cs :
  callsTo x cs = 0 -> Forall (fun c => Contact.dhtNode c <> x) cs.
Proof.
  unfold callsTo. induction cs as [|c cs IH]; cbn [List.filter]; [constructor|].
  destruct (bool_decide_reflect (Contact.dhtNode c = x)) as [|Hne]; cbn [length];
    [discriminate|].
  intros H. constructor; [exact Hne | apply IH, H].
Qed.

Lemma learn_other this cs (s : Store) x :
  x <> this ->
  fold_left
    (fun acc returnedContact =>
       match KBucket.get (Contact.id returnedContact) (bucket (acc this)) with
       | Some _ => acc
       | None => update this (withBucket (KBucket.add returnedContact)) acc
       end) cs s x = s x.
Proof.
  intros Hx. revert s. induction cs as [|c cs IH]; intros s; simpl; [reflexivity|].
  rewrite IH. destruct (KBucket.get _ _); [reflexivity|]. apply update_other, Hx.
Qed.

Lemma probe_other this shortlist s contact x :
  x <> this -> x <> shortlist -> x <> Contact.dhtNode contact ->
  probe this shortlist s contact x = s x.
Proof.
  intros Hthis Hlist Hcalled. unfold probe.
  match goal with |- context [getClosestNodesTo ?a ?b ?c ?d] =>
    pose proof (getClosestNodesTo_other a b c d x) as Hframe;
    destruct (getClosestNodesTo a b c d) as [returnedContacts s4] end.
  cbn [snd] in Hframe.
  rewrite learn_other by exact Hthis.
  rewrite update_other by exact Hlist. rewrite Hframe by exact Hcalled.
  rewrite update_other by exact Hthis.
  rewrite !update_other by exact Hlist. reflexivity.
Qed.

Lemma findMoreContacts_other this contactList shortlist s x :
  x <> this -> x <> shortlist -> callsTo x contactList = 0 ->
  findMoreContacts this contactList shortlist s x = s x.
Proof.
  intros Hthis Hlist Hnone. apply callsTo_none in Hnone.
  unfold findMoreContacts. revert s.
  induction Hnone as [|c cs Hc Hcs IH]; intros s; cbn [fold_left]; [reflexivity|].
  rewrite IH. apply probe_other; [assumption..|].
  intros E. apply Hc. symmetry. exact E.
Qed.

(** X6: [findMoreContacts] leaves alone every node that is not the
    caller, does not hold the shortlist and is not referred to by a
    contact of the list. *)
Theorem findMoreContacts_touches_called_only
        (this : NodeRef) (contactList : list Contact.t)
        (shortlist : NodeRef) (s : Store) (x : NodeRef) :
  x <> this -> x <> shortlist -> callsTo x contactList = 0 ->
  findMoreContacts this contactList shortlist s x = s x.
Proof. apply findMoreContacts_other. Qed.

Lemma findMoreContacts_touches_called_only_witness :
  findMoreContacts 3 [Contact.mk [0%N] 0; Contact.mk [1%N] 1] 3 crowded 2
  = crowded 2.
Proof.
  apply (findMoreContacts_touches_called_only
           3 [Contact.mk [0%N] 0; Contact.mk [1%N] 1] 3 crowded 2).
  - discriminate.
  - discriminate.
  - reflexivity.
Defined.

Lemma widenedLoop_other fuel this x :
  forall contactList s rounds s',
    widenedLoop fuel this contactList s = Some (rounds, s') ->
    x <> this -> callsTo x (probedContacts rounds) = 0 -> s' x = s x.
Proof.
  induction fuel as [|fuel IH]; intros contactList s rounds s' Hrun Hthis Hnone;
    [discriminate|].
  cbn [widenedLoop] in Hrun.
  destruct (_ || _).
  - injection Hrun as <- <-. unfold probedContacts in Hnone. cbn in Hnone.
    rewrite app_nil_r in Hnone.
    apply findMoreContacts_other; assumption.
  - destruct (widenedLoop fuel this _ _) as [[rs s'']|] eqn:Hrest; [|discriminate].
    injection Hrun as <- <-.
    unfold probedContacts in Hnone. cbn [map concat probed] in Hnone.
    rewrite callsTo_app in Hnone.
    rewrite (IH _ _ _ _ Hrest Hthis) by (unfold probedContacts; lia).
    apply findMoreContacts_other; [assumption..|lia].
Qed.

Lemma lookupLoop_other fuel this x :
  forall s rounds s',
    lookupLoop fuel this s = Some (rounds, s') ->
    x <> this -> callsTo x (probedContacts rounds) = 0 -> s' x = s x.
Proof.
  induction fuel as [|fuel IH]; intros s rounds s' Hrun Hthis Hnone; [discriminate|].
  rewrite lookupLoop_step in Hrun. cbv zeta in Hrun.
  destruct (sameClosest _ _).
  - destruct (widenedLoop fuel this _ _) as [[rs s'']|] eqn:Hrest; [|discriminate].
    injection Hrun as <- <-.
    unfold probedContacts in Hnone. cbn [map concat probed] in Hnone.
    rewrite callsTo_app in Hnone.
    rewrite (widenedLoop_other _ _ _ _ _ _ _ Hrest Hthis)
      by (unfold probedContacts; lia).
    apply findMoreContacts_other; [assumption..|lia].
  - destruct (lookupLoop fuel this _) as [[rs s'']|] eqn:Hrest; [|discriminate].
    injection Hrun as <- <-.
    unfold probedContacts in Hnone. cbn [map concat probed] in Hnone.
    rewrite callsTo_app in Hnone.
    rewrite (IH _ _ _ Hrest Hthis) by (unfold probedContacts; lia).
    apply findMoreContacts_other; [assumption..|lia].
Qed.

(** X7: a completed [joinDht] leaves alone every node other than the
    joiner that no probed contact refers to: the entry point itself is
    touched only if it is called. *)
Theorem joinDht_touches_called_only
        (fuel : nat) (this entryPoint : NodeRef) (s s' : Store)
        (rounds : list Round) (x : NodeRef) :
  joinDht fuel this entryPoint s = Some (rounds, s') ->
  x <> this -> callsTo x (probedContacts rounds) = 0 ->
  s' x = s x.
Proof.
  unfold joinDht. destruct (sameId _ _).
  - intros [= _ <-] _ _. reflexivity.
  - intros Hrun Hthis Hnone.
    rewrite (lookupLoop_other _ _ _ _ _ _ Hrun Hthis Hnone).
    rewrite !update_other by exact Hthis. reflexivity.
Qed.

Lemma joinDht_touches_called_only_witness :
  match joinDht 10 3 0 (ask 0 (ask 0 fresh 1) 2) with
  | Some (rounds, s') => s' 7 = ask 0 (ask 0 fresh 1) 2 7
  | None => False
  end.
Proof.
  assert (Hsome : match joinDht 10 3 0 (ask 0 (ask 0 fresh 1) 2) with
                  | Some (rounds, _) =>
                      bool_decide (callsTo 7 (probedContacts rounds) = 0)
                  | None => false
                  end = true) by (vm_compute; reflexivity).
  destruct (joinDht 10 3 0 (ask 0 (ask 0 fresh 1) 2)) as [[rounds s']|] eqn:Hrun;
    [|discriminate Hsome].
  apply (joinDht_touches_called_only 10 3 0 (ask 0 (ask 0 fresh 1) 2) s' rounds 7 Hrun).
  - discriminate.
  - apply bool_decide_eq_true in Hsome. exact Hsome.
Defined.
End Calls.

(** * The routing tree only grows *)

Section BucketGrows.
Import KBucket.

Lemma leaf_get cs dontSplit j bitIndex :
  is_Some (getAt (Leaf cs dontSplit) j bitIndex)
  <-> exists x, x ∈ cs /\ Contact.id x = j.
Proof.
  simpl. split.
  - intros [c Hc]. destruct (indexOf cs j) as [index|] eqn:E; [|discriminate].
    destruct (indexOf_Some _ _ _ E) as (c' & Hc' & Hid).
    exists c'. split; [eapply list_elem_of_lookup_2; exact Hc' | exact Hid].
  - intros (x & Hx & Hid). destruct (indexOf cs j) as [index|] eqn:E.
    + destruct (indexOf_Some _ _ _ E) as (c' & Hc' & _). rewrite Hc'. eexists; reflexivity.
    + exfalso. exact (proj1 (indexOf_None _ _) E x Hx Hid).
Qed.

Lemma elem_of_delete_or (cs : list Contact.t) index x c' :
  cs !! index = Some c' -> x ∈ cs -> x = c' \/ x ∈ delete index cs.
Proof.
  intros Hc' Hx. apply list_elem_of_lookup in Hx as [k Hk].
  destruct (decide (k = index)) as [->|Hne]; [left; congruence|]. right.
  destruct (decide (k < index)) as [Hlt|Hge].
  - apply (list_elem_of_lookup_2 _ k). rewrite list_lookup_delete_lt by exact Hlt. exact Hk.
  - destruct k as [|k]; [lia|].
    apply (list_elem_of_lookup_2 _ k). rewrite list_lookup_delete_ge by lia. exact Hk.
Qed.

Lemma elem_of_filter_side (p : Contact.t -> bool) cs x b :
  x ∈ cs -> p x = b -> x ∈ List.filter (fun y => bool_decide (p y = b)) cs.
Proof.
  intros Hx Hp. apply list_elem_of_In. apply filter_In. split.
  - apply list_elem_of_In. exact Hx.
  - apply bool_decide_eq_true. exact Hp.
Qed.

Lemma elem_of_filter_true (p : Contact.t -> bool) cs x :
  x ∈ cs -> p x = true -> x ∈ List.filter p cs.
Proof.
  intros Hx Hp. apply list_elem_of_In. apply filter_In. split; [|exact Hp].
  apply list_elem_of_In. exact Hx.
Qed.

(** What a leaf stores under an id, it or its successors store after
    [add]. *)
Lemma leafAdd_keeps_id fuel k own c j :
  forall cs dontSplit bitIndex,
    (exists x, x ∈ cs /\ Contact.id x = j) ->
    is_Some (getAt (leafAdd fuel k own cs dontSplit bitIndex c) j bitIndex).
Proof.
  induction fuel as [|fuel IH]; intros cs dontSplit bitIndex (x & Hx & Hid).
  - simpl. destruct (indexOf cs (Contact.id c)) as [index|] eqn:E.
    + destruct (indexOf_Some _ _ _ E) as (c' & Hc' & Hid').
      apply leaf_get. destruct (elem_of_delete_or _ _ _ _ Hc' Hx) as [->|Hin].
      * exists c. split; [apply elem_of_app; right; left | congruence].
      * exists x. split; [apply elem_of_app; left; exact Hin | exact Hid].
    + destruct (length cs <? k).
      * apply leaf_get. exists x. split; [apply elem_of_app; left; exact Hx | exact Hid].
      * destruct dontSplit; apply leaf_get; exists x; split; assumption.
  - cbn [leafAdd]. destruct (indexOf cs (Contact.id c)) as [index|] eqn:E.
    + destruct (indexOf_Some _ _ _ E) as (c' & Hc' & Hid').
      apply leaf_get. destruct (elem_of_delete_or _ _ _ _ Hc' Hx) as [->|Hin].
      * exists c. split; [apply elem_of_app; right; left | congruence].
      * exists x. split; [apply elem_of_app; left; exact Hin | exact Hid].
    + destruct (length cs <? k).
      * apply leaf_get. exists x. split; [apply elem_of_app; left; exact Hx | exact Hid].
      * destruct dontSplit; [apply leaf_get; exists x; split; assumption|].
        cbv zeta.
        destruct (goesRight (Contact.id c) bitIndex);
          rewrite getAt_inner; destruct (goesRight j bitIndex) eqn:Hside.
        -- apply IH. exists x. split; [|exact Hid].
           apply elem_of_filter_true; [exact Hx | rewrite Hid; exact Hside].
        -- apply leaf_get. exists x. split; [|exact Hid].
           apply elem_of_filter_true; [exact Hx | rewrite Hid, Hside; reflexivity].
        -- apply leaf_get. exists x. split; [|exact Hid].
           apply elem_of_filter_true; [exact Hx | rewrite Hid; exact Hside].
        -- apply IH. exists x. split; [|exact Hid].
           apply elem_of_filter_true; [exact Hx | rewrite Hid, Hside; reflexivity].
Qed.

Lemma addAt_keeps_id fuel k own c j n :
  forall bitIndex,
    is_Some (getAt n j bitIndex) ->
    is_Some (getAt (addAt fuel k own n bitIndex c) j bitIndex).
Proof.
  induction n as [cs ds|l IHl r IHr]; intros bitIndex Hj.
  - cbn [addAt]. apply leafAdd_keeps_id. apply leaf_get in Hj. exact Hj.
  - cbn [addAt]. cbn [getAt] in Hj.
    destruct (goesRight (Contact.id c) bitIndex); rewrite getAt_inner;
      destruct (goesRight j bitIndex); auto.
Qed.

Lemma add_keeps_id c j b : is_Some (get j b) -> is_Some (get j (add c b)).
Proof. apply addAt_keeps_id. Qed.

(** [add] stores one contact more, or as many as before. *)
Lemma leafAdd_count fuel k own c :
  forall cs dontSplit bitIndex,
    let n' := leafAdd fuel k own cs dontSplit bitIndex c in
    length cs <= length (contactsOf n') <= S (length cs).
Proof.
  assert (Hreplace : forall (cs : list Contact.t) index c',
             cs !! index = Some c' ->
             length (delete index cs ++ [c]) = length cs).
  { intros cs index c' Hc'. rewrite length_app. cbn [length].
    apply lookup_lt_Some in Hc'. rewrite length_delete by (apply lookup_lt_is_Some_2, Hc').
    lia. }
  induction fuel as [|fuel IH]; intros cs dontSplit bitIndex; cbn [leafAdd].
  - destruct (indexOf cs (Contact.id c)) as [index|] eqn:E.
    + destruct (indexOf_Some _ _ _ E) as (c' & Hc' & _).
      cbn [contactsOf]. rewrite (Hreplace _ _ _ Hc'). lia.
    + destruct (length cs <? k); [cbn [contactsOf]; rewrite length_app; cbn; lia|].
      destruct dontSplit; cbn [contactsOf]; lia.
  - destruct (indexOf cs (Contact.id c)) as [index|] eqn:E.
    + destruct (indexOf_Some _ _ _ E) as (c' & Hc' & _).
      cbn [contactsOf]. rewrite (Hreplace _ _ _ Hc'). lia.
    + destruct (length cs <? k); [cbn [contactsOf]; rewrite length_app; cbn; lia|].
      destruct dontSplit; [cbn [contactsOf]; lia|]. cbv zeta.
      pose proof (Permutation_length
                    (split_perm (fun x => goesRight (Contact.id x) bitIndex) cs)) as Hlen.
      rewrite length_app in Hlen.
      destruct (goesRight (Contact.id c) bitIndex); cbn [contactsOf];
        rewrite length_app.
      * specialize (IH (List.filter (fun x => goesRight (Contact.id x) bitIndex) cs)
                       (negb (goesRight own bitIndex)) (S bitIndex)).
        cbv zeta in IH. cbn [contactsOf]. lia.
      * specialize (IH (List.filter (fun x => negb (goesRight (Contact.id x) bitIndex)) cs)
                       (goesRight own bitIndex) (S bitIndex)).
        cbv zeta in IH. cbn [contactsOf]. lia.
Qed.

Lemma addAt_count fuel k own c n :
  forall bitIndex,
    let n' := addAt fuel k own n bitIndex c in
    length (contactsOf n) <= length (contactsOf n') <= S (length (contactsOf n)).
Proof.
  induction n as [cs ds|l IHl r IHr]; intros bitIndex; cbn [addAt].
  - apply leafAdd_count.
  - destruct (goesRight (Contact.id c) bitIndex); cbn [contactsOf];
      rewrite !length_app.
    + specialize (IHr (S bitIndex)). cbv zeta in IHr. lia.
    + specialize (IHl (S bitIndex)). cbv zeta in IHl. lia.
Qed.

Lemma add_count c b : count b <= count (add c b) <= S (count b).
Proof. apply addAt_count. Qed.
End BucketGrows.

Section TablesGrow.
Import DhtNode.

(** X8: an id that a node's bucket holds a contact for is still held
    there after a completed [joinDht], whichever node it is: the
    joiner, a node that was called, or any other. *)
Theorem joinDht_never_forgets_an_id
        (fuel : nat) (this entryPoint : NodeRef) (s s' : Store)
        (rounds : list Round) (r : NodeRef) (j : NodeId) :
  joinDht fuel this entryPoint s = Some (rounds, s') ->
  knowsId j (s r) -> knowsId j (s' r).
Proof.
  intros Hrun.
  apply (joinDht_holds (knowsId j)
           ltac:(intros n Hn; exact Hn)
           ltac:(intros n Hn; exact Hn)
           ltac:(intros c n Hn; apply add_keeps_id; exact Hn)
           ltac:(intros c n Hn; exact Hn)
           ltac:(intros i n Hn; exact Hn)
           fuel this entryPoint s rounds s' r Hrun).
Qed.

Lemma joinDht_never_forgets_an_id_witness :
  match joinDht 10 3 0 (ask 0 (ask 0 fresh 1) 2) with
  | Some (rounds, s') => knowsId [1%N] (s' 0)
  | None => False
  end.
Proof.
  assert (Hsome : match joinDht 10 3 0 (ask 0 (ask 0 fresh 1) 2) with
                  | Some _ => true
                  | None => false
                  end = true) by (vm_compute; reflexivity).
  assert (Hknown : KBucket.get [1%N] (bucket (ask 0 (ask 0 fresh 1) 2 0))
                   = Some (Contact.mk [1%N] 1))
    by (vm_compute; reflexivity).
  destruct (joinDht 10 3 0 (ask 0 (ask 0 fresh 1) 2)) as [[rounds s']|] eqn:Hrun;
    [|discriminate Hsome].
  apply (joinDht_never_forgets_an_id
           10 3 0 (ask 0 (ask 0 fresh 1) 2) s' rounds 0 [1%N] Hrun).
  unfold knowsId. rewrite Hknown. eexists. reflexivity.
Defined.

(** X9: [getClosestNodesTo] leaves the responder's bucket with as many
    contacts as it had or with one more, and with as many when the id
    asked for was in the bucket. *)
Theorem getClosestNodesTo_grows_bucket_by_one_at_most
        (this : NodeRef) (i : NodeId) (caller : NodeRef) (s : Store) :
  let s' := snd (getClosestNodesTo this i caller s) in
  getKBucketSize s this <= getKBucketSize s' this <= S (getKBucketSize s this) /\
  (knowsId i (s this) -> getKBucketSize s' this = getKBucketSize s this).
Proof.
  intros s'. unfold s', getKBucketSize, knowsId.
  rewrite getClosestNodesTo_node.
  destruct (KBucket.get i (bucket (s this))) as [c|] eqn:E.
  - cbn [countIncoming bucket]. split; [lia | reflexivity].
  - cbn [withNeighborList withBucket countIncoming bucket]. split.
    + apply add_count.
    + intros [c Hc]. discriminate Hc.
Qed.

Lemma getClosestNodesTo_grows_bucket_by_one_at_most_witness :
  let s' := snd (getClosestNodesTo 0 [1%N] 5 crowded) in
  getKBucketSize crowded 0 <= getKBucketSize s' 0 <= S (getKBucketSize crowded 0) /\
  getKBucketSize s' 0 = getKBucketSize crowded 0.
Proof.
  assert (Hknown : KBucket.get [1%N] (bucket (crowded 0)) = Some (Contact.mk [1%N] 1))
    by (vm_compute; reflexivity).
  destruct (getClosestNodesTo_grows_bucket_by_one_at_most 0 [1%N] 5 crowded)
    as [Hbounds Hsame].
  split; [exact Hbounds|]. apply Hsame.
  unfold knowsId. rewrite Hknown. eexists. reflexivity.
Defined.

(** X10: no node's bucket holds fewer contacts after a completed
    [joinDht] than before it. *)
Theorem joinDht_never_shrinks_a_bucket
        (fuel : nat) (this entryPoint : NodeRef) (s s' : Store)
        (rounds : list Round) (r : NodeRef) :
  joinDht fuel this entryPoint s = Some (rounds, s') ->
  getKBucketSize s r <= getKBucketSize s' r.
Proof.
  intros Hrun. unfold getKBucketSize.
  apply (joinDht_holds (fun n => KBucket.count (bucket (s r)) <= KBucket.count (bucket n))
           ltac:(intros n Hn; exact Hn)
           ltac:(intros n Hn; exact Hn)
           ltac:(intros c n Hn; cbv beta in *; cbn [withBucket bucket];
                 pose proof (add_count c (bucket n)); lia)
           ltac:(intros c n Hn; exact Hn)
           ltac:(intros i n Hn; exact Hn)
           fuel this entryPoint s rounds s' r Hrun).
  lia.
Qed.

Lemma joinDht_never_shrinks_a_bucket_witness :
  match joinDht 10 3 0 (ask 0 (ask 0 fresh 1) 2) with
  | Some (rounds, s') =>
      getKBucketSize (ask 0 (ask 0 fresh 1) 2) 0 <= getKBucketSize s' 0
  | None => False
  end.
Proof.
  assert (Hsome : match joinDht 10 3 0 (ask 0 (ask 0 fresh 1) 2) with
                  | Some _ => true
                  | None => false
                  end = true) by (vm_compute; reflexivity).
  destruct (joinDht 10 3 0 (ask 0 (ask 0 fresh 1) 2)) as [[rounds s']|] eqn:Hrun;
    [|discriminate Hsome].
  apply (joinDht_never_shrinks_a_bucket
           10 3 0 (ask 0 (ask 0 fresh 1) 2) s' rounds 0 Hrun).
Defined.
End TablesGrow.

(** * Ids that have been dealt with *)

Section Reach.
Import SortedContactList.
Variable own : NodeId.

Let le (a b : Entry) : Prop := (entryDistance own a <= entryDistance own b)%N.

Lemma sorted_before_last rl z :
  Sorted le (rl ++ [z]) -> Forall (fun x => le x z) rl.
Proof.
  induction rl as [|a rl IH]; simpl; intros Hs; [constructor|].
  constructor.
  - apply Sorted_extends in Hs; [|intros x y w Hxy Hyw; unfold le in *; lia].
    rewrite Forall_forall in Hs. apply Hs. apply elem_of_app. right. left.
  - apply IH. inversion Hs; assumption.
Qed.

Lemma insertSorted_at_end e es :
  Forall (fun x => le x e) es -> insertSorted own e es = es ++ [e].
Proof.
  induction 1 as [|x xs Hx Hxs IH]; simpl; [reflexivity|].
  destruct (N.ltb_spec (entryDistance own e) (entryDistance own x)) as [Hlt|_].
  - unfold le in Hx. lia.
  - rewrite IH. reflexivity.
Qed.

Lemma same_id_same_entry (es : list Entry) x y :
  NoDup (map entryId es) -> x ∈ es -> y ∈ es -> entryId x = entryId y -> x = y.
Proof.
  induction es as [|a es IH]; simpl; intros Hnd Hx Hy Hid; [inversion Hx|].
  apply NoDup_cons in Hnd as [Ha Hnd].
  apply elem_of_cons in Hx as [->|Hx]; apply elem_of_cons in Hy as [->|Hy].
  - reflexivity.
  - exfalso. apply Ha. rewrite Hid. apply (list_elem_of_fmap_2 entryId). exact Hy.
  - exfalso. apply Ha. rewrite <- Hid. apply (list_elem_of_fmap_2 entryId). exact Hx.
  - apply IH; assumption.
Qed.

Lemma removelast_split (es : list Entry) :
  es <> [] -> exists z, es = removelast es ++ [z].
Proof.
  induction es as [|x xs IH]; [congruence|]. intros _.
  destruct xs as [|y ys]; [exists x; reflexivity|].
  destruct IH as [z Hz]; [discriminate|]. exists z.
  rewrite removelast_cons by discriminate.
  change (x :: y :: ys = x :: (removelast (y :: ys) ++ [z])).
  f_equal. exact Hz.
Qed.

Lemma outOfReach_perm i (l l' : t) :
  ownId l' = ownId l -> entries l' ≡ₚ entries l ->
  outOfReach i l -> outOfReach i l'.
Proof.
  intros Hown Hperm (Habs & Hlen & Hfar). unfold outOfReach. rewrite Hown.
  split; [|split].
  - apply hasId_false. apply hasId_false in Habs.
    rewrite Hperm. exact Habs.
  - rewrite Hperm. exact Hlen.
  - rewrite Hperm. exact Hfar.
Qed.

(** [addContact] keeps an id held or out of reach: the entry that leaves
    a full list is the farthest one. *)
Lemma addContact_heldOrOut q i c l :
  wellFormed own l -> heldOrOut q i l -> heldOrOut q i (addContact c l).
Proof.
  intros (Hown & Hlen & Hsorted & Hnodup) Hi. unfold addContact.
  destruct (hasId (Contact.id c) (entries l)) eqn:Hnew; [exact Hi|].
  set (e := mkEntry c false false).
  assert (Hperm : insertSorted own e (entries l) ≡ₚ e :: entries l)
    by apply insertSorted_perm.
  assert (Hlen' : length (insertSorted own e (entries l)) = S (length (entries l)))
    by apply insertSorted_length.
  assert (Hsorted' : Sorted le (insertSorted own e (entries l)))
    by (apply insertSorted_sorted; exact Hsorted).
  assert (Hnodup' : NoDup (map entryId (insertSorted own e (entries l)))).
  { rewrite insertSorted_ids. apply NoDup_cons_2; [|exact Hnodup].
    apply hasId_false. exact Hnew. }
  assert (Hfresh : e ∉ entries l).
  { intros He. apply hasId_of_elem in He. unfold e, entryId in He.
    cbn [contact] in He. unfold entryId in Hnew. congruence. }
  unfold heldOrOut, outOfReach. cbn [entries ownId]. rewrite Hown.
  unfold evictFarthest. destruct (Nat.ltb_spec K (length (insertSorted own e (entries l))))
    as [Hover|Hroom].
  - destruct (removelast_split (insertSorted own e (entries l))) as [z Hz];
      [apply insertSorted_nonempty|].
    set (rl := removelast (insertSorted own e (entries l))) in *.
    assert (Hrl : length rl = length (entries l)).
    { apply (f_equal length) in Hz. rewrite length_app in Hz. cbn in Hz. lia. }
    assert (Hbefore : Forall (fun x => le x z) rl).
    { apply sorted_before_last. rewrite <- Hz. exact Hsorted'. }
    assert (Hzout : entryId z ∉ map entryId rl).
    { rewrite Hz, map_app in Hnodup'. apply NoDup_app in Hnodup' as (_ & Hdis & _).
      intros Hin. apply (Hdis _ Hin). left. }
    destruct Hi as [(y & Hy & Hid & Hq)|(Habs & Hfull & Hfar)].
    + assert (Hy' : y ∈ rl ++ [z]).
      { rewrite <- Hz, Hperm. right. exact Hy. }
      apply elem_of_app in Hy' as [Hy'|Hy'].
      * left. exists y. split; [exact Hy'|]. split; assumption.
      * apply list_elem_of_singleton in Hy'. subst y. right. split; [|split].
        -- apply hasId_false. rewrite <- Hid. exact Hzout.
        -- lia.
        -- eapply Forall_impl; [exact Hbefore|]. intros x Hx. cbv beta.
           unfold le in Hx. unfold entryDistance at 2 in Hx. rewrite Hid in Hx.
           exact Hx.
    + right. rewrite Hown in Hfar.
      destruct (decide (Contact.id c = i)) as [Hci|Hci].
      * assert (Hend : insertSorted own e (entries l) = entries l ++ [e]).
        { apply insertSorted_at_end. eapply Forall_impl; [exact Hfar|].
          intros x Hx. cbv beta in Hx. unfold le. unfold entryDistance at 2.
          unfold e, entryId. cbn [contact]. rewrite Hci. exact Hx. }
        unfold rl. rewrite Hend, removelast_last.
        split; [exact Habs|]. split; assumption.
      * split; [|split].
        -- apply hasId_false. intros Hin. apply hasId_false in Habs.
           assert (Hin' : i ∈ map entryId (insertSorted own e (entries l))).
           { rewrite Hz, map_app. apply elem_of_app. left. exact Hin. }
           rewrite insertSorted_ids in Hin'.
           apply elem_of_cons in Hin' as [Hie|Hin']; [|exact (Habs Hin')].
           apply Hci. symmetry. exact Hie.
        -- lia.
        -- apply Forall_forall. intros x Hx.
           assert (Hxz : le x z) by (rewrite Forall_forall in Hbefore; apply Hbefore, Hx).
           assert (Hold : forall w, w ∈ insertSorted own e (entries l) ->
                                    w = e \/ w ∈ entries l).
           { intros w Hw. rewrite Hperm in Hw. apply elem_of_cons in Hw. exact Hw. }
           rewrite Forall_forall in Hfar.
           destruct (Hold x) as [->|Hxold];
             [rewrite Hz; apply elem_of_app; left; exact Hx | | apply Hfar, Hxold].
           destruct (Hold z) as [->|Hzold];
             [rewrite Hz; apply elem_of_app; right; left | |].
           ++ exfalso. apply Hzout. apply (list_elem_of_fmap_2 entryId). exact Hx.
           ++ specialize (Hfar z Hzold). cbv beta in Hfar. unfold le in Hxz. lia.
  - destruct Hi as [(y & Hy & Hid & Hq)|(Habs & Hfull & Hfar)]; [|lia].
    left. exists y. split; [|split; assumption].
    rewrite Hperm. right. exact Hy.
Qed.

(** Marking keeps an id held or out of reach, when marked entries still
    pass the test. *)
Lemma mark_heldOrOut q (f : Entry -> Entry) i l :
  (forall e, entryId (f e) = entryId e) ->
  (forall e, q e = true -> q (f e) = true) ->
  heldOrOut q i l -> heldOrOut q i (mk (ownId l) (map f (entries l))).
Proof.
  intros Hf Hq [(y & Hy & Hid & Hqy)|(Habs & Hfull & Hfar)].
  - left. exists (f y). cbn [entries]. split; [|split].
    + apply (list_elem_of_fmap_2 f). exact Hy.
    + rewrite Hf. exact Hid.
    + apply Hq, Hqy.
  - right. unfold outOfReach. cbn [entries ownId]. split; [|split].
    + apply hasId_false. apply hasId_false in Habs.
      rewrite map_map, (map_ext _ entryId) by exact Hf. exact Habs.
    + rewrite length_map. exact Hfull.
    + apply Forall_map. eapply Forall_impl; [exact Hfar|].
      intros e He. cbv beta in *. unfold entryDistance in *. rewrite Hf. exact He.
Qed.

Lemma setContacted_heldOrOut q j i l :
  (forall e, q e = true -> q (mkEntry (contact e) true (active e)) = true) ->
  heldOrOut q i l -> heldOrOut q i (setContacted j l).
Proof.
  intros Hq. apply mark_heldOrOut.
  - intros e. destruct (sameId (entryId e) j); reflexivity.
  - intros e He. destruct (sameId (entryId e) j); [apply Hq|]; exact He.
Qed.

Lemma setActive_heldOrOut q j i l :
  (forall e, q e = true -> q (mkEntry (contact e) (contacted e) true) = true) ->
  heldOrOut q i l -> heldOrOut q i (setActive j l).
Proof.
  intros Hq. apply mark_heldOrOut.
  - intros e. destruct (sameId (entryId e) j); reflexivity.
  - intros e He. destruct (sameId (entryId e) j); [apply Hq|]; exact He.
Qed.

(** Marking a listed id leaves it asked. *)
Lemma mark_asks i l :
  listed i l -> asked i (setActive i (setContacted i l)).
Proof.
  intros [(y & Hy & Hid & _)|Hout].
  - left. cbn [setActive setContacted entries]. rewrite map_map.
    eexists. split; [apply (list_elem_of_fmap_2 _ _ y); exact Hy|].
    cbv beta. unfold sameId.
    rewrite (bool_decide_eq_true_2 (entryId y = i)) by exact Hid.
    unfold entryId at 1. cbn [contact]. fold (entryId y).
    rewrite (bool_decide_eq_true_2 (entryId y = i)) by exact Hid.
    split; [exact Hid | reflexivity].
  - apply setActive_heldOrOut; [intros e He; exact He|].
    apply setContacted_heldOrOut; [reflexivity|]. right. exact Hout.
Qed.

(** An asked id brings no contact into the list of the uncontacted. *)
Lemma asked_not_uncontacted i l e :
  NoDup (map entryId (entries l)) ->
  asked i l -> e ∈ entries l -> entryId e = i -> contacted e = true.
Proof.
  intros Hnodup [(y & Hy & Hid & Hq)|(Habs & _)] He Hi.
  - rewrite (same_id_same_entry _ e y Hnodup He Hy); [exact Hq | congruence].
  - apply hasId_of_elem in He. congruence.
Qed.
End Reach.

(** * What a round leaves asked *)

Section AfterMarking.
Import DhtNode.

(** As [probe_keeps], from the store in which the contact is marked. *)
Variable P : t -> Prop.
Hypothesis P_countIncoming : forall n, P n -> P (countIncoming n).
Hypothesis P_countOutgoing : forall n, P n -> P (countOutgoing n).
Hypothesis P_withBucket : forall f n, P n -> P (withBucket f n).
Hypothesis P_addContact :
  forall c n, P n -> P (withNeighborList (SortedContactList.addContact c) n).

Lemma probe_after_marking this shortlist s contact x :
  P (update shortlist
       (withNeighborList (SortedContactList.setActive (Contact.id contact)))
       (update shortlist
          (withNeighborList (SortedContactList.setContacted (Contact.id contact)))
          s) x) ->
  P (probe this shortlist s contact x).
Proof.
  intros Hx. unfold probe.
  match goal with |- context [getClosestNodesTo ?a ?b ?c ?d] =>
    pose proof (getClosestNodesTo_keeps P P_countIncoming P_withBucket P_addContact
                  a b c d x) as Hrpc;
    destruct (getClosestNodesTo a b c d) as [returnedContacts s4] end.
  cbn [snd] in Hrpc.
  apply (learn_keeps P P_withBucket).
  apply (update_keeps P); [apply (addContacts_keeps P P_addContact)|].
  apply Hrpc. apply (update_keeps P); [exact P_countOutgoing|]. exact Hx.
Qed.
End AfterMarking.

Section Asking.
Import DhtNode.

Section Held.
Variable q : SortedContactList.Entry -> bool.
Hypothesis q_contacted :
  forall e, q e = true ->
            q (SortedContactList.mkEntry (SortedContactList.contact e) true
                                         (SortedContactList.active e)) = true.
Hypothesis q_active :
  forall e, q e = true ->
            q (SortedContactList.mkEntry (SortedContactList.contact e)
                                         (SortedContactList.contacted e) true) = true.

Lemma held_addContact i c n :
  sound n /\ heldOrOut q i (neighborList n) ->
  sound (withNeighborList (SortedContactList.addContact c) n) /\
  heldOrOut q i (neighborList (withNeighborList (SortedContactList.addContact c) n)).
Proof.
  intros [Hsound Hi]. split; [apply sound_addContact, Hsound|].
  cbn [withNeighborList neighborList].
  apply (addContact_heldOrOut (ownId n)); [apply Hsound | exact Hi].
Qed.

Lemma held_mark i j n :
  sound n /\ heldOrOut q i (neighborList n) ->
  sound (withNeighborList (SortedContactList.setActive j)
           (withNeighborList (SortedContactList.setContacted j) n)) /\
  heldOrOut q i
    (neighborList
       (withNeighborList (SortedContactList.setActive j)
          (withNeighborList (SortedContactList.setContacted j) n))).
Proof.
  intros [Hsound Hi]. split; [apply sound_mark, Hsound|].
  cbn [withNeighborList neighborList].
  apply setActive_heldOrOut; [exact q_active|].
  apply setContacted_heldOrOut; [exact q_contacted | exact Hi].
Qed.

Lemma probe_held i this shortlist s contact x :
  sound (s x) /\ heldOrOut q i (neighborList (s x)) ->
  sound (probe this shortlist s contact x) /\
  heldOrOut q i (neighborList (probe this shortlist s contact x)).
Proof.
  apply (probe_keeps (fun n => sound n /\ heldOrOut q i (neighborList n))
                     (fun _ => True)).
  - intros n Hn. exact Hn.
  - intros n Hn. exact Hn.
  - intros f n Hn. exact Hn.
  - intros c n. apply held_addContact.
  - intros j n _. apply held_mark.
  - exact I.
Qed.

Lemma findMoreContacts_held i this contactList shortlist s x :
  sound (s x) /\ heldOrOut q i (neighborList (s x)) ->
  sound (findMoreContacts this contactList shortlist s x) /\
  heldOrOut q i (neighborList (findMoreContacts this contactList shortlist s x)).
Proof.
  unfold findMoreContacts. revert s.
  induction contactList as [|c cs IH]; intros s Hx; cbn [fold_left]; [exact Hx|].
  apply IH. apply probe_held. exact Hx.
Qed.
End Held.

(** Probing a listed contact leaves its id asked. *)
Lemma probe_asks this s contact :
  sound (s this) -> listed (Contact.id contact) (neighborList (s this)) ->
  sound (probe this this s contact this) /\
  asked (Contact.id contact) (neighborList (probe this this s contact this)).
Proof.
  intros Hsound Hlisted.
  apply (probe_after_marking
           (fun n => sound n /\ asked (Contact.id contact) (neighborList n))).
  - intros n Hn. exact Hn.
  - intros n Hn. exact Hn.
  - intros f n Hn. exact Hn.
  - intros c n. apply (held_addContact SortedContactList.contacted).
  - rewrite mark_twice, update_this. split; [apply sound_mark, Hsound|].
    cbn [withNeighborList neighborList]. apply mark_asks. exact Hlisted.
Qed.

Lemma findMoreContacts_asks this contactList :
  forall s,
    sound (s this) ->
    Forall (fun c => listed (Contact.id c) (neighborList (s this))) contactList ->
    Forall (fun c => asked (Contact.id c)
                       (neighborList (findMoreContacts this contactList this s this)))
           contactList.
Proof.
  induction contactList as [|c cs IH]; intros s Hsound Hall; [constructor|].
  inversion Hall as [|? ? Hc Hcs]; subst.
  destruct (probe_asks this s c Hsound Hc) as [Hsound1 Hasked].
  change (findMoreContacts this (c :: cs) this s)
    with (findMoreContacts this cs this (probe this this s c)).
  constructor.
  - apply (findMoreContacts_held SortedContactList.contacted);
      [reflexivity | intros e He; exact He | split; assumption].
  - apply IH; [exact Hsound1|].
    eapply Forall_impl; [exact Hcs|]. intros c' Hc'. cbv beta in *.
    apply (probe_held (fun _ => true)); [reflexivity | reflexivity | split; assumption].
Qed.

Lemma filter_sublist {A} (p : A -> bool) (l : list A) : sublist (List.filter p l) l.
Proof.
  induction l as [|x l IH]; simpl; [constructor|].
  destruct (p x); [apply sublist_skip | apply sublist_cons]; exact IH.
Qed.

Lemma uncontacted_entry limit n c :
  c ∈ uncontactedOf limit n ->
  exists e, e ∈ SortedContactList.entries (neighborList n)
            /\ SortedContactList.contact e = c
            /\ SortedContactList.contacted e = false.
Proof.
  unfold uncontactedOf, SortedContactList.getUncontactedContacts. intros Hc.
  assert (Hc' : c ∈ map SortedContactList.contact
                    (List.filter (fun e => negb (SortedContactList.contacted e))
                                 (SortedContactList.entries (neighborList n)))).
  { eapply elem_of_sublist; [exact Hc | apply sublist_take]. }
  apply list_elem_of_fmap in Hc' as (e & -> & He).
  apply list_elem_of_In in He. apply filter_In in He as [He Hflag].
  exists e. split; [apply list_elem_of_In; exact He|]. split; [reflexivity|].
  apply negb_true_iff. exact Hflag.
Qed.

Lemma uncontacted_nodup limit n :
  NoDup (map SortedContactList.entryId (SortedContactList.entries (neighborList n))) ->
  NoDup (map Contact.id (uncontactedOf limit n)).
Proof.
  intros Hnodup. eapply sublist_NoDup; [exact Hnodup|].
  unfold uncontactedOf, SortedContactList.getUncontactedContacts.
  change (map SortedContactList.entryId (SortedContactList.entries (neighborList n)))
    with (map (fun e => Contact.id (SortedContactList.contact e))
              (SortedContactList.entries (neighborList n))).
  rewrite <- (map_map SortedContactList.contact Contact.id).
  apply (fmap_sublist Contact.id).
  etransitivity; [apply sublist_take|].
  apply (fmap_sublist SortedContactList.contact). apply filter_sublist.
Qed.

Lemma uncontacted_front limit n e rest :
  1 <= limit ->
  SortedContactList.entries (neighborList n) = e :: rest ->
  SortedContactList.contacted e = false ->
  SortedContactList.contact e ∈ uncontactedOf limit n.
Proof.
  intros Hlimit Hes Hflag.
  unfold uncontactedOf, SortedContactList.getUncontactedContacts.
  rewrite Hes. cbn [List.filter]. rewrite Hflag. cbn [negb map].
  destruct limit as [|limit]; [lia|]. left.
Qed.

(** One round of the lookup, given the contacts [done] that earlier
    rounds probed. *)
Lemma round_asks this limit s done :
  1 <= limit ->
  sound (s this) ->
  Forall (fun c => asked (Contact.id c) (neighborList (s this))) done ->
  NoDup (map Contact.id done) ->
  let contactList := uncontacted limit s this in
  let s1 := findMoreContacts this contactList this s in
  sound (s1 this) /\
  Forall (fun c => asked (Contact.id c) (neighborList (s1 this))) (done ++ contactList) /\
  NoDup (map Contact.id (done ++ contactList)) /\
  (K <= activeCount s1 this \/ closestContactId s this = closestContactId s1 this ->
   closestAsked (s1 this)).
Proof.
  intros Hlimit Hsound Hdone Hnodup contactList s1.
  assert (Hids : NoDup (map SortedContactList.entryId
                            (SortedContactList.entries (neighborList (s this)))))
    by apply Hsound.
  assert (Hsound1 : sound (s1 this)) by (apply findMoreContacts_sound; exact Hsound).
  assert (Hlisted : Forall (fun c => listed (Contact.id c) (neighborList (s this)))
                           contactList).
  { apply Forall_forall. intros c Hc.
    destruct (uncontacted_entry limit (s this) c Hc) as (e & He & Hce & _).
    left. exists e. split; [exact He|]. split; [|reflexivity].
    unfold SortedContactList.entryId. rewrite Hce. reflexivity. }
  assert (Hnew : Forall (fun c => asked (Contact.id c) (neighborList (s1 this)))
                        contactList)
    by (apply findMoreContacts_asks; assumption).
  assert (Hkept : forall i, asked i (neighborList (s this)) ->
                            asked i (neighborList (s1 this))).
  { intros i Hi.
    apply (findMoreContacts_held SortedContactList.contacted);
      [reflexivity | intros e He; exact He | split; assumption]. }
  split; [exact Hsound1|]. split; [|split].
  - apply Forall_app. split; [|exact Hnew].
    eapply Forall_impl; [exact Hdone|]. intros c Hc. apply Hkept, Hc.
  - rewrite map_app. apply NoDup_app. split; [exact Hnodup|]. split.
    + intros i Hi Hi'.
      apply list_elem_of_fmap in Hi as (c & -> & Hc).
      apply list_elem_of_fmap in Hi' as (c' & Hid & Hc').
      destruct (uncontacted_entry limit (s this) c' Hc') as (e & He & Hce & Hflag).
      rewrite Forall_forall in Hdone.
      rewrite (asked_not_uncontacted (Contact.id c) _ e Hids (Hdone c Hc) He) in Hflag;
        [discriminate|].
      unfold SortedContactList.entryId. rewrite Hce. symmetry. exact Hid.
    + apply uncontacted_nodup. exact Hids.
  - intros Hexit e1 Hhead.
    assert (He1 : e1 ∈ SortedContactList.entries (neighborList (s1 this))).
    { destruct (SortedContactList.entries (neighborList (s1 this))) as [|x xs];
        [discriminate|]. injection Hhead as ->. left. }
    destruct Hexit as [Hfull|Hsame].
    + destruct Hsound1 as [(_ & Hlen & _) Hflags].
      unfold activeCount, SortedContactList.getActiveContacts in Hfull.
      rewrite length_map in Hfull.
      assert (Hall : Forall (fun e => SortedContactList.active e = true)
                            (SortedContactList.entries (neighborList (s1 this)))).
      { apply filter_all. unfold K, SortedContactList.K in *. lia. }
      rewrite Forall_forall in Hall. unfold flagsConsistent in Hflags.
      rewrite Forall_forall in Hflags. apply (Hflags e1 He1), (Hall e1 He1).
    + unfold closestContactId, SortedContactList.getClosestContactId in Hsame.
      destruct (SortedContactList.entries (neighborList (s this))) as [|e0 rest] eqn:Hes;
        destruct (SortedContactList.entries (neighborList (s1 this))) as [|x xs] eqn:Hes1;
        try discriminate.
      injection Hhead as ->. injection Hsame as Hid.
      assert (Hasked : asked (SortedContactList.entryId e0) (neighborList (s1 this))).
      { destruct (SortedContactList.contacted e0) eqn:Hflag.
        - apply Hkept. left. exists e0. rewrite Hes.
          split; [left|]. split; [reflexivity | exact Hflag].
        - rewrite Forall_forall in Hnew.
          apply (Hnew (SortedContactList.contact e0)).
          apply (uncontacted_front limit (s this) e0 rest Hlimit Hes Hflag). }
      apply (asked_not_uncontacted (SortedContactList.entryId e0)
                                   (neighborList (s1 this)) e1).
      * apply Hsound1.
      * exact Hasked.
      * rewrite Hes1. left.
      * symmetry. exact Hid.
Qed.
End Asking.

(** * The whole lookup *)

Section Lookup.
Import DhtNode.

Lemma probedContacts_cons r rs :
  probedContacts (r :: rs) = probed r ++ probedContacts rs.
Proof. reflexivity. Qed.

Lemma widenedLoop_asks this :
  forall fuel limit s done rounds s',
    1 <= limit ->
    widenedLoop fuel this (uncontacted limit s this) s = Some (rounds, s') ->
    sound (s this) ->
    Forall (fun c => asked (Contact.id c) (neighborList (s this))) done ->
    NoDup (map Contact.id done) ->
    NoDup (map Contact.id (done ++ probedContacts rounds)) /\ closestAsked (s' this).
Proof.
  induction fuel as [|fuel IH]; intros limit s done rounds s' Hlimit Hrun Hsound Hdone Hnodup;
    [discriminate|].
  cbn [widenedLoop] in Hrun.
  destruct (round_asks this limit s done Hlimit Hsound Hdone Hnodup)
    as (Hsound1 & Hdone1 & Hnodup1 & Hexit).
  destruct (_ || _) eqn:Htest.
  - injection Hrun as <- <-. rewrite probedContacts_cons. cbn [probed].
    unfold probedContacts at 1. cbn [map concat]. rewrite app_nil_r.
    split; [exact Hnodup1|]. apply Hexit.
    apply orb_true_iff in Htest as [Hfull|Hsame].
    + left. apply Nat.leb_le. exact Hfull.
    + right. apply bool_decide_eq_true in Hsame. exact Hsame.
  - destruct (widenedLoop fuel this _ _) as [[rs s'']|] eqn:Hrest; [|discriminate].
    injection Hrun as <- <-. rewrite probedContacts_cons. cbn [probed].
    rewrite app_assoc.
    apply (IH ALPHA _ _ _ _ ltac:(unfold ALPHA; lia) Hrest Hsound1 Hdone1 Hnodup1).
Qed.

Lemma lookupLoop_asks this :
  forall fuel s done rounds s',
    lookupLoop fuel this s = Some (rounds, s') ->
    sound (s this) ->
    Forall (fun c => asked (Contact.id c) (neighborList (s this))) done ->
    NoDup (map Contact.id done) ->
    NoDup (map Contact.id (done ++ probedContacts rounds)) /\ closestAsked (s' this).
Proof.
  induction fuel as [|fuel IH]; intros s done rounds s' Hrun Hsound Hdone Hnodup;
    [discriminate|].
  rewrite lookupLoop_step in Hrun. cbv zeta in Hrun.
  destruct (round_asks this ALPHA s done ltac:(unfold ALPHA; lia) Hsound Hdone Hnodup)
    as (Hsound1 & Hdone1 & Hnodup1 & _).
  destruct (sameClosest _ _).
  - destruct (widenedLoop fuel this _ _) as [[rs s'']|] eqn:Hrest; [|discriminate].
    injection Hrun as <- <-. rewrite probedContacts_cons. cbn [probed].
    rewrite app_assoc.
    apply (widenedLoop_asks this fuel K _ _ _ _ ltac:(unfold K; lia)
             Hrest Hsound1 Hdone1 Hnodup1).
  - destruct (lookupLoop fuel this _) as [[rs s'']|] eqn:Hrest; [|discriminate].
    injection Hrun as <- <-. rewrite probedContacts_cons. cbn [probed].
    rewrite app_assoc.
    apply (IH _ _ _ _ Hrest Hsound1 Hdone1 Hnodup1).
Qed.

(** X11: when [joinDht] returns from a lookup, the contact in front of
    the joiner's neighbor list, the closest one it knows, is marked
    contacted: the lookup does not stop on a contact it has not
    asked. *)
Theorem joinDht_ends_with_closest_asked
        (fuel : nat) (this entryPoint : NodeRef) (s s' : Store)
        (rounds : list Round) :
  ownId (s entryPoint) <> ownId (s this) ->
  sound (s this) ->
  joinDht fuel this entryPoint s = Some (rounds, s') ->
  closestAsked (s' this).
Proof.
  intros Hother Hsound. unfold joinDht, sameId, getContact. cbn [Contact.id].
  rewrite bool_decide_eq_false_2 by exact Hother.
  intros Hrun.
  apply (lookupLoop_asks this fuel _ [] rounds s' Hrun).
  - apply (seeding_sound this entryPoint s Hsound).
  - constructor.
  - constructor.
Qed.

Lemma joinDht_ends_with_closest_asked_witness :
  match joinDht 10 3 0 (ask 0 (ask 0 fresh 1) 2) with
  | Some (rounds, s') => closestAsked (s' 3)
  | None => False
  end.
Proof.
  assert (Hsome : match joinDht 10 3 0 (ask 0 (ask 0 fresh 1) 2) with
                  | Some _ => true
                  | None => false
                  end = true) by (vm_compute; reflexivity).
  assert (Hnode : ask 0 (ask 0 fresh 1) 2 3 = create [3%N])
    by (vm_compute; reflexivity).
  destruct (joinDht 10 3 0 (ask 0 (ask 0 fresh 1) 2)) as [[rounds s']|] eqn:Hrun;
    [|discriminate Hsome].
  apply (joinDht_ends_with_closest_asked
           10 3 0 (ask 0 (ask 0 fresh 1) 2) s' rounds).
  - vm_compute. discriminate.
  - rewrite Hnode. apply create_sound.
  - exact Hrun.
Defined.

(** X12: a completed [joinDht] probes no id twice: over all its rounds,
    the contacts it calls have pairwise different ids. *)
Theorem joinDht_probes_each_id_once
        (fuel : nat) (this entryPoint : NodeRef) (s s' : Store)
        (rounds : list Round) :
  sound (s this) ->
  joinDht fuel this entryPoint s = Some (rounds, s') ->
  NoDup (map Contact.id (probedContacts rounds)).
Proof.
  intros Hsound. unfold joinDht. destruct (sameId _ _).
  - intros [= <- _]. constructor.
  - intros Hrun.
    apply (lookupLoop_asks this fuel _ [] rounds s' Hrun).
    + apply (seeding_sound this entryPoint s Hsound).
    + constructor.
    + constructor.
Qed.

Lemma joinDht_probes_each_id_once_witness :
  match joinDht 10 3 0 (ask 0 (ask 0 fresh 1) 2) with
  | Some (rounds, s') => NoDup (map Contact.id (probedContacts rounds))
  | None => False
  end.
Proof.
  assert (Hsome : match joinDht 10 3 0 (ask 0 (ask 0 fresh 1) 2) with
                  | Some _ => true
                  | None => false
                  end = true) by (vm_compute; reflexivity).
  assert (Hnode : ask 0 (ask 0 fresh 1) 2 3 = create [3%N])
    by (vm_compute; reflexivity).
  destruct (joinDht 10 3 0 (ask 0 (ask 0 fresh 1) 2)) as [[rounds s']|] eqn:Hrun;
    [|discriminate Hsome].
  apply (joinDht_probes_each_id_once
           10 3 0 (ask 0 (ask 0 fresh 1) 2) s' rounds).
  - rewrite Hnode. apply create_sound.
  - exact Hrun.
Defined.
End Lookup.

(** * The neighbor list after a lookup is not empty *)

Section Seeded.
Import KBucket.

Lemma addAt_stores_something fuel k own c n :
  forall bitIndex,
    1 <= k -> 1 <= length (contactsOf (addAt fuel k own n bitIndex c)).
Proof.
  induction n as [cs ds|l IHl r IHr]; intros bitIndex Hk; cbn [addAt].
  - destruct cs as [|x cs].
    + assert (Hroom : (0 <? k) = true) by (apply Nat.ltb_lt; lia).
      destruct fuel; cbn [leafAdd indexOf length]; rewrite Hroom; cbn; lia.
    + pose proof (leafAdd_count fuel k own c (x :: cs) ds bitIndex) as Hcount.
      cbv zeta in Hcount. cbn [length] in Hcount. lia.
  - destruct (goesRight (Contact.id c) bitIndex); cbn [contactsOf];
      rewrite length_app.
    + specialize (IHr (S bitIndex) Hk). lia.
    + specialize (IHl (S bitIndex) Hk). lia.
Qed.

Lemma add_stores_something c b :
  1 <= numberOfNodesPerKBucket b -> 1 <= count (add c b).
Proof. apply addAt_stores_something. Qed.

Lemma collect_finds_something limit i n :
  reached limit [] = false ->
  forall bitIndex found,
    found <> [] \/ contactsOf n <> [] ->
    fst (collect limit i n bitIndex found) <> [].
Proof.
  intros Hlimit.
  assert (Hreached : forall found, reached limit found = true -> found <> []).
  { intros found Hr ->. congruence. }
  induction n as [cs ds|l IHl r IHr]; intros bitIndex found Hsome; cbn [collect].
  - destruct (reached limit found) eqn:Hr; cbn [fst]; [apply Hreached, Hr|].
    destruct Hsome as [Hf|Hc]; intros E; apply app_eq_nil in E as [E1 E2]; auto.
  - destruct (reached limit found) eqn:Hr; cbn [fst]; [apply Hreached, Hr|].
    cbn [contactsOf] in Hsome.
    assert (Hsides : found <> [] \/ contactsOf l <> [] \/ contactsOf r <> []).
    { destruct Hsome as [Hf|Hc]; [left; exact Hf|]. right.
      destruct (contactsOf l); [right|left; discriminate].
      exact Hc. }
    destruct (goesRight i bitIndex).
    + specialize (IHr (S bitIndex) found).
      destruct (collect limit i r (S bitIndex) found) as [found' bitIndex'].
      cbn [fst] in IHr. apply IHl.
      destruct Hsides as [Hf|[Hl|Hr']]; [left; apply IHr; left; exact Hf
                                       | right; exact Hl
                                       | left; apply IHr; right; exact Hr'].
    + specialize (IHl (S bitIndex) found).
      destruct (collect limit i l (S bitIndex) found) as [found' bitIndex'].
      cbn [fst] in IHl. apply IHr.
      destruct Hsides as [Hf|[Hl|Hr']]; [left; apply IHl; left; exact Hf
                                       | left; apply IHl; right; exact Hl
                                       | right; exact Hr'].
Qed.

(** A bucket that stores a contact has a closest one for every id. *)
Lemma closest_finds_something i limit b :
  1 <= limit -> 1 <= count b -> closest i (Some limit) b <> [].
Proof.
  intros Hlimit Hcount. unfold closest, slice0.
  assert (Hfound : fst (collect (Some limit) i (root b) 0 []) <> []).
  { apply collect_finds_something.
    - cbn. destruct limit; [lia | reflexivity].
    - right. unfold count in Hcount. intros E. rewrite E in Hcount. cbn in Hcount. lia. }
  assert (Hsorted : sortByDistance i (fst (collect (Some limit) i (root b) 0 [])) <> []).
  { intros E. apply Hfound. apply Permutation_nil.
    pose proof (sortByDistance_perm i (fst (collect (Some limit) i (root b) 0 [])))
      as Hperm.
    rewrite E in Hperm. exact Hperm. }
  destruct (sortByDistance i _) as [|x xs]; [congruence|].
  destruct limit; [lia | discriminate].
Qed.
End Seeded.

Section NeverAlone.
Import DhtNode.

Lemma evictFarthest_nonempty es :
  es <> [] -> SortedContactList.evictFarthest es <> [].
Proof.
  intros Hes. unfold SortedContactList.evictFarthest.
  destruct (Nat.ltb_spec SortedContactList.K (length es)) as [Hlt|_]; [|exact Hes].
  intros E. apply (f_equal length) in E. rewrite removelast_length in E.
  unfold SortedContactList.K in Hlt. cbn in E. lia.
Qed.

Lemma addContact_nonempty_after c l :
  SortedContactList.entries (SortedContactList.addContact c l) <> [].
Proof.
  unfold SortedContactList.addContact.
  destruct (SortedContactList.hasId _ _) eqn:Hhas.
  - intros E. rewrite E in Hhas. discriminate.
  - cbn [SortedContactList.entries]. apply evictFarthest_nonempty, insertSorted_nonempty.
Qed.

Lemma addContacts_nonempty_after cs l :
  cs <> [] \/ SortedContactList.entries l <> [] ->
  SortedContactList.entries (SortedContactList.addContacts cs l) <> [].
Proof.
  unfold SortedContactList.addContacts. revert l.
  induction cs as [|c cs IH]; intros l Hsome; cbn [fold_left].
  - destruct Hsome as [H|H]; [congruence | exact H].
  - apply IH. right. apply addContact_nonempty_after.
Qed.

(** X13: when [joinDht] returns from a lookup of a node whose bucket
    takes contacts, the joiner's neighbor list holds a closest
    contact. *)
Theorem joinDht_leaves_a_closest_contact
        (fuel : nat) (this entryPoint : NodeRef) (s s' : Store)
        (rounds : list Round) :
  ownId (s entryPoint) <> ownId (s this) ->
  1 <= KBucket.numberOfNodesPerKBucket (bucket (s this)) ->
  joinDht fuel this entryPoint s = Some (rounds, s') ->
  is_Some (closestContactId s' this).
Proof.
  intros Hother Hroom. unfold joinDht, sameId, getContact. cbn [Contact.id].
  rewrite bool_decide_eq_false_2 by exact Hother.
  intros Hrun.
  assert (Hlist : SortedContactList.entries (neighborList (s' this)) <> []).
  { apply (lookupLoop_holds
             (fun n => SortedContactList.entries (neighborList n) <> [])
             ltac:(intros n Hn; exact Hn)
             ltac:(intros n Hn; exact Hn)
             ltac:(intros c n Hn; exact Hn)
             ltac:(intros c n Hn; apply addContact_nonempty_after)
             ltac:(intros i n Hn; cbn; intros E;
                   apply map_eq_nil, map_eq_nil in E; exact (Hn E))
             fuel this this _ rounds s' Hrun).
    rewrite !update_this. cbn [withNeighborList withBucket neighborList bucket].
    apply addContacts_nonempty_after. left.
    apply closest_finds_something; [unfold ALPHA; lia|].
    apply add_stores_something. exact Hroom. }
  unfold closestContactId, SortedContactList.getClosestContactId.
  destruct (SortedContactList.entries (neighborList (s' this))); [congruence|].
  eexists. reflexivity.
Qed.

Lemma joinDht_leaves_a_closest_contact_witness :
  match joinDht 10 3 0 (ask 0 (ask 0 fresh 1) 2) with
  | Some (rounds, s') => is_Some (closestContactId s' 3)
  | None => False
  end.
Proof.
  assert (Hsome : match joinDht 10 3 0 (ask 0 (ask 0 fresh 1) 2) with
                  | Some _ => true
                  | None => false
                  end = true) by (vm_compute; reflexivity).
  destruct (joinDht 10 3 0 (ask 0 (ask 0 fresh 1) 2)) as [[rounds s']|] eqn:Hrun;
    [|discriminate Hsome].
  apply (joinDht_leaves_a_closest_contact
           10 3 0 (ask 0 (ask 0 fresh 1) 2) s' rounds).
  - vm_compute. discriminate.
  - vm_compute. lia.
  - exact Hrun.
Defined.
End NeverAlone.

(** * The nodes that answer *)

Section Responders.
Import DhtNode.

Variables this x : NodeRef.
Hypothesis x_responds : x <> this.

(** At a node other than the caller, a probe is the call it makes
    there, or nothing. *)
Lemma probe_at_responder s contact :
  probe this this s contact x
  = if decide (Contact.dhtNode contact = x)
    then snd (getClosestNodesTo x (ownId (s this)) this s) x
    else s x.
Proof.
  destruct (decide (Contact.dhtNode contact = x)) as [Hx|Hx].
  - unfold probe.
    set (s3 := update this countOutgoing _).
    assert (H3x : s3 x = s x)
      by (unfold s3; rewrite !update_other by exact x_responds; reflexivity).
    assert (H3o : ownId (s3 this) = ownId (s this))
      by (unfold s3; rewrite !update_this; reflexivity).
    pose proof (getClosestNodesTo_node (Contact.dhtNode contact) (ownId (s3 this))
                                       this s3) as Hnode.
    destruct (getClosestNodesTo (Contact.dhtNode contact) (ownId (s3 this)) this s3)
      as [returnedContacts s4].
    cbn [snd] in Hnode. rewrite Hx in Hnode.
    rewrite learn_other by exact x_responds.
    rewrite update_other by exact x_responds.
    rewrite Hnode, getClosestNodesTo_node, H3x, H3o. reflexivity.
  - apply probe_other; [exact x_responds | exact x_responds|].
    intros E. apply Hx. symmetry. exact E.
Qed.

Variable P : t -> Prop.
Hypothesis P_call :
  forall i s, P (s x) -> P (snd (getClosestNodesTo x i this s) x).

Lemma probe_responder s contact : P (s x) -> P (probe this this s contact x).
Proof.
  intros Hx. rewrite probe_at_responder.
  destruct (decide _); [apply P_call|]; exact Hx.
Qed.

Lemma findMoreContacts_responder contactList :
  forall s, P (s x) -> P (findMoreContacts this contactList this s x).
Proof.
  unfold findMoreContacts.
  induction contactList as [|c cs IH]; intros s Hx; cbn [fold_left]; [exact Hx|].
  apply IH, probe_responder, Hx.
Qed.

Lemma widenedLoop_responder fuel :
  forall contactList s rounds s',
    widenedLoop fuel this contactList s = Some (rounds, s') -> P (s x) -> P (s' x).
Proof.
  induction fuel as [|fuel IH]; intros contactList s rounds s' Hrun Hx; [discriminate|].
  cbn [widenedLoop] in Hrun.
  pose proof (findMoreContacts_responder contactList s Hx) as Hx1.
  destruct (_ || _).
  - injection Hrun as _ <-. exact Hx1.
  - destruct (widenedLoop fuel this _ _) as [[rs s'']|] eqn:Hrest; [|discriminate].
    injection Hrun as _ <-. eapply IH; eassumption.
Qed.

Lemma lookupLoop_responder fuel :
  forall s rounds s',
    lookupLoop fuel this s = Some (rounds, s') -> P (s x) -> P (s' x).
Proof.
  induction fuel as [|fuel IH]; intros s rounds s' Hrun Hx; [discriminate|].
  rewrite lookupLoop_step in Hrun. cbv zeta in Hrun.
  pose proof (findMoreContacts_responder (uncontacted ALPHA s this) s Hx) as Hx1.
  destruct (sameClosest _ _).
  - destruct (widenedLoop fuel this _ _) as [[rs s'']|] eqn:Hrest; [|discriminate].
    injection Hrun as _ <-. eapply widenedLoop_responder; eassumption.
  - destruct (lookupLoop fuel this _) as [[rs s'']|] eqn:Hrest; [|discriminate].
    injection Hrun as _ <-. eapply IH; eassumption.
Qed.

Lemma joinDht_responder fuel entryPoint s rounds s' :
  joinDht fuel this entryPoint s = Some (rounds, s') -> P (s x) -> P (s' x).
Proof.
  unfold joinDht. destruct (sameId _ _).
  - intros [= _ <-] Hx. exact Hx.
  - intros Hrun Hx. eapply lookupLoop_responder; [exact Hrun|].
    rewrite !update_other by exact x_responds. exact Hx.
Qed.
End Responders.

Section RespondersGrow.
Import DhtNode.

(** X14: over a completed [joinDht], a node other than the joiner takes
    at most one contact into its bucket and one into its neighbor list
    for each call it answers. *)
Theorem joinDht_responder_learns_one_per_call
        (fuel : nat) (this entryPoint : NodeRef) (s s' : Store)
        (rounds : list Round) (x : NodeRef) :
  x <> this ->
  joinDht fuel this entryPoint s = Some (rounds, s') ->
  getKBucketSize s' x + getNumberOfIncomingRpcCalls s x
  <= getKBucketSize s x + getNumberOfIncomingRpcCalls s' x /\
  length (SortedContactList.entries (getNeightborList s' x))
  + getNumberOfIncomingRpcCalls s x
  <= length (SortedContactList.entries (getNeightborList s x))
     + getNumberOfIncomingRpcCalls s' x.
Proof.
  intros Hx Hrun.
  unfold getKBucketSize, getNumberOfIncomingRpcCalls, getNeightborList.
  refine (joinDht_responder this x Hx
            (fun n =>
               KBucket.count (bucket n) + numberOfIncomingRpcCalls (s x)
               <= KBucket.count (bucket (s x)) + numberOfIncomingRpcCalls n /\
               length (SortedContactList.entries (neighborList n))
               + numberOfIncomingRpcCalls (s x)
               <= length (SortedContactList.entries (neighborList (s x)))
                  + numberOfIncomingRpcCalls n)
            _ fuel entryPoint s rounds s' Hrun _); [|lia].
  intros i s0 [Hbucket Hlist]. rewrite getClosestNodesTo_node.
  destruct (KBucket.get i (bucket (s0 x))).
  - cbn [countIncoming bucket neighborList numberOfIncomingRpcCalls]. lia.
  - cbn [withNeighborList withBucket countIncoming bucket neighborList
           numberOfIncomingRpcCalls].
    pose proof (add_count (Contact.mk i this) (bucket (s0 x))) as Hadd.
    assert (Hgrow : length (SortedContactList.entries
                              (SortedContactList.addContact (Contact.mk i this)
                                                            (neighborList (s0 x))))
                    <= S (length (SortedContactList.entries (neighborList (s0 x))))).
    { unfold SortedContactList.addContact.
      destruct (SortedContactList.hasId _ _); [lia|].
      cbn [SortedContactList.entries].
      pose proof (sublist_length _ _
                    (evictFarthest_sublist
                       (SortedContactList.insertSorted
                          (SortedContactList.ownId (neighborList (s0 x)))
                          (SortedContactList.mkEntry (Contact.mk i this) false false)
                          (SortedContactList.entries (neighborList (s0 x)))))) as Hsub.
      rewrite insertSorted_length in Hsub. exact Hsub. }
    lia.
Qed.

Lemma joinDht_responder_learns_one_per_call_witness :
  match joinDht 10 3 0 (ask 0 (ask 0 fresh 1) 2) with
  | Some (rounds, s') =>
      getKBucketSize s' 0 + getNumberOfIncomingRpcCalls (ask 0 (ask 0 fresh 1) 2) 0
      <= getKBucketSize (ask 0 (ask 0 fresh 1) 2) 0 + getNumberOfIncomingRpcCalls s' 0 /\
      length (SortedContactList.entries (getNeightborList s' 0))
      + getNumberOfIncomingRpcCalls (ask 0 (ask 0 fresh 1) 2) 0
      <= length (SortedContactList.entries
                   (getNeightborList (ask 0 (ask 0 fresh 1) 2) 0))
         + getNumberOfIncomingRpcCalls s' 0
  | None => False
  end.
Proof.
  assert (Hsome : match joinDht 10 3 0 (ask 0 (ask 0 fresh 1) 2) with
                  | Some _ => true
                  | None => false
                  end = true) by (vm_compute; reflexivity).
  destruct (joinDht 10 3 0 (ask 0 (ask 0 fresh 1) 2)) as [[rounds s']|] eqn:Hrun;
    [|discriminate Hsome].
  apply (joinDht_responder_learns_one_per_call
           10 3 0 (ask 0 (ask 0 fresh 1) 2) s' rounds 0).
  - discriminate.
  - exact Hrun.
Defined.
End RespondersGrow.

(** * Buckets with room *)

Section Room.
Import KBucket.

Lemma addAt_room fuel k own c n :
  forall bitIndex,
    getAt n (Contact.id c) bitIndex = None ->
    length (contactsOf n) < k ->
    getAt (addAt fuel k own n bitIndex c) (Contact.id c) bitIndex = Some c /\
    length (contactsOf (addAt fuel k own n bitIndex c)) = S (length (contactsOf n)).
Proof.
  induction n as [cs ds|l IHl r IHr]; intros bitIndex Hnone Hroom; cbn [addAt].
  - assert (Hnew : indexOf cs (Contact.id c) = None).
    { cbn [getAt] in Hnone.
      destruct (indexOf cs (Contact.id c)) as [index|] eqn:E; [|reflexivity].
      destruct (indexOf_Some _ _ _ E) as (c' & Hc' & _). congruence. }
    rewrite leafAdd_room by assumption. cbn [getAt contactsOf]. split.
    + rewrite indexOf_app_new by exact Hnew.
      rewrite lookup_app_r, Nat.sub_diag by reflexivity. reflexivity.
    + rewrite length_app. cbn. lia.
  - cbn [getAt] in Hnone. cbn [contactsOf] in Hroom. rewrite length_app in Hroom.
    destruct (goesRight (Contact.id c) bitIndex) eqn:Hside;
      rewrite getAt_inner, Hside; cbn [contactsOf]; rewrite !length_app.
    + destruct (IHr (S bitIndex) Hnone ltac:(lia)) as [Hget Hlen].
      split; [exact Hget | lia].
    + destruct (IHl (S bitIndex) Hnone ltac:(lia)) as [Hget Hlen].
      split; [exact Hget | lia].
Qed.

Lemma add_room c b :
  get (Contact.id c) b = None -> count b < numberOfNodesPerKBucket b ->
  get (Contact.id c) (add c b) = Some c /\ count (add c b) = S (count b).
Proof. apply addAt_room. Qed.
End Room.

Section Handshake.
Import DhtNode.

(** X15: a node whose bucket holds fewer contacts than a leaf takes
    records every caller that asks for an id it does not know: after
    [getClosestNodesTo] the bucket returns the new contact under that
    id and holds one contact more. *)
Theorem getClosestNodesTo_records_when_room
        (this : NodeRef) (i : NodeId) (caller : NodeRef) (s : Store) :
  KBucket.get i (bucket (s this)) = None ->
  getKBucketSize s this < KBucket.numberOfNodesPerKBucket (bucket (s this)) ->
  let s' := snd (getClosestNodesTo this i caller s) in
  KBucket.get i (bucket (s' this)) = Some (Contact.mk i caller) /\
  getKBucketSize s' this = S (getKBucketSize s this).
Proof.
  intros Hnone Hroom s'. unfold s', getKBucketSize.
  rewrite getClosestNodesTo_node, Hnone.
  cbn [withNeighborList withBucket countIncoming bucket].
  apply (add_room (Contact.mk i caller)); assumption.
Qed.

Lemma getClosestNodesTo_records_when_room_witness :
  let s' := snd (getClosestNodesTo 0 [2%N] 2 (ask 0 fresh 1)) in
  KBucket.get [2%N] (bucket (s' 0)) = Some (Contact.mk [2%N] 2) /\
  getKBucketSize s' 0 = S (getKBucketSize (ask 0 fresh 1) 0).
Proof.
  apply (getClosestNodesTo_records_when_room 0 [2%N] 2 (ask 0 fresh 1)).
  - vm_compute. reflexivity.
  - vm_compute. lia.
Defined.
Lemma lookupLoop_never_forgets fuel this s rounds s' r j :
  lookupLoop fuel this s = Some (rounds, s') -> knowsId j (s r) -> knowsId j (s' r).
Proof.
  apply (lookupLoop_holds (knowsId j)
           ltac:(intros n Hn; exact Hn)
           ltac:(intros n Hn; exact Hn)
           ltac:(intros c n Hn; apply add_keeps_id; exact Hn)
           ltac:(intros c n Hn; exact Hn)
           ltac:(intros i n Hn; exact Hn)).
Qed.

Lemma widenedLoop_never_forgets fuel this contactList s rounds s' r j :
  widenedLoop fuel this contactList s = Some (rounds, s') ->
  knowsId j (s r) -> knowsId j (s' r).
Proof.
  apply (widenedLoop_holds (knowsId j)
           ltac:(intros n Hn; exact Hn)
           ltac:(intros n Hn; exact Hn)
           ltac:(intros c n Hn; apply add_keeps_id; exact Hn)
           ltac:(intros c n Hn; exact Hn)
           ltac:(intros i n Hn; exact Hn)).
Qed.

Lemma add_to_fresh own c :
  KBucket.add c (KBucket.create own K) = KBucket.mk own K (KBucket.Leaf [c] false).
Proof.
  unfold KBucket.add, KBucket.create.
  cbn [KBucket.root KBucket.localNodeId KBucket.numberOfNodesPerKBucket KBucket.addAt].
  rewrite leafAdd_room; [reflexivity | reflexivity | unfold K; cbn; lia].
Qed.

(** The store of [joinDht] after its seeding steps, when the joiner is
    as its constructor left it. *)
Lemma seeding_of_fresh this entryPoint (s : Store) own :
  s this = create own ->
  let c := getContact s entryPoint in
  let s1 := update this (withBucket (KBucket.add c)) s in
  let s2 := update this
              (withNeighborList
                 (SortedContactList.addContacts
                    (KBucket.closest (ownId (s1 this)) (Some ALPHA) (bucket (s1 this)))))
              s1 in
  bucket (s2 this) = KBucket.mk own K (KBucket.Leaf [c] false) /\
  ownId (s2 this) = own /\
  uncontacted ALPHA s2 this = [c].
Proof.
  intros Hfresh c s1 s2. unfold s2, s1, uncontacted. rewrite !update_this, Hfresh.
  cbn [create withBucket withNeighborList bucket ownId neighborList].
  rewrite add_to_fresh. split; [reflexivity|]. split; reflexivity.
Qed.

(** X16: a node that is as its constructor left it and joins through an
    entry point of another id, whose bucket holds fewer contacts than a
    leaf takes, calls the entry point first; when [joinDht] returns,
    the joiner's bucket holds the entry point's id and the entry
    point's bucket holds the joiner's. *)
Theorem joinDht_fresh_node_meets_entry_point
        (fuel : nat) (this entryPoint : NodeRef) (s s' : Store)
        (rounds : list Round) :
  s this = create (ownId (s this)) ->
  ownId (s entryPoint) <> ownId (s this) ->
  getKBucketSize s entryPoint
  < KBucket.numberOfNodesPerKBucket (bucket (s entryPoint)) ->
  joinDht fuel this entryPoint s = Some (rounds, s') ->
  (exists first rest,
      rounds = first :: rest /\ probed first = [getContact s entryPoint]) /\
  knowsId (ownId (s entryPoint)) (s' this) /\
  knowsId (ownId (s this)) (s' entryPoint).
Proof.
  intros Hfresh Hother Hroom.
  assert (Hne : entryPoint <> this) by (intros ->; apply Hother; reflexivity).
  unfold joinDht, sameId. unfold getContact at 1. cbn [Contact.id].
  rewrite bool_decide_eq_false_2 by exact Hother.
  remember (ownId (s this)) as own eqn:Hown.
  destruct (seeding_of_fresh this entryPoint s own Hfresh) as (Hbucket & Hid & Hfirst).
  set (s2 := update this (withNeighborList _) _) in *.
  assert (Hs2e : s2 entryPoint = s entryPoint)
    by (unfold s2; rewrite !update_other by exact Hne; reflexivity).
  destruct fuel as [|fuel]; [discriminate|].
  rewrite lookupLoop_step. cbv zeta. rewrite Hfirst.
  set (s3 := findMoreContacts this [getContact s entryPoint] this s2).
  assert (Hjoiner : knowsId (ownId (s entryPoint)) (s3 this)).
  { apply (findMoreContacts_holds (knowsId (ownId (s entryPoint)))
             ltac:(intros n Hn; exact Hn)
             ltac:(intros n Hn; exact Hn)
             ltac:(intros c n Hn; apply add_keeps_id; exact Hn)
             ltac:(intros c n Hn; exact Hn)
             ltac:(intros i n Hn; exact Hn)).
    unfold knowsId. rewrite Hbucket. cbn.
    unfold sameId. rewrite bool_decide_eq_true_2 by reflexivity.
    eexists. reflexivity. }
  assert (Hentry : knowsId own (s3 entryPoint)).
  { unfold s3, findMoreContacts. cbn [fold_left].
    rewrite (probe_at_responder this entryPoint Hne).
    unfold getContact at 1. cbn [Contact.dhtNode].
    rewrite decide_True by reflexivity.
    rewrite getClosestNodesTo_node, Hid, Hs2e. unfold knowsId.
    destruct (KBucket.get own (bucket (s entryPoint))) as [c|] eqn:Hget.
    - cbn [countIncoming bucket]. rewrite Hget. eexists. reflexivity.
    - cbn [withNeighborList withBucket countIncoming bucket].
      destruct (add_room (Contact.mk own this) (bucket (s entryPoint)) Hget Hroom)
        as [Hstored _].
      cbn [Contact.id] in Hstored. rewrite Hstored. eexists. reflexivity. }
  destruct (sameClosest _ _).
  - destruct (widenedLoop fuel this _ _) as [[rs s'']|] eqn:Hrest; [|discriminate].
    intros [= <- <-]. split; [eexists; eexists; split; reflexivity|].
    split; eapply widenedLoop_never_forgets; eassumption.
  - destruct (lookupLoop fuel this _) as [[rs s'']|] eqn:Hrest; [|discriminate].
    intros [= <- <-]. split; [eexists; eexists; split; reflexivity|].
    split; eapply lookupLoop_never_forgets; eassumption.
Qed.

Lemma joinDht_fresh_node_meets_entry_point_witness :
  match joinDht 10 3 0 (ask 0 (ask 0 fresh 1) 2) with
  | Some (rounds, s') =>
      (exists first rest,
          rounds = first :: rest /\
          probed first = [getContact (ask 0 (ask 0 fresh 1) 2) 0]) /\
      knowsId (ownId (ask 0 (ask 0 fresh 1) 2 0)) (s' 3) /\
      knowsId (ownId (ask 0 (ask 0 fresh 1) 2 3)) (s' 0)
  | None => False
  end.
Proof.
  assert (Hsome : match joinDht 10 3 0 (ask 0 (ask 0 fresh 1) 2) with
                  | Some _ => true
                  | None => false
                  end = true) by (vm_compute; reflexivity).
  assert (Hnode : ask 0 (ask 0 fresh 1) 2 3 = create [3%N])
    by (vm_compute; reflexivity).
  destruct (joinDht 10 3 0 (ask 0 (ask 0 fresh 1) 2)) as [[rounds s']|] eqn:Hrun;
    [|discriminate Hsome].
  apply (joinDht_fresh_node_meets_entry_point
           10 3 0 (ask 0 (ask 0 fresh 1) 2) s' rounds).
  - rewrite Hnode. reflexivity.
  - vm_compute. discriminate.
  - vm_compute. lia.
  - exact Hrun.
Defined.

(** X17: a node that is as its constructor left it answers its first
    call with no contact at all, and records the caller: afterwards its
    bucket returns the caller's contact under the id asked for, and
    that contact, not yet contacted, is the one entry of its neighbor
    list. *)
Theorem getClosestNodesTo_first_call
        (this : NodeRef) (i : NodeId) (caller : NodeRef) (s : Store) :
  s this = create (ownId (s this)) ->
  let ret := fst (getClosestNodesTo this i caller s) in
  let s' := snd (getClosestNodesTo this i caller s) in
  ret = [] /\
  KBucket.get i (bucket (s' this)) = Some (Contact.mk i caller) /\
  getKBucketSize s' this = 1 /\
  SortedContactList.entries (getNeightborList s' this)
  = [SortedContactList.mkEntry (Contact.mk i caller) false false] /\
  getNumberOfIncomingRpcCalls s' this = 1.
Proof.
  intros Hfresh ret s'. unfold ret, s'.
  unfold getKBucketSize, getNeightborList, getNumberOfIncomingRpcCalls.
  rewrite getClosestNodesTo_reply, getClosestNodesTo_node.
  remember (ownId (s this)) as own eqn:Hown. rewrite Hfresh.
  cbn [create bucket]. split; [reflexivity|].
  change (KBucket.get i (KBucket.create own K)) with (@None Contact.t).
  cbn [create withNeighborList withBucket countIncoming bucket neighborList
         numberOfIncomingRpcCalls].
  rewrite add_to_fresh. cbn.
  unfold sameId. rewrite bool_decide_eq_true_2 by reflexivity.
  repeat split; reflexivity.
Qed.

Lemma getClosestNodesTo_first_call_witness :
  let ret := fst (getClosestNodesTo 0 [7%N] 7 fresh) in
  let s' := snd (getClosestNodesTo 0 [7%N] 7 fresh) in
  ret = [] /\
  KBucket.get [7%N] (bucket (s' 0)) = Some (Contact.mk [7%N] 7) /\
  getKBucketSize s' 0 = 1 /\
  SortedContactList.entries (getNeightborList s' 0)
  = [SortedContactList.mkEntry (Contact.mk [7%N] 7) false false] /\
  getNumberOfIncomingRpcCalls s' 0 = 1.
Proof.
  apply (getClosestNodesTo_first_call 0 [7%N] 7 fresh).
  reflexivity.
Defined.
End Handshake.

(** * What every round of a lookup does *)

Section Answered.
Import DhtNode.






End Answered.

Section EachRound.
Import DhtNode.

Variable this : NodeRef.
Variable E : Round -> Prop.
Hypothesis E_round :
  forall limit s,
    sound (s this) ->
    E (mkRound (uncontacted limit s this) (s this)
               (findMoreContacts this (uncontacted limit s this) this s this)).


End EachRound.

Section Escalation.
Import DhtNode.


End Escalation.

(** * Duplicate suppression at one node *)

Section Dedup.
Import Gossip.

Lemma recentWithin_elem k i cache : recentWithin k i cache -> i ∈ cache.
Proof. intros (j & _ & Hj). eapply list_elem_of_lookup_2. exact Hj. Qed.

Lemma filter_keeps_position (x i : MessageID) cache j :
  i <> x -> cache !! j = Some i ->
  exists j', j' <= j /\
    List.filter (fun y => negb (bool_decide (y = x))) cache !! j' = Some i.
Proof.
  intros Hne. revert j. induction cache as [|y ys IH]; intros j Hj; [discriminate|].
  simpl. destruct j as [|j]; simpl in Hj.
  - injection Hj as ->. rewrite bool_decide_eq_false_2 by exact Hne.
    exists 0. split; [lia | reflexivity].
  - destruct (IH _ Hj) as (j' & Hle & Hj').
    destruct (bool_decide (y = x)); simpl.
    + exists j'. split; [lia | exact Hj'].
    + exists (S j'). split; [lia | exact Hj'].
Qed.

Lemma checkAndInsert_hit i size cache :
  i ∈ cache -> fst (checkAndInsert i size cache) = false.
Proof.
  intros Hin. unfold checkAndInsert. rewrite bool_decide_eq_true_2 by exact Hin.
  reflexivity.
Qed.

Lemma checkAndInsert_fresh i size cache :
  i ∉ cache ->
  checkAndInsert i size cache = (true, take size (i :: cache)).
Proof.
  intros Hout. unfold checkAndInsert. rewrite bool_decide_eq_false_2 by exact Hout.
  reflexivity.
Qed.

(** Another arrival moves an identity back by one place at most. *)
Lemma checkAndInsert_ages x i size cache k :
  S k < size -> recentWithin k i cache ->
  recentWithin (S k) i (snd (checkAndInsert x size cache)).
Proof.
  intros Hroom (j & Hle & Hj). unfold checkAndInsert.
  destruct (bool_decide (x ∈ cache)); cbn [snd].
  - destruct (decide (i = x)) as [->|Hne].
    + exists 0. split; [lia | reflexivity].
    + destruct (filter_keeps_position x i cache j Hne Hj) as (j' & Hle' & Hj').
      exists (S j'). split; [lia | exact Hj'].
  - exists (S j). split; [lia|].
    rewrite lookup_take_lt by lia. exact Hj.
Qed.

Lemma publish_cacheSize m source n : cacheSize (fst (publish m source n)) = cacheSize n.
Proof.
  unfold publish. destruct (checkAndInsert _ _ _) as [[|] cache];
    [destruct (subscribedTo _ _)|]; reflexivity.
Qed.

Lemma publish_dedupCache m source n :
  dedupCache (fst (publish m source n))
  = snd (checkAndInsert (messageId m) (cacheSize n) (dedupCache n)).
Proof.
  unfold publish. destruct (checkAndInsert _ _ _) as [[|] cache];
    [destruct (subscribedTo _ _)|]; reflexivity.
Qed.

(** A message whose identity is in the cache goes nowhere. *)
Lemma publish_duplicate m source n :
  messageId m ∈ dedupCache n ->
  snd (publish m source n) = [] /\
  delivered (fst (publish m source n)) = delivered n /\
  events (fst (publish m source n)) = events n.
Proof.
  intros Hin. unfold publish.
  pose proof (checkAndInsert_hit _ (cacheSize n) _ Hin) as Hhit.
  destruct (checkAndInsert _ _ _) as [novel cache]. cbn [fst] in Hhit. subst novel.
  repeat split.
Qed.

Lemma publish_deliveries_other m source n i :
  messageId m <> i ->
  deliveriesOf i (fst (publish m source n)) = deliveriesOf i n.
Proof.
  intros Hne. unfold publish, deliveriesOf.
  destruct (checkAndInsert _ _ _) as [[|] cache];
    [destruct (subscribedTo _ _)|]; cbn [fst delivered]; try reflexivity.
  rewrite List.filter_app, length_app. cbn [List.filter].
  rewrite bool_decide_eq_false_2 by exact Hne. cbn. lia.
Qed.

(** While fewer arrivals than the cache has places follow, the identity
    stays in the cache and is not delivered again. *)
Lemma publishAll_keeps i between :
  forall n k,
    k + length between < cacheSize n ->
    recentWithin k i (dedupCache n) ->
    let n' := publishAll between n in
    i ∈ dedupCache n' /\ cacheSize n' = cacheSize n /\
    deliveriesOf i n' = deliveriesOf i n.
Proof.
  induction between as [|[x source] between IH]; intros n k Hroom Hrecent; cbn.
  - split; [eapply recentWithin_elem; exact Hrecent|]. split; reflexivity.
  - cbn [length] in Hroom.
    destruct (IH (fst (publish x source n)) (S k)) as (Hin & Hsize & Hcount).
    + rewrite publish_cacheSize. lia.
    + rewrite publish_dedupCache. apply checkAndInsert_ages; [lia | exact Hrecent].
    + split; [exact Hin|]. split.
      * rewrite <- (publish_cacheSize x source n). exact Hsize.
      * unfold publishAll in Hcount. cbn in Hcount. rewrite Hcount.
        destruct (decide (messageId x = i)) as [Heq|Hne].
        -- unfold deliveriesOf.
           destruct (publish_duplicate x source n) as (_ & -> & _); [|reflexivity].
           rewrite Heq. eapply recentWithin_elem. exact Hrecent.
        -- apply publish_deliveries_other. exact Hne.
Qed.
End Dedup.

Section DedupClaim.
Import Gossip.

Lemma NoDup_List_filter {A} (p : A -> bool) (l : list A) :
  NoDup l -> NoDup (List.filter p l).
Proof.
  induction 1 as [|x l Hx Hl IH]; simpl; [constructor|].
  destruct (p x); [|exact IH]. constructor; [|exact IH].
  intros Hin. apply Hx. apply list_elem_of_In in Hin.
  apply filter_In in Hin as [Hin _]. apply list_elem_of_In. exact Hin.
Qed.

(** C8: a node subscribed to the partition of a message receives the
    message, then fewer other arrivals than its dedup cache has places,
    then the same message again, from any sources.  The listeners get
    the message at the first arrival and not again: deliveries of its
    identity go up by exactly one.  The second arrival is forwarded to
    nobody, so over both arrivals each peer is forwarded to at most
    once, and only neighbors on the message's partition other than the
    first source are. *)
Theorem duplicate_delivery_is_suppressed
        (n : Node) (m : StreamMessage) (source1 source2 : option PeerId)
        (between : list (StreamMessage * option PeerId)) :
  length between < cacheSize n ->
  messageId m ∉ dedupCache n ->
  subscribedTo (partOf m) n = true ->
  let n1 := fst (publish m source1 n) in
  let forwards1 := snd (publish m source1 n) in
  let n' := publishAll between n1 in
  let n2 := fst (publish m source2 n') in
  let forwards2 := snd (publish m source2 n') in
  delivered n1 = delivered n ++ [m] /\
  deliveriesOf (messageId m) n2 = S (deliveriesOf (messageId m) n) /\
  delivered n2 = delivered n' /\
  forwards2 = [] /\
  NoDup (forwards1 ++ forwards2) /\
  (forall p, p ∈ forwards1 ++ forwards2 ->
             p ∈ neighborsOn (partOf m) n /\ source1 <> Some p).
Proof.
  intros Hroom Hfresh Hsub n1 forwards1 n' n2 forwards2.
  assert (Hfirst : publish m source1 n
                   = (mkNode (states n) (subscriptions n) (connections n)
                             (cacheSize n)
                             (take (cacheSize n) (messageId m :: dedupCache n))
                             (delivered n ++ [m])
                             (events n ++ [UNSEEN_MESSAGE_RECEIVED m]),
                      List.filter (fun p => negb (bool_decide (source1 = Some p)))
                                  (elements (neighborsOn (partOf m) n)))).
  { unfold publish. rewrite checkAndInsert_fresh by exact Hfresh.
    rewrite Hsub. reflexivity. }
  assert (Hrecent : recentWithin 0 (messageId m) (dedupCache n1)).
  { unfold n1. rewrite Hfirst. cbn [fst dedupCache].
    exists 0. split; [lia|]. destruct (cacheSize n); [lia | reflexivity]. }
  destruct (publishAll_keeps (messageId m) between n1 0) as (Hin & _ & Hcount).
  { unfold n1. rewrite publish_cacheSize. lia. }
  { exact Hrecent. }
  fold n' in Hin, Hcount.
  destruct (publish_duplicate m source2 n' Hin) as (Hnone & Hsame & _).
  fold n2 in Hsame. fold forwards2 in Hnone.
  assert (Hf1 : forwards1
                = List.filter (fun p => negb (bool_decide (source1 = Some p)))
                              (elements (neighborsOn (partOf m) n))).
  { unfold forwards1. rewrite Hfirst. reflexivity. }
  split; [unfold n1; rewrite Hfirst; reflexivity|].
  split.
  { unfold deliveriesOf in *. rewrite Hsame, Hcount. unfold n1. rewrite Hfirst.
    cbn [fst delivered]. rewrite List.filter_app, length_app. cbn [List.filter].
    rewrite bool_decide_eq_true_2 by reflexivity. cbn. lia. }
  split; [exact Hsame|]. split; [exact Hnone|].
  rewrite Hnone, app_nil_r, Hf1. split.
  - apply NoDup_List_filter, NoDup_elements.
  - intros p Hp. apply list_elem_of_In in Hp. apply filter_In in Hp as [Hp Hsrc].
    split.
    + apply elem_of_elements, list_elem_of_In. exact Hp.
    + apply negb_true_iff, bool_decide_eq_false in Hsrc. exact Hsrc.
Qed.
End DedupClaim.

(** * Two neighbors and one shared connection *)

Section Pair.
Import Gossip.

Lemma publish_received m source n :
  messageId m ∉ dedupCache n -> subscribedTo (partOf m) n = true ->
  publish m source n
  = (received m n,
     List.filter (fun p => negb (bool_decide (source = Some p)))
                 (elements (neighborsOn (partOf m) n))).
Proof.
  intros Hfresh Hsub. unfold publish.
  rewrite checkAndInsert_fresh by exact Hfresh. rewrite Hsub. reflexivity.
Qed.

Lemma publish_noted m source n :
  messageId m ∉ dedupCache n -> subscribedTo (partOf m) n = false ->
  publish m source n
  = (noted m n,
     List.filter (fun p => negb (bool_decide (source = Some p)))
                 (elements (neighborsOn (partOf m) n))).
Proof.
  intros Hfresh Hsub. unfold publish.
  rewrite checkAndInsert_fresh by exact Hfresh. rewrite Hsub. reflexivity.
Qed.

Lemma not_elem_of_take_cons (i j : MessageID) size cache :
  i <> j -> i ∉ cache -> i ∉ take size (j :: cache).
Proof.
  intros Hne Hout Hin.
  assert (Hin' : i ∈ j :: cache).
  { eapply elem_of_sublist; [exact Hin | apply sublist_take]. }
  apply elem_of_cons in Hin' as [?|?]; contradiction.
Qed.

Variables (s : string) (A B : PeerId).
Hypothesis HAB : A <> B.

Lemma part_ne : ((s, 1) : StreamPart) <> (s, 2).
Proof. discriminate. Qed.

Lemma paired_neighbors1 peer n : pairedOn s peer n -> neighborsOn (s, 1) n = {[peer]}.
Proof.
  intros [Hsubs _]. unfold neighborsOn. rewrite Hsubs.
  rewrite lookup_insert_eq. reflexivity.
Qed.

Lemma paired_neighbors2 peer n : pairedOn s peer n -> neighborsOn (s, 2) n = {[peer]}.
Proof.
  intros [Hsubs _]. unfold neighborsOn. rewrite Hsubs.
  rewrite lookup_insert_ne by apply part_ne.
  rewrite lookup_singleton_eq. reflexivity.
Qed.

Lemma delete_second (peer : PeerId) :
  delete (s, 2) ({[ (s, 1) := {[peer]}; (s, 2) := {[peer]} ]}
                 : gmap StreamPart (gset PeerId))
  = {[ (s, 1) := {[peer]} ]}.
Proof.
  rewrite delete_insert_ne by (intros E; symmetry in E; exact (part_ne E)).
  rewrite delete_singleton_eq. apply insert_empty.
Qed.

Lemma shares_first peer sts conns size cache del evs :
  sharesPartition peer
    (mkNode sts {[ (s, 1) := {[peer]} ]} conns size cache del evs).
Proof.
  exists (s, 1), {[peer]}. split; [apply lookup_singleton_eq | set_solver].
Qed.

Lemma unsubscribe_paired nodeA nodeB :
  pairedOn s B nodeA -> pairedOn s A nodeB ->
  unsubscribe B (s, 2) {[ A := nodeA; B := nodeB ]}
  = {[ A := onlyFirst s B [NODE_UNSUBSCRIBED B (s, 2)] nodeA;
       B := onlyFirst s A [] (withState (s, 2) UNSUBSCRIBED nodeB) ]}.
Proof.
  intros HA HB. unfold unsubscribe.
  rewrite lookup_insert_ne by exact HAB. rewrite lookup_singleton_eq.
  rewrite (paired_neighbors2 _ _ HB), elements_singleton. cbn [foldr].
  assert (HnA : onUnsubscribeRequest B (s, 2) nodeA
                = onlyFirst s B [NODE_UNSUBSCRIBED B (s, 2)] nodeA).
  { unfold onUnsubscribeRequest. rewrite (paired_neighbors2 _ _ HA).
    rewrite decide_True by apply difference_diag_L.
    destruct HA as [-> _]. rewrite delete_second.
    unfold closeIfUnshared. rewrite decide_True by apply shares_first.
    reflexivity. }
  assert (HnB : closeIfUnshared A
                  (mkNode (<[(s, 2) := UNSUBSCRIBED]> (states nodeB))
                          (delete (s, 2) (subscriptions nodeB)) (connections nodeB)
                          (cacheSize nodeB) (dedupCache nodeB) (delivered nodeB)
                          (events nodeB))
                = onlyFirst s A [] (withState (s, 2) UNSUBSCRIBED nodeB)).
  { destruct HB as [-> _]. rewrite delete_second.
    unfold closeIfUnshared. rewrite decide_True by apply shares_first.
    unfold onlyFirst. rewrite app_nil_r. reflexivity. }
  rewrite HnB.
  apply map_eq. intros k.
  destruct (decide (k = A)) as [->|HkA]; [|destruct (decide (k = B)) as [->|HkB]].
  - rewrite lookup_insert_ne by (intros E; apply HAB; symmetry; exact E).
    rewrite lookup_alter_eq, !lookup_insert_eq. cbn. rewrite HnA. reflexivity.
  - rewrite lookup_insert_eq, lookup_insert_ne by exact HAB.
    rewrite lookup_singleton_eq. reflexivity.
  - rewrite !lookup_insert_ne by (intros E; symmetry in E; contradiction).
    rewrite lookup_alter_ne by (intros E; symmetry in E; contradiction).
    rewrite !lookup_insert_ne by (intros E; symmetry in E; contradiction).
    rewrite !lookup_singleton_ne by (intros E; symmetry in E; contradiction).
    reflexivity.
Qed.

Lemma onlyFirst_neighbors1 peer evs n : neighborsOn (s, 1) (onlyFirst s peer evs n) = {[peer]}.
Proof. unfold neighborsOn. cbn. rewrite lookup_singleton_eq. reflexivity. Qed.

Lemma onlyFirst_neighbors2 peer evs n : neighborsOn (s, 2) (onlyFirst s peer evs n) = ∅.
Proof.
  unfold neighborsOn. cbn. rewrite lookup_singleton_ne by apply part_ne. reflexivity.
Qed.

End Pair.

(** * Propagation in a network of any shape *)

Section PublishFacts.
Import Gossip.

Lemma publish_keeps m source n :
  states (fst (publish m source n)) = states n /\
  subscriptions (fst (publish m source n)) = subscriptions n /\
  connections (fst (publish m source n)) = connections n /\
  cacheSize (fst (publish m source n)) = cacheSize n.
Proof.
  unfold publish. destruct (checkAndInsert _ _ _) as [[|] cache];
    [destruct (subscribedTo _ _)|]; repeat split.
Qed.

Lemma publish_stateOf m source n sp :
  stateOf sp (fst (publish m source n)) = stateOf sp n.
Proof. unfold stateOf. destruct (publish_keeps m source n) as [-> _]. reflexivity. Qed.

Lemma publish_subscribedTo m source n sp :
  subscribedTo sp (fst (publish m source n)) = subscribedTo sp n.
Proof. unfold subscribedTo. rewrite publish_stateOf. reflexivity. Qed.

Lemma publish_neighborsOn m source n sp :
  neighborsOn sp (fst (publish m source n)) = neighborsOn sp n.
Proof.
  unfold neighborsOn. destruct (publish_keeps m source n) as (_ & -> & _). reflexivity.
Qed.

Lemma publish_unsubscribed m source n :
  subscribedTo (partOf m) n = false ->
  delivered (fst (publish m source n)) = delivered n.
Proof.
  intros Hsub. unfold publish. destruct (checkAndInsert _ _ _) as [[|] cache];
    [rewrite Hsub|]; reflexivity.
Qed.

Lemma publish_events m source n :
  exists extra,
    events (fst (publish m source n)) = events n ++ extra /\
    Forall (fun e => e = UNSEEN_MESSAGE_RECEIVED m) extra.
Proof.
  unfold publish. destruct (checkAndInsert _ _ _) as [[|] cache];
    [destruct (subscribedTo _ _)|]; cbn [fst events].
  - eexists. split; [reflexivity|]. constructor; [reflexivity | constructor].
  - exists []. rewrite app_nil_r. split; [reflexivity | constructor].
  - exists []. rewrite app_nil_r. split; [reflexivity | constructor].
Qed.

Lemma publish_cache_other i m source n :
  i <> messageId m -> i ∉ dedupCache n ->
  i ∉ dedupCache (fst (publish m source n)).
Proof.
  intros Hne Hout. rewrite publish_dedupCache. unfold checkAndInsert.
  destruct (bool_decide (messageId m ∈ dedupCache n)); cbn [snd].
  - apply not_elem_of_cons. split; [exact Hne|].
    intros Hin. apply Hout. apply list_elem_of_In in Hin.
    apply filter_In in Hin as [Hin _]. apply list_elem_of_In. exact Hin.
  - apply not_elem_of_take_cons; assumption.
Qed.

Lemma publish_cache_holds m source n :
  1 <= cacheSize n -> messageId m ∈ dedupCache (fst (publish m source n)).
Proof.
  intros Hsize. rewrite publish_dedupCache. unfold checkAndInsert.
  destruct (bool_decide (messageId m ∈ dedupCache n)); cbn [snd]; [left|].
  destruct (cacheSize n); [lia|]. left.
Qed.

Lemma publish_carries m source n :
  forall sender : PeerId,
    Forall (fun item : PeerId * PeerId * StreamMessage => item.2 = m)
           (map (fun p => (p, sender, m)) (snd (publish m source n))).
Proof. intros sender. apply Forall_map. apply Forall_forall. reflexivity. Qed.
End PublishFacts.

Section RelayFacts.
Import Gossip.

Lemma relay_step fuel target source m rest (net : gmap string Node) :
  relay (S fuel) ((target, source, m) :: rest) net
  = match net !! target with
    | None => relay fuel rest net
    | Some n =>
        relay fuel (rest ++ map (fun p => (p, target, m))
                                (snd (publish m (Some source) n)))
              (<[target := fst (publish m (Some source) n)]> net)
    end.
Proof.
  cbn [relay]. destruct (net !! target) as [n|]; [|reflexivity].
  destruct (publish m (Some source) n) as [n' targets]. reflexivity.
Qed.

(** What every arrival of the message keeps true of the node named
    [p], the propagation keeps true of it. *)
Lemma relay_invariant (P : PeerId -> Node -> Prop) m :
  (forall p source n, P p n -> P p (fst (publish m source n))) ->
  forall fuel inFlight (net : gmap string Node),
    Forall (fun item : PeerId * PeerId * StreamMessage => item.2 = m) inFlight ->
    (forall p n, net !! p = Some n -> P p n) ->
    forall p n, relay fuel inFlight net !! p = Some n -> P p n.
Proof.
  intros Hkeep. induction fuel as [|fuel IH]; intros inFlight net Hm Hnet p n.
  - cbn [relay]. apply Hnet.
  - destruct inFlight as [|[[target source] m'] rest]; [cbn [relay]; apply Hnet|].
    inversion Hm as [|? ? Hhead Hrest]; subst. cbn [snd] in *.
    rewrite relay_step. destruct (net !! target) as [nt|] eqn:Ht.
    + apply IH.
      * apply Forall_app. split; [exact Hrest | apply publish_carries].
      * intros q nq Hq. destruct (decide (q = target)) as [->|Hne].
        -- rewrite lookup_insert_eq in Hq. injection Hq as <-.
           apply Hkeep. apply Hnet. exact Ht.
        -- rewrite lookup_insert_ne in Hq by (intros E; apply Hne; symmetry; exact E).
           apply Hnet. exact Hq.
    + apply IH; assumption.
Qed.

(** The propagation adds no node and removes none. *)
Lemma relay_present fuel :
  forall inFlight (net : gmap string Node) p,
    is_Some (net !! p) -> is_Some (relay fuel inFlight net !! p).
Proof.
  induction fuel as [|fuel IH]; intros inFlight net p Hp; [exact Hp|].
  destruct inFlight as [|[[target source] m] rest]; [exact Hp|].
  rewrite relay_step. destruct (net !! target) as [nt|] eqn:Ht.
  - apply IH. destruct (decide (p = target)) as [->|Hne].
    + rewrite lookup_insert_eq. eexists; reflexivity.
    + rewrite lookup_insert_ne by (intros E; apply Hne; symmetry; exact E). exact Hp.
  - apply IH. exact Hp.
Qed.

(** The first arrival of a message at a subscribed node that has not
    seen it hands it to the listeners; a node that keeps at least one
    identity hands it over once. *)
Lemma relay_reaches m B :
  forall before fuel source after (net : gmap string Node) nodeB,
    Forall (fun item : PeerId * PeerId * StreamMessage => item.2 = m)
           (before ++ (B, source, m) :: after) ->
    Forall (fun item : PeerId * PeerId * StreamMessage => item.1.1 <> B) before ->
    length before < fuel ->
    net !! B = Some nodeB ->
    messageId m ∉ dedupCache nodeB ->
    subscribedTo (partOf m) nodeB = true ->
    1 <= cacheSize nodeB ->
    exists b,
      relay fuel (before ++ (B, source, m) :: after) net !! B = Some b /\
      delivered b = delivered nodeB ++ [m].
Proof.
  induction before as [|[[target source'] m'] before IH];
    intros fuel source after net nodeB Hm Hother Hfuel HB Hfresh Hsub Hsize.
  - destruct fuel as [|fuel]; [cbn in Hfuel; lia|].
    cbn [app]. rewrite relay_step, HB.
    rewrite (publish_received m (Some source) nodeB Hfresh Hsub). cbn [fst snd].
    set (net1 := <[B := received m nodeB]> net).
    set (queue := after ++ _).
    destruct (relay_present fuel queue net1 B) as [b Hb].
    { unfold net1. rewrite lookup_insert_eq. eexists; reflexivity. }
    exists b. split; [exact Hb|].
    apply (relay_invariant
             (fun p n => p = B ->
                         messageId m ∈ dedupCache n /\
                         delivered n = delivered nodeB ++ [m]) m)
      with (fuel := fuel) (inFlight := queue) (net := net1) (p := B) (n := b);
      [| | |exact Hb|reflexivity].
    + intros p src n Hn ->. destruct (Hn eq_refl) as [Hin Hdel]. split.
      * rewrite publish_dedupCache. unfold checkAndInsert.
        rewrite bool_decide_eq_true_2 by exact Hin. left.
      * destruct (publish_duplicate m src n Hin) as (_ & -> & _). exact Hdel.
    + unfold queue. apply Forall_app. split.
      * cbn [app] in Hm. inversion Hm; assumption.
      * apply Forall_map. apply Forall_forall. reflexivity.
    + intros p n Hp ->. unfold net1 in Hp. rewrite lookup_insert_eq in Hp.
      injection Hp as <-. cbn [received dedupCache delivered]. split; [|reflexivity].
      destruct (cacheSize nodeB); [lia|]. left.
  - destruct fuel as [|fuel]; [cbn in Hfuel; lia|].
    cbn [length] in Hfuel.
    inversion Hm as [|? ? Hhead Hrest]. cbn [snd] in Hhead. subst.
    inversion Hother as [|? ? Hne Hother']. cbn [fst] in Hne. subst.
    cbn [app]. rewrite relay_step. destruct (net !! target) as [nt|] eqn:Ht.
    + rewrite <- app_assoc. cbn [app].
      apply IH; try assumption; [|lia|].
      * rewrite app_comm_cons, app_assoc. apply Forall_app.
        split; [exact Hrest | apply publish_carries].
      * rewrite lookup_insert_ne by exact Hne. exact HB.
    + apply IH; try assumption. lia.
Qed.
End RelayFacts.

Section PublishToNodeFacts.
Import Gossip.

Lemma publishToNode_unfold fuel self m (net : gmap string Node) :
  publishToNode fuel self m net
  = match net !! self with
    | None => net
    | Some n =>
        relay fuel (map (fun p => (p, self, m)) (snd (publish m None n)))
              (<[self := fst (publish m None n)]> net)
    end.
Proof.
  unfold publishToNode. destruct (net !! self) as [n|]; [|reflexivity].
  destruct (publish m None n) as [n' targets]. reflexivity.
Qed.

Lemma publishToNode_invariant (P : PeerId -> Node -> Prop) m :
  (forall p source n, P p n -> P p (fst (publish m source n))) ->
  forall fuel self (net : gmap string Node),
    (forall p n, net !! p = Some n -> P p n) ->
    forall p n, publishToNode fuel self m net !! p = Some n -> P p n.
Proof.
  intros Hkeep fuel self net Hnet p n. rewrite publishToNode_unfold.
  destruct (net !! self) as [ns|] eqn:Hself; [|apply Hnet].
  apply (relay_invariant P m Hkeep).
  - apply publish_carries.
  - intros q nq Hq. destruct (decide (q = self)) as [->|Hne].
    + rewrite lookup_insert_eq in Hq. injection Hq as <-.
      apply Hkeep. apply Hnet. exact Hself.
    + rewrite lookup_insert_ne in Hq by (intros E; apply Hne; symmetry; exact E).
      apply Hnet. exact Hq.
Qed.

Lemma publishToNode_present fuel self m (net : gmap string Node) p :
  is_Some (net !! p) -> is_Some (publishToNode fuel self m net !! p).
Proof.
  intros Hp. rewrite publishToNode_unfold.
  destruct (net !! self) as [ns|] eqn:Hself; [|exact Hp].
  apply relay_present. destruct (decide (p = self)) as [->|Hne].
  - rewrite lookup_insert_eq. eexists; reflexivity.
  - rewrite lookup_insert_ne by (intros E; apply Hne; symmetry; exact E). exact Hp.
Qed.

(** What a propagation leaves of a node: its states, neighbors,
    connections and cache size; the absence from its cache of every
    other identity; its events but for received messages; and its
    deliveries if it is not subscribed to the partition. *)
Lemma publishToNode_keeps fuel self m (net : gmap string Node) p n0 :
  net !! p = Some n0 ->
  exists n,
    publishToNode fuel self m net !! p = Some n /\
    states n = states n0 /\ subscriptions n = subscriptions n0 /\
    connections n = connections n0 /\ cacheSize n = cacheSize n0 /\
    (forall i, i <> messageId m -> i ∉ dedupCache n0 -> i ∉ dedupCache n) /\
    (exists extra, events n = events n0 ++ extra /\
                   Forall (fun e => e = UNSEEN_MESSAGE_RECEIVED m) extra) /\
    (subscribedTo (partOf m) n0 = false -> delivered n = delivered n0).
Proof.
  intros Hp.
  destruct (publishToNode_present fuel self m net p) as [n Hn];
    [rewrite Hp; eexists; reflexivity|].
  exists n. split; [exact Hn|].
  apply (publishToNode_invariant
           (fun q nq =>
              q = p ->
              states nq = states n0 /\ subscriptions nq = subscriptions n0 /\
              connections nq = connections n0 /\ cacheSize nq = cacheSize n0 /\
              (forall i, i <> messageId m -> i ∉ dedupCache n0 -> i ∉ dedupCache nq) /\
              (exists extra, events nq = events n0 ++ extra /\
                             Forall (fun e => e = UNSEEN_MESSAGE_RECEIVED m) extra) /\
              (subscribedTo (partOf m) n0 = false -> delivered nq = delivered n0)) m)
    with (fuel := fuel) (self := self) (net := net) (p := p) (n := n);
    [| |exact Hn|reflexivity].
  - intros q source nq Hq ->.
    destruct (Hq eq_refl) as (Hst & Hsubs & Hconn & Hsize & Hcache & Hev & Hdel).
    destruct (publish_keeps m source nq) as (Hst' & Hsubs' & Hconn' & Hsize').
    split; [congruence|]. split; [congruence|]. split; [congruence|].
    split; [congruence|]. split; [|split].
    + intros i Hne Hout. apply publish_cache_other; [exact Hne|]. apply Hcache; assumption.
    + destruct Hev as (extra & Hextra & Hall).
      destruct (publish_events m source nq) as (extra' & Hextra' & Hall').
      exists (extra ++ extra'). rewrite Hextra', Hextra, app_assoc.
      split; [reflexivity|]. apply Forall_app. split; assumption.
    + intros Hsub. rewrite publish_unsubscribed; [apply Hdel, Hsub|].
      unfold subscribedTo, stateOf in *. rewrite Hst. exact Hsub.
  - intros q nq Hq ->. rewrite Hp in Hq. injection Hq as <-.
    repeat (split; [reflexivity|]). split; [intros; assumption|].
    split; [|reflexivity]. exists []. rewrite app_nil_r. split; [reflexivity|constructor].
Qed.

Lemma filter_no_source (l : list PeerId) :
  List.filter (fun p => negb (bool_decide (@None PeerId = Some p))) l = l.
Proof.
  induction l as [|x l IH]; [reflexivity|]. cbn [List.filter].
  rewrite bool_decide_eq_false_2 by discriminate. cbn [negb]. rewrite IH. reflexivity.
Qed.

Lemma publish_first_targets m n :
  messageId m ∉ dedupCache n ->
  snd (publish m None n) = elements (neighborsOn (partOf m) n).
Proof.
  intros Hfresh. unfold publish. rewrite checkAndInsert_fresh by exact Hfresh.
  destruct (subscribedTo _ _); cbn [snd]; apply filter_no_source.
Qed.

(** A message that a node publishes for the first time reaches every
    neighbor it has on the partition, given one turn for each. *)
Lemma publishToNode_reaches fuel A B m (net : gmap string Node) nodeA nodeB :
  A <> B ->
  net !! A = Some nodeA -> net !! B = Some nodeB ->
  messageId m ∉ dedupCache nodeA ->
  B ∈ neighborsOn (partOf m) nodeA ->
  size (neighborsOn (partOf m) nodeA) <= fuel ->
  messageId m ∉ dedupCache nodeB ->
  subscribedTo (partOf m) nodeB = true ->
  1 <= cacheSize nodeB ->
  exists b,
    publishToNode fuel A m net !! B = Some b /\
    delivered b = delivered nodeB ++ [m].
Proof.
  intros HAB HA HB HfreshA Hneighbor Hfuel HfreshB Hsub Hsize.
  rewrite publishToNode_unfold, HA, (publish_first_targets m nodeA HfreshA).
  assert (HBin : B ∈ elements (neighborsOn (partOf m) nodeA))
    by (apply elem_of_elements; exact Hneighbor).
  destruct (list_elem_of_split_l _ _ HBin) as (l1 & l2 & Hsplit & Hfirst).
  assert (Hlen : length l1 < fuel).
  { unfold size, set_size in Hfuel. cbn in Hfuel.
    apply (f_equal length) in Hsplit. rewrite length_app in Hsplit.
    cbn [length] in Hsplit. lia. }
  rewrite Hsplit, map_app. cbn [map].
  apply relay_reaches; try assumption.
  - apply Forall_app. split; [apply Forall_map, Forall_forall; reflexivity|].
    constructor; [reflexivity|]. apply Forall_map, Forall_forall. reflexivity.
  - apply Forall_map. apply Forall_forall. intros x Hx. cbn [fst].
    intros ->. exact (Hfirst Hx).
  - rewrite length_map. exact Hlen.
  - rewrite lookup_insert_ne by exact HAB. exact HB.
Qed.

(** A node that publishes a message for the first time on a partition
    it is subscribed to hands it to its own listeners, once. *)
Lemma publishToNode_publisher fuel A m (net : gmap string Node) nodeA :
  net !! A = Some nodeA ->
  messageId m ∉ dedupCache nodeA ->
  subscribedTo (partOf m) nodeA = true ->
  1 <= cacheSize nodeA ->
  exists a,
    publishToNode fuel A m net !! A = Some a /\
    delivered a = delivered nodeA ++ [m].
Proof.
  intros HA Hfresh Hsub Hsize.
  destruct (publishToNode_present fuel A m net A) as [a Ha];
    [rewrite HA; eexists; reflexivity|].
  exists a. split; [exact Ha|].
  rewrite publishToNode_unfold, HA in Ha.
  rewrite (publish_received m None nodeA Hfresh Hsub) in Ha. cbn [fst snd] in Ha.
  apply (relay_invariant
           (fun p n => p = A ->
                       messageId m ∈ dedupCache n /\
                       delivered n = delivered nodeA ++ [m]) m)
    with (fuel := fuel)
         (inFlight := map (fun p => (p, A, m))
                          (List.filter (fun p => negb (bool_decide (@None PeerId = Some p)))
                                       (elements (neighborsOn (partOf m) nodeA))))
         (net := <[A := received m nodeA]> net) (p := A) (n := a);
    [| | |exact Ha|reflexivity].
  - intros p src n Hn ->. destruct (Hn eq_refl) as [Hin Hdel]. split.
    + rewrite publish_dedupCache. unfold checkAndInsert.
      rewrite bool_decide_eq_true_2 by exact Hin. left.
    + destruct (publish_duplicate m src n Hin) as (_ & -> & _). exact Hdel.
  - apply Forall_map. apply Forall_forall. reflexivity.
  - intros p n Hp ->. rewrite lookup_insert_eq in Hp.
    injection Hp as <-. cbn [received dedupCache delivered]. split; [|reflexivity].
    destruct (cacheSize nodeA); [lia|]. left.
Qed.
End PublishToNodeFacts.

Section UnsubscribeFacts.
Import Gossip.

Lemma neighborsOn_elem sp peer n :
  peer ∈ neighborsOn sp n ->
  exists peers, subscriptions n !! sp = Some peers /\ peer ∈ peers.
Proof.
  unfold neighborsOn. destruct (subscriptions n !! sp) as [peers|]; cbn.
  - intros Hin. exists peers. split; [reflexivity | exact Hin].
  - intros Hin. exfalso. set_solver.
Qed.

Lemma closeIfUnshared_keeps peer n :
  states (closeIfUnshared peer n) = states n /\
  subscriptions (closeIfUnshared peer n) = subscriptions n /\
  cacheSize (closeIfUnshared peer n) = cacheSize n /\
  dedupCache (closeIfUnshared peer n) = dedupCache n /\
  delivered (closeIfUnshared peer n) = delivered n.
Proof. unfold closeIfUnshared. destruct (decide _); repeat split. Qed.

Lemma sharesPartition_same peer n n' :
  subscriptions n' = subscriptions n -> sharesPartition peer n -> sharesPartition peer n'.
Proof. unfold sharesPartition. intros ->. trivial. Qed.

(** Closing unshared connections keeps the connection to a peer that
    shares a partition, and emits no disconnection of it. *)
Lemma closeIfUnshared_spares x peer n :
  sharesPartition x n ->
  (x ∈ connections n -> x ∈ connections (closeIfUnshared peer n)) /\
  exists extra, events (closeIfUnshared peer n) = events n ++ extra /\
                NODE_DISCONNECTED x ∉ extra.
Proof.
  intros Hx. unfold closeIfUnshared. destruct (decide (sharesPartition peer n)) as [|Hno].
  - split; [trivial|]. exists []. rewrite app_nil_r. split; [reflexivity|].
    apply not_elem_of_nil.
  - assert (Hne : x <> peer) by (intros ->; contradiction).
    cbn [connections events]. split.
    + intros Hin. apply elem_of_difference. split; [exact Hin|].
      intros E. apply elem_of_singleton in E. contradiction.
    + eexists. split; [reflexivity|]. intros E.
      apply list_elem_of_singleton in E. injection E as E. contradiction.
Qed.

Lemma foldr_closeIfUnshared_keeps peers n :
  states (foldr closeIfUnshared n peers) = states n /\
  subscriptions (foldr closeIfUnshared n peers) = subscriptions n /\
  cacheSize (foldr closeIfUnshared n peers) = cacheSize n /\
  dedupCache (foldr closeIfUnshared n peers) = dedupCache n /\
  delivered (foldr closeIfUnshared n peers) = delivered n.
Proof.
  induction peers as [|peer peers IH]; cbn [foldr]; [repeat split|].
  destruct IH as (H1 & H2 & H3 & H4 & H5).
  destruct (closeIfUnshared_keeps peer (foldr closeIfUnshared n peers))
    as (G1 & G2 & G3 & G4 & G5).
  repeat split; congruence.
Qed.

Lemma foldr_closeIfUnshared_spares x peers n :
  sharesPartition x n ->
  (x ∈ connections n -> x ∈ connections (foldr closeIfUnshared n peers)) /\
  exists extra, events (foldr closeIfUnshared n peers) = events n ++ extra /\
                NODE_DISCONNECTED x ∉ extra.
Proof.
  intros Hx. induction peers as [|peer peers IH]; cbn [foldr].
  - split; [trivial|]. exists []. rewrite app_nil_r. split; [reflexivity|].
    apply not_elem_of_nil.
  - destruct IH as [Hconn (extra & Hev & Hnone)].
    destruct (closeIfUnshared_spares x peer (foldr closeIfUnshared n peers))
      as [Hconn' (extra' & Hev' & Hnone')].
    { eapply sharesPartition_same; [|exact Hx].
      apply foldr_closeIfUnshared_keeps. }
    split; [intros Hin; apply Hconn', Hconn, Hin|].
    exists (extra ++ extra'). rewrite Hev', Hev, app_assoc. split; [reflexivity|].
    intros E. apply elem_of_app in E as [E|E]; contradiction.
Qed.

(** What an unsubscribe request of [peer] for [sp] leaves of the node
    that takes it. *)
Lemma onUnsubscribeRequest_keeps peer sp n :
  states (onUnsubscribeRequest peer sp n) = states n /\
  cacheSize (onUnsubscribeRequest peer sp n) = cacheSize n /\
  dedupCache (onUnsubscribeRequest peer sp n) = dedupCache n /\
  delivered (onUnsubscribeRequest peer sp n) = delivered n /\
  forall sp', sp' <> sp ->
              neighborsOn sp' (onUnsubscribeRequest peer sp n) = neighborsOn sp' n.
Proof.
  unfold onUnsubscribeRequest. cbv zeta.
  match goal with |- context [closeIfUnshared peer ?x] =>
    set (inner := x);
    destruct (closeIfUnshared_keeps peer inner) as (H1 & H2 & H3 & H4 & H5) end.
  rewrite H1, H3, H4, H5. repeat (split; [reflexivity|]).
  intros sp' Hne. unfold neighborsOn. rewrite H2. unfold inner. cbn [subscriptions].
  destruct (decide _).
  - rewrite lookup_delete_ne by (intros E; apply Hne; symmetry; exact E). reflexivity.
  - rewrite lookup_insert_ne by (intros E; apply Hne; symmetry; exact E). reflexivity.
Qed.

Lemma onUnsubscribeRequest_spares peer sp sp' n :
  sp' <> sp -> peer ∈ neighborsOn sp' n ->
  connections (onUnsubscribeRequest peer sp n) = connections n /\
  events (onUnsubscribeRequest peer sp n) = events n ++ [NODE_UNSUBSCRIBED peer sp].
Proof.
  intros Hne Hshared. unfold onUnsubscribeRequest, closeIfUnshared. cbv zeta.
  rewrite decide_True; [split; reflexivity|].
  destruct (neighborsOn_elem _ _ _ Hshared) as (peers & Hpeers & Hin).
  exists sp', peers. split; [|exact Hin]. cbn [subscriptions].
  destruct (decide _).
  - rewrite lookup_delete_ne by (intros E; apply Hne; symmetry; exact E). exact Hpeers.
  - rewrite lookup_insert_ne by (intros E; apply Hne; symmetry; exact E). exact Hpeers.
Qed.

Lemma foldr_alter_lookup (f : Node -> Node) (peers : list PeerId)
      (net : gmap string Node) p :
  NoDup peers ->
  foldr (fun peer acc => alter f peer acc) net peers !! p
  = if decide (p ∈ peers) then f <$> net !! p else net !! p.
Proof.
  induction 1 as [|peer peers Hnew Hnodup IH]; cbn [foldr].
  - rewrite decide_False by apply not_elem_of_nil. reflexivity.
  - destruct (decide (p = peer)) as [->|Hne].
    + rewrite lookup_alter_eq, IH.
      rewrite (decide_False (P := peer ∈ peers)) by exact Hnew.
      rewrite decide_True by left. reflexivity.
    + rewrite lookup_alter_ne by (intros E; apply Hne; symmetry; exact E).
      rewrite IH. destruct (decide (p ∈ peers)) as [Hin|Hout].
      * rewrite decide_True by (right; exact Hin). reflexivity.
      * rewrite decide_False; [reflexivity|].
        intros E. apply elem_of_cons in E as [E|E]; contradiction.
Qed.

(** The node that unsubscribes. *)
Lemma unsubscribe_self B sp (net : gmap string Node) nodeB :
  net !! B = Some nodeB ->
  unsubscribe B sp net !! B
  = Some (foldr closeIfUnshared
                (mkNode (<[sp := UNSUBSCRIBED]> (states nodeB))
                        (delete sp (subscriptions nodeB)) (connections nodeB)
                        (cacheSize nodeB) (dedupCache nodeB) (delivered nodeB)
                        (events nodeB))
                (elements (neighborsOn sp nodeB))).
Proof. intros HB. unfold unsubscribe. rewrite HB. apply lookup_insert_eq. Qed.

(** Every other node: as it was, or after the request. *)
Lemma unsubscribe_other B sp (net : gmap string Node) p :
  p <> B ->
  unsubscribe B sp net !! p = net !! p \/
  unsubscribe B sp net !! p = onUnsubscribeRequest B sp <$> net !! p.
Proof.
  intros Hne. unfold unsubscribe. destruct (net !! B) as [nodeB|]; [|left; reflexivity].
  rewrite lookup_insert_ne by (intros E; apply Hne; symmetry; exact E).
  rewrite foldr_alter_lookup by apply NoDup_elements.
  destruct (decide _); [right | left]; reflexivity.
Qed.

Lemma agreeOff_refl sp n : agreeOff sp n n.
Proof. repeat split. Qed.

(** Off the partition, the network after the unsubscription is the
    network before it. *)
Lemma unsubscribe_agreeOff B sp (net : gmap string Node) p :
  option_Forall2 (agreeOff sp) (net !! p) (unsubscribe B sp net !! p).
Proof.
  destruct (decide (p = B)) as [->|Hne].
  - destruct (net !! B) as [nodeB|] eqn:HB.
    + rewrite (unsubscribe_self B sp net nodeB HB). constructor.
      match goal with |- context [foldr closeIfUnshared ?x ?l] =>
        destruct (foldr_closeIfUnshared_keeps l x) as (H1 & H2 & H3 & H4 & H5);
        set (b1 := foldr closeIfUnshared x l) in * end.
      unfold agreeOff. rewrite H3, H4, H5. repeat (split; [reflexivity|]).
      intros sp' Hsp. unfold neighborsOn, stateOf. rewrite H1, H2.
      cbn [states subscriptions].
      rewrite lookup_delete_ne by (intros E; apply Hsp; symmetry; exact E).
      rewrite lookup_insert_ne by (intros E; apply Hsp; symmetry; exact E).
      split; reflexivity.
    + unfold unsubscribe. rewrite HB, HB. constructor.
  - destruct (unsubscribe_other B sp net p Hne) as [->| ->].
    + destruct (net !! p); constructor. apply agreeOff_refl.
    + destruct (net !! p) as [n|]; constructor.
      destruct (onUnsubscribeRequest_keeps B sp n) as (H1 & H3 & H4 & H5 & H6).
      unfold agreeOff. rewrite H3, H4, H5. repeat (split; [reflexivity|]).
      intros sp' Hsp. split; [apply H6, Hsp|]. unfold stateOf. rewrite H1. reflexivity.
Qed.

Lemma publish_agreeOff sp m source n n' :
  partOf m <> sp -> agreeOff sp n n' ->
  snd (publish m source n') = snd (publish m source n) /\
  agreeOff sp (fst (publish m source n)) (fst (publish m source n')).
Proof.
  intros Hpart (Hsize & Hcache & Hdel & Hoff).
  destruct (Hoff _ Hpart) as [Hneighbors Hstate].
  assert (Hsub : subscribedTo (partOf m) n' = subscribedTo (partOf m) n)
    by (unfold subscribedTo; rewrite Hstate; reflexivity).
  assert (Hrest : forall cache del evs del' evs',
             del' = del ->
             agreeOff sp
               (mkNode (states n) (subscriptions n) (connections n) (cacheSize n)
                       cache del evs)
               (mkNode (states n') (subscriptions n') (connections n') (cacheSize n)
                       cache del' evs')).
  { intros cache del evs del' evs' ->. unfold agreeOff.
    cbn [cacheSize dedupCache delivered]. repeat (split; [reflexivity|]).
    intros sp' Hsp. exact (Hoff sp' Hsp). }
  unfold publish. rewrite Hsize, Hcache, Hneighbors, Hsub, Hdel. clear Hsub.
  destruct (checkAndInsert _ _ _) as [[|] cache];
    [destruct (subscribedTo (partOf m) n)|]; cbn [fst snd];
    (split; [reflexivity | apply Hrest; reflexivity]).
Qed.

Lemma relay_agreeOff sp fuel :
  forall inFlight (net net' : gmap string Node),
    Forall (fun item : PeerId * PeerId * StreamMessage => partOf item.2 <> sp)
           inFlight ->
    (forall p, option_Forall2 (agreeOff sp) (net !! p) (net' !! p)) ->
    forall p, option_Forall2 (agreeOff sp)
                             (relay fuel inFlight net !! p)
                             (relay fuel inFlight net' !! p).
Proof.
  induction fuel as [|fuel IH]; intros inFlight net net' Hparts Hnets p;
    [apply Hnets|].
  destruct inFlight as [|[[target source] m] rest]; [apply Hnets|].
  inversion Hparts as [|? ? Hpart Hrest]; subst. cbn [snd] in Hpart.
  rewrite !relay_step. pose proof (Hnets target) as Htarget.
  destruct Htarget as [n n' Hagree|].
  - destruct (publish_agreeOff sp m (Some source) n n' Hpart Hagree) as [Htargets Hnodes].
    rewrite Htargets. apply IH.
    + apply Forall_app. split; [exact Hrest|].
      apply Forall_map, Forall_forall. intros x _. exact Hpart.
    + intros q. destruct (decide (q = target)) as [->|Hne].
      * rewrite !lookup_insert_eq. constructor. exact Hnodes.
      * rewrite !lookup_insert_ne by (intros E; apply Hne; symmetry; exact E).
        apply Hnets.
  - apply IH; assumption.
Qed.

(** A message on another partition is delivered where it would have
    been without the unsubscription. *)
Lemma publishToNode_off_partition B sp fuel self m (net : gmap string Node) p :
  partOf m <> sp ->
  delivered <$> (publishToNode fuel self m (unsubscribe B sp net) !! p)
  = delivered <$> (publishToNode fuel self m net !! p).
Proof.
  intros Hpart.
  assert (Hagree : option_Forall2 (agreeOff sp)
                     (publishToNode fuel self m net !! p)
                     (publishToNode fuel self m (unsubscribe B sp net) !! p)).
  { rewrite !publishToNode_unfold.
    pose proof (unsubscribe_agreeOff B sp net self) as Hself.
    destruct Hself as [n n' Hnodes|]; [|apply unsubscribe_agreeOff].
    destruct (publish_agreeOff sp m None n n' Hpart Hnodes) as [Htargets Hfirst].
    rewrite Htargets. apply relay_agreeOff.
    - apply Forall_map, Forall_forall. intros x _. exact Hpart.
    - intros q. destruct (decide (q = self)) as [->|Hne].
      + rewrite !lookup_insert_eq. constructor. exact Hfirst.
      + rewrite !lookup_insert_ne by (intros E; apply Hne; symmetry; exact E).
        apply unsubscribe_agreeOff. }
  destruct Hagree as [n n' (_ & _ & Hdel & _)|]; cbn; [rewrite Hdel|]; reflexivity.
Qed.

(** A message on the partition is not delivered at the node that
    unsubscribed from it. *)
Lemma publishToNode_on_partition B sp fuel self m (net : gmap string Node) nodeB :
  net !! B = Some nodeB -> partOf m = sp ->
  delivered <$> (publishToNode fuel self m (unsubscribe B sp net) !! B)
  = Some (delivered nodeB).
Proof.
  intros HB Hpart.
  pose proof (unsubscribe_self B sp net nodeB HB) as Hself.
  match type of Hself with _ = Some ?x => set (b1 := x) in * end.
  assert (Hb1 : delivered b1 = delivered nodeB /\ subscribedTo sp b1 = false).
  { unfold b1.
    match goal with |- context [foldr closeIfUnshared ?x ?l] =>
      destruct (foldr_closeIfUnshared_keeps l x) as (H1 & _ & _ & _ & H5) end.
    split; [exact H5|]. unfold subscribedTo, stateOf. rewrite H1. cbn [states].
    rewrite lookup_insert_eq. reflexivity. }
  destruct (publishToNode_keeps fuel self m (unsubscribe B sp net) B b1 Hself)
    as (b & Hb & _ & _ & _ & _ & _ & _ & Hdel).
  rewrite Hb. cbn. f_equal. rewrite Hdel; [apply Hb1|].
  rewrite Hpart. apply Hb1.
Qed.
End UnsubscribeFacts.

Section Bystanders.
Import Gossip.

Lemma received_no_disconnect x m (extra : list Event) :
  Forall (fun e => e = UNSEEN_MESSAGE_RECEIVED m) extra ->
  NODE_DISCONNECTED x ∉ extra.
Proof.
  intros Hall Hin. rewrite Forall_forall in Hall.
  specialize (Hall _ Hin). discriminate Hall.
Qed.

Lemma stateOf_subscribedTo sp n n' :
  states n' = states n -> subscribedTo sp n' = subscribedTo sp n.
Proof. unfold subscribedTo, stateOf. intros ->. reflexivity. Qed.

Lemma neighborsOn_same sp n n' :
  subscriptions n' = subscriptions n -> neighborsOn sp n' = neighborsOn sp n.
Proof. unfold neighborsOn. intros ->. reflexivity. Qed.

(** A neighbor of the node that unsubscribes, which shares another
    partition with it. *)
Lemma unsubscribe_neighbor B sp sp' (net : gmap string Node) p n :
  p <> B -> net !! p = Some n ->
  sp' <> sp -> B ∈ neighborsOn sp' n ->
  exists n1,
    unsubscribe B sp net !! p = Some n1 /\
    states n1 = states n /\ cacheSize n1 = cacheSize n /\
    dedupCache n1 = dedupCache n /\ delivered n1 = delivered n /\
    (forall sp'', sp'' <> sp -> neighborsOn sp'' n1 = neighborsOn sp'' n) /\
    connections n1 = connections n /\
    exists extra, events n1 = events n ++ extra /\ NODE_DISCONNECTED B ∉ extra.
Proof.
  intros Hne Hp Hsp Hshared.
  destruct (unsubscribe_other B sp net p Hne) as [Hsame|Hasked].
  - exists n. rewrite Hsame. split; [exact Hp|].
    do 4 (split; [reflexivity|]).
    split; [intros; reflexivity|]. split; [reflexivity|].
    exists []. rewrite app_nil_r. split; [reflexivity | apply not_elem_of_nil].
  - exists (onUnsubscribeRequest B sp n). rewrite Hasked, Hp. split; [reflexivity|].
    destruct (onUnsubscribeRequest_keeps B sp n) as (H1 & H2 & H3 & H4 & H5).
    destruct (onUnsubscribeRequest_spares B sp sp' n Hsp Hshared) as [H6 H7].
    repeat (split; [assumption|]).
    eexists. split; [exact H7|]. intros E.
    apply list_elem_of_singleton in E. discriminate E.
Qed.

(** The node that unsubscribes, and a neighbor that shares another
    partition with it. *)
Lemma unsubscribe_leaver A B sp sp' (net : gmap string Node) nodeB :
  net !! B = Some nodeB ->
  sp' <> sp -> A ∈ neighborsOn sp' nodeB ->
  exists b1,
    unsubscribe B sp net !! B = Some b1 /\
    subscribedTo sp b1 = false /\
    (forall sp'', sp'' <> sp -> subscribedTo sp'' b1 = subscribedTo sp'' nodeB) /\
    cacheSize b1 = cacheSize nodeB /\
    dedupCache b1 = dedupCache nodeB /\ delivered b1 = delivered nodeB /\
    (A ∈ connections nodeB -> A ∈ connections b1) /\
    exists extra, events b1 = events nodeB ++ extra /\ NODE_DISCONNECTED A ∉ extra.
Proof.
  intros HB Hsp Hshared.
  set (n' := mkNode (<[sp := UNSUBSCRIBED]> (states nodeB))
                    (delete sp (subscriptions nodeB)) (connections nodeB)
                    (cacheSize nodeB) (dedupCache nodeB) (delivered nodeB)
                    (events nodeB)).
  set (peers := elements (neighborsOn sp nodeB)).
  assert (Hshares : sharesPartition A n').
  { destruct (neighborsOn_elem _ _ _ Hshared) as (ps & Hps & Hin).
    exists sp', ps. split; [|exact Hin]. cbn [subscriptions n'].
    rewrite lookup_delete_ne by (intros E; apply Hsp; symmetry; exact E). exact Hps. }
  destruct (foldr_closeIfUnshared_keeps peers n') as (H1 & H2 & H3 & H4 & H5).
  destruct (foldr_closeIfUnshared_spares A peers n' Hshares) as [H6 H7].
  exists (foldr closeIfUnshared n' peers).
  split; [apply (unsubscribe_self B sp net nodeB HB)|].
  split; [|split; [|split; [|split; [|split; [|split]]]]].
  - unfold subscribedTo, stateOf. rewrite H1. cbn [states n'].
    rewrite lookup_insert_eq. reflexivity.
  - intros sp'' Hne. unfold subscribedTo, stateOf. rewrite H1. cbn [states n'].
    rewrite lookup_insert_ne by (intros E; apply Hne; symmetry; exact E). reflexivity.
  - exact H3.
  - exact H4.
  - exact H5.
  - exact H6.
  - exact H7.
Qed.
End Bystanders.

(** * One node publishes twice *)

Section TwoMessages.
Import Gossip.

(** The node [A] publishes [m2] and then [m1], both for the first time
    and on partitions it is subscribed to.  [B] is its neighbor on the
    partition of [m1] and subscribed to it; on the partition of [m2],
    [B] is not subscribed, or it is a neighbor that has not seen [m2].
    Then [A] hands both messages to its listeners, [B] hands over [m1]
    and, if it is subscribed, [m2] before it; connections stay as they
    are and nobody is reported as disconnected. *)
Lemma two_publishes fuel A B m1 m2 (net : gmap string Node) nodeA nodeB :
  A <> B ->
  net !! A = Some nodeA -> net !! B = Some nodeB ->
  messageId m1 <> messageId m2 ->
  messageId m1 ∉ dedupCache nodeA -> messageId m2 ∉ dedupCache nodeA ->
  messageId m1 ∉ dedupCache nodeB ->
  subscribedTo (partOf m1) nodeA = true -> subscribedTo (partOf m2) nodeA = true ->
  subscribedTo (partOf m1) nodeB = true ->
  1 <= cacheSize nodeA -> 1 <= cacheSize nodeB ->
  B ∈ neighborsOn (partOf m1) nodeA ->
  size (neighborsOn (partOf m1) nodeA) <= fuel ->
  (subscribedTo (partOf m2) nodeB = true ->
   B ∈ neighborsOn (partOf m2) nodeA /\
   size (neighborsOn (partOf m2) nodeA) <= fuel /\
   messageId m2 ∉ dedupCache nodeB) ->
  exists a b,
    publishToNode fuel A m1 (publishToNode fuel A m2 net) !! A = Some a /\
    publishToNode fuel A m1 (publishToNode fuel A m2 net) !! B = Some b /\
    delivered a = delivered nodeA ++ [m2; m1] /\
    delivered b
    = delivered nodeB ++ (if subscribedTo (partOf m2) nodeB then [m2; m1] else [m1]) /\
    connections a = connections nodeA /\ connections b = connections nodeB /\
    (exists extra, events a = events nodeA ++ extra /\
                   forall x, NODE_DISCONNECTED x ∉ extra) /\
    (exists extra, events b = events nodeB ++ extra /\
                   forall x, NODE_DISCONNECTED x ∉ extra).
Proof.
  intros HAB HA HB Hids Hf1A Hf2A Hf1B Hs1A Hs2A Hs1B HsizeA HsizeB Hn1 Hfuel1 Hsecond.
  set (net2 := publishToNode fuel A m2 net).
  (* the first message *)
  destruct (publishToNode_keeps fuel A m2 net A nodeA HA)
    as (a2 & Ha2 & Hast & Hasubs & Haconn & Hasize & Hacache & (eva & Heva & Hevall) & _).
  destruct (publishToNode_publisher fuel A m2 net nodeA HA Hf2A Hs2A HsizeA)
    as (a2' & Ha2' & Hadel).
  rewrite Ha2 in Ha2'. injection Ha2' as <-.
  destruct (publishToNode_keeps fuel A m2 net B nodeB HB)
    as (b2 & Hb2 & Hbst & Hbsubs & Hbconn & Hbsize & Hbcache & (evb & Hevb & Hevbll) & Hbdel).
  assert (Hb2del : delivered b2
                   = delivered nodeB
                     ++ (if subscribedTo (partOf m2) nodeB then [m2] else [])).
  { destruct (subscribedTo (partOf m2) nodeB) eqn:Hs2B.
    - destruct (Hsecond eq_refl) as (Hn2 & Hfuel2 & Hf2B).
      destruct (publishToNode_reaches fuel A B m2 net nodeA nodeB
                  HAB HA HB Hf2A Hn2 Hfuel2 Hf2B Hs2B HsizeB) as (b2' & Hb2' & Hdel).
      rewrite Hb2 in Hb2'. injection Hb2' as <-. exact Hdel.
    - rewrite app_nil_r. apply Hbdel. reflexivity. }
  fold net2 in Ha2, Hb2.
  (* the second message *)
  assert (Hf1a2 : messageId m1 ∉ dedupCache a2) by (apply Hacache; assumption).
  assert (Hf1b2 : messageId m1 ∉ dedupCache b2) by (apply Hbcache; assumption).
  assert (Hs1a2 : subscribedTo (partOf m1) a2 = true)
    by (rewrite (stateOf_subscribedTo _ _ _ Hast); exact Hs1A).
  assert (Hs1b2 : subscribedTo (partOf m1) b2 = true)
    by (rewrite (stateOf_subscribedTo _ _ _ Hbst); exact Hs1B).
  assert (Hn1a2 : neighborsOn (partOf m1) a2 = neighborsOn (partOf m1) nodeA)
    by (apply neighborsOn_same; exact Hasubs).
  destruct (publishToNode_keeps fuel A m1 net2 A a2 Ha2)
    as (a & Ha & _ & _ & Haconn' & _ & _ & (eva' & Heva' & Hevall') & _).
  destruct (publishToNode_publisher fuel A m1 net2 a2 Ha2 Hf1a2 Hs1a2
              ltac:(rewrite Hasize; exact HsizeA)) as (a' & Ha' & Hadel').
  rewrite Ha in Ha'. injection Ha' as <-.
  destruct (publishToNode_keeps fuel A m1 net2 B b2 Hb2)
    as (b & Hb & _ & _ & Hbconn' & _ & _ & (evb' & Hevb' & Hevbll') & _).
  destruct (publishToNode_reaches fuel A B m1 net2 a2 b2 HAB Ha2 Hb2 Hf1a2
              ltac:(rewrite Hn1a2; exact Hn1) ltac:(rewrite Hn1a2; exact Hfuel1)
              Hf1b2 Hs1b2 ltac:(rewrite Hbsize; exact HsizeB))
    as (b' & Hb' & Hbdel').
  rewrite Hb in Hb'. injection Hb' as <-.
  exists a, b. split; [exact Ha|]. split; [exact Hb|].
  split; [rewrite Hadel', Hadel, <- app_assoc; reflexivity|].
  split.
  { rewrite Hbdel', Hb2del, <- app_assoc.
    destruct (subscribedTo (partOf m2) nodeB); reflexivity. }
  split; [congruence|]. split; [congruence|]. split.
  - exists (eva ++ eva'). rewrite Heva', Heva, app_assoc. split; [reflexivity|].
    intros x E. apply elem_of_app in E as [E|E];
      [exact (received_no_disconnect x m2 eva Hevall E)
      |exact (received_no_disconnect x m1 eva' Hevall' E)].
  - exists (evb ++ evb'). rewrite Hevb', Hevb, app_assoc. split; [reflexivity|].
    intros x E. apply elem_of_app in E as [E|E];
      [exact (received_no_disconnect x m2 evb Hevbll E)
      |exact (received_no_disconnect x m1 evb' Hevbll' E)].
Qed.
End TwoMessages.

Section UnsubscribeClaim.
Import Gossip.

(** C9: any two nodes A and B of a network of any shape and size, both
    subscribed to the partitions 1 and 2 of a stream; B unsubscribes
    from partition 2.  Then, whoever publishes and whatever the other
    nodes are: a message on another partition than 2 is delivered
    at every node exactly as it is without the unsubscription, and a
    message on partition 2 is not delivered at B.  Where moreover B is
    a neighbor of A on both partitions and A a neighbor of B on
    partition 1 (the partition they still share), and A publishes a
    message on partition 2 and then one on partition 1, both new to the
    two nodes: B's listeners get the message of partition 1 and nothing
    else, where without the unsubscription they get both; A's listeners
    get both; the connection between the two stays open on both sides
    and neither reports the other as disconnected. *)
Theorem unsubscribe_spares_other_partition
        (s : string) (A B : PeerId) (net : gmap string Node)
        (nodeA nodeB : Node) :
  A <> B ->
  net !! A = Some nodeA -> net !! B = Some nodeB ->
  subscribedTo (s, 1) nodeA = true -> subscribedTo (s, 2) nodeA = true ->
  subscribedTo (s, 1) nodeB = true -> subscribedTo (s, 2) nodeB = true ->
  let net1 := unsubscribe B (s, 2) net in
  (forall m self fuel p,
      partOf m <> (s, 2) ->
      delivered <$> (publishToNode fuel self m net1 !! p)
      = delivered <$> (publishToNode fuel self m net !! p)) /\
  (forall m self fuel,
      partOf m = (s, 2) ->
      delivered <$> (publishToNode fuel self m net1 !! B) = Some (delivered nodeB)) /\
  (forall m1 m2 fuel,
      B ∈ neighborsOn (s, 1) nodeA -> B ∈ neighborsOn (s, 2) nodeA ->
      A ∈ neighborsOn (s, 1) nodeB ->
      partOf m1 = (s, 1) -> partOf m2 = (s, 2) ->
      messageId m1 ∉ dedupCache nodeA -> messageId m2 ∉ dedupCache nodeA ->
      messageId m1 ∉ dedupCache nodeB -> messageId m2 ∉ dedupCache nodeB ->
      1 <= cacheSize nodeA -> 1 <= cacheSize nodeB ->
      size (neighborsOn (s, 1) nodeA) <= fuel ->
      size (neighborsOn (s, 2) nodeA) <= fuel ->
      let publishBoth (net0 : gmap string Node) :=
        publishToNode fuel A m1 (publishToNode fuel A m2 net0) in
      exists a b b0,
        publishBoth net1 !! A = Some a /\
        publishBoth net1 !! B = Some b /\
        publishBoth net !! B = Some b0 /\
        delivered b = delivered nodeB ++ [m1] /\
        delivered b0 = delivered nodeB ++ [m2; m1] /\
        delivered a = delivered nodeA ++ [m2; m1] /\
        (B ∈ connections nodeA -> B ∈ connections a) /\
        (A ∈ connections nodeB -> A ∈ connections b) /\
        (NODE_DISCONNECTED B ∉ drop (length (events nodeA)) (events a)) /\
        NODE_DISCONNECTED A ∉ drop (length (events nodeB)) (events b)).
Proof.
  intros HAB HA HB Hs1A Hs2A Hs1B Hs2B net1.
  assert (Hparts : ((s, 1) : string * nat) <> (s, 2)) by discriminate.
  split; [|split].
  - intros m self fuel p Hpart. apply publishToNode_off_partition. exact Hpart.
  - intros m self fuel Hpart.
    apply (publishToNode_on_partition B (s, 2) fuel self m net nodeB HB Hpart).
  - intros m1 m2 fuel Hn1 Hn2 Hback Hp1 Hp2
           Hf1A Hf2A Hf1B Hf2B HsizeA HsizeB Hfuel1 Hfuel2 publishBoth.
    assert (Hids : messageId m1 <> messageId m2).
    { intros E. unfold partOf in Hp1, Hp2. rewrite E in Hp1.
      rewrite Hp1 in Hp2. injection Hp2. discriminate. }
    (* the network after the unsubscription *)
    destruct (unsubscribe_neighbor B (s, 2) (s, 1) net A nodeA HAB HA Hparts Hn1)
      as (a1 & Ha1 & Hast & Hasize & Hacache & Hadel & Haneigh & Haconn
          & (eva & Heva & Hevan)).
    destruct (unsubscribe_leaver A B (s, 2) (s, 1) net nodeB HB Hparts Hback)
      as (b1 & Hb1 & Hbs2 & Hbs & Hbsize & Hbcache & Hbdel & Hbconn
          & (evb & Hevb & Hevbn)).
    fold net1 in Ha1, Hb1.
    destruct (two_publishes fuel A B m1 m2 net1 a1 b1)
      as (a & b & Ha & Hb & Hda & Hdb & Hca & Hcb
          & (eva' & Heva' & Hevan') & (evb' & Hevb' & Hevbn'));
      try assumption.
    { rewrite Hacache. exact Hf1A. }
    { rewrite Hacache. exact Hf2A. }
    { rewrite Hbcache. exact Hf1B. }
    { rewrite Hp1, (stateOf_subscribedTo _ _ _ Hast). exact Hs1A. }
    { rewrite Hp2, (stateOf_subscribedTo _ _ _ Hast). exact Hs2A. }
    { rewrite Hp1, (Hbs _ Hparts). exact Hs1B. }
    { rewrite Hasize. exact HsizeA. }
    { rewrite Hbsize. exact HsizeB. }
    { rewrite Hp1, (Haneigh _ Hparts). exact Hn1. }
    { rewrite Hp1, (Haneigh _ Hparts). exact Hfuel1. }
    { rewrite Hp2, Hbs2. discriminate. }
    rewrite Hp2, Hbs2 in Hdb.
    (* the network as it was *)
    destruct (two_publishes fuel A B m1 m2 net nodeA nodeB)
      as (a0 & b0 & _ & Hb0 & _ & Hdb0 & _); try assumption.
    { rewrite Hp1. exact Hs1A. }
    { rewrite Hp2. exact Hs2A. }
    { rewrite Hp1. exact Hs1B. }
    { rewrite Hp1. exact Hn1. }
    { rewrite Hp1. exact Hfuel1. }
    { intros _. rewrite Hp2. split; [exact Hn2|]. split; [exact Hfuel2 | exact Hf2B]. }
    rewrite Hp2, Hs2B in Hdb0.
    exists a, b, b0. split; [exact Ha|]. split; [exact Hb|]. split; [exact Hb0|].
    split; [rewrite Hdb, Hbdel; reflexivity|].
    split; [exact Hdb0|].
    split; [rewrite Hda, Hadel; reflexivity|].
    split; [rewrite Hca, Haconn; trivial|].
    split; [rewrite Hcb; exact Hbconn|].
    split.
    + rewrite Heva', Heva, <- app_assoc, drop_app_length.
      intros E. apply elem_of_app in E as [E|E]; [exact (Hevan E) | exact (Hevan' _ E)].
    + rewrite Hevb', Hevb, <- app_assoc, drop_app_length.
      intros E. apply elem_of_app in E as [E|E]; [exact (Hevbn E) | exact (Hevbn' _ E)].
Qed.
End UnsubscribeClaim.

(** * The gossip statements on the two-node network of the test *)

Section GossipWitnesses.
Import Gossip.

Lemma duplicate_delivery_is_suppressed_witness :
  let n := pairNode "b"%string in
  let n1 := fst (publish message1 (Some "b"%string) n) in
  let forwards1 := snd (publish message1 (Some "b"%string) n) in
  let n' := publishAll [(message2, None)] n1 in
  let n2 := fst (publish message1 None n') in
  let forwards2 := snd (publish message1 None n') in
  delivered n1 = delivered n ++ [message1] /\
  deliveriesOf (messageId message1) n2 = S (deliveriesOf (messageId message1) n) /\
  delivered n2 = delivered n' /\
  forwards2 = [] /\
  NoDup (forwards1 ++ forwards2) /\
  (forall p, p ∈ forwards1 ++ forwards2 ->
             p ∈ neighborsOn (partOf message1) n /\ Some "b"%string <> Some p).
Proof.
  apply (duplicate_delivery_is_suppressed
           (pairNode "b"%string) message1 (Some "b"%string) None [(message2, None)]).
  - vm_compute. lia.
  - apply not_elem_of_nil.
  - vm_compute. reflexivity.
Defined.

Lemma unsubscribe_spares_other_partition_witness :
  let net : gmap string Node :=
    {[ "a"%string := pairNode "b"%string; "b"%string := pairNode "a"%string ]} in
  let publishBoth (net0 : gmap string Node) :=
    publishToNode 1 "a"%string message1 (publishToNode 1 "a"%string message2 net0) in
  let net1 := unsubscribe "b"%string ("s"%string, 2) net in
  (forall m self fuel p,
      partOf m <> ("s"%string, 2) ->
      delivered <$> (publishToNode fuel self m net1 !! p)
      = delivered <$> (publishToNode fuel self m net !! p)) /\
  (forall m self fuel,
      partOf m = ("s"%string, 2) ->
      delivered <$> (publishToNode fuel self m net1 !! "b"%string)
      = Some (delivered (pairNode "a"%string))) /\
  exists a b b0,
    publishBoth net1 !! "a"%string = Some a /\
    publishBoth net1 !! "b"%string = Some b /\
    publishBoth net !! "b"%string = Some b0 /\
    delivered b = delivered (pairNode "a"%string) ++ [message1] /\
    delivered b0 = delivered (pairNode "a"%string) ++ [message2; message1] /\
    delivered a = delivered (pairNode "b"%string) ++ [message2; message1] /\
    ("b"%string ∈ connections (pairNode "b"%string) -> "b"%string ∈ connections a) /\
    ("a"%string ∈ connections (pairNode "a"%string) -> "a"%string ∈ connections b) /\
    (NODE_DISCONNECTED "b"%string
       ∉ drop (length (events (pairNode "b"%string))) (events a)) /\
    NODE_DISCONNECTED "a"%string
      ∉ drop (length (events (pairNode "a"%string))) (events b).
Proof.
  intros net publishBoth net1.
  assert (Hab : "a"%string <> "b"%string) by discriminate.
  assert (HA : net !! "a"%string = Some (pairNode "b"%string)) by reflexivity.
  assert (HB : net !! "b"%string = Some (pairNode "a"%string)) by reflexivity.
  assert (H1A : subscribedTo ("s"%string, 1) (pairNode "b"%string) = true)
    by (vm_compute; reflexivity).
  assert (H2A : subscribedTo ("s"%string, 2) (pairNode "b"%string) = true)
    by (vm_compute; reflexivity).
  assert (H1B : subscribedTo ("s"%string, 1) (pairNode "a"%string) = true)
    by (vm_compute; reflexivity).
  assert (H2B : subscribedTo ("s"%string, 2) (pairNode "a"%string) = true)
    by (vm_compute; reflexivity).
  destruct (unsubscribe_spares_other_partition
              "s"%string "a"%string "b"%string net
              (pairNode "b"%string) (pairNode "a"%string)
              Hab HA HB H1A H2A H1B H2B) as (Hframe & Hstops & Hboth).
  split; [exact Hframe|]. split; [exact Hstops|].
  apply (Hboth message1 message2 1).
  - vm_compute. reflexivity.
  - vm_compute. reflexivity.
  - vm_compute. reflexivity.
  - reflexivity.
  - reflexivity.
  - apply not_elem_of_nil.
  - apply not_elem_of_nil.
  - apply not_elem_of_nil.
  - apply not_elem_of_nil.
  - vm_compute. lia.
  - vm_compute. lia.
  - vm_compute. lia.
  - vm_compute. lia.
Defined.
End GossipWitnesses.

(** * Two neighbors with nothing left to share *)

Section Parting.
Import Gossip.

Variables (s : string) (A B : PeerId).
Hypothesis HAB : A <> B.

Lemma delete_only (sp : StreamPart) (peers : gset PeerId) :
  delete sp ({[ sp := peers ]} : gmap StreamPart (gset PeerId)) = ∅.
Proof. apply delete_singleton_eq. Qed.

Lemma shares_nothing peer sts conns size cache del evs :
  ~ sharesPartition peer (mkNode sts ∅ conns size cache del evs).
Proof. unfold sharesPartition. cbn [subscriptions]. apply map_Exists_empty. Qed.

(** The last shared partition goes: the request from [peer] empties the
    node's subscriptions and closes the connection. *)
Lemma onUnsubscribeRequest_last peer evs n :
  onUnsubscribeRequest peer (s, 1) (onlyFirst s peer evs n)
  = mkNode (states n) ∅ (connections n ∖ {[peer]}) (cacheSize n) (dedupCache n)
           (delivered n)
           (((events n ++ evs) ++ [NODE_UNSUBSCRIBED peer (s, 1)])
              ++ [NODE_DISCONNECTED peer]).
Proof.
  unfold onUnsubscribeRequest. rewrite onlyFirst_neighbors1.
  rewrite decide_True by apply difference_diag_L.
  unfold onlyFirst.
  cbn [states subscriptions connections cacheSize dedupCache delivered events].
  rewrite delete_only. unfold closeIfUnshared.
  rewrite decide_False by apply shares_nothing. reflexivity.
Qed.

(** X18: the second scenario of the test.  Two nodes A and B are each
    other's neighbor on the partitions 1 and 2 of a stream.  After B
    unsubscribes from partition 2 and A from partition 1, nothing is
    shared: each node has emitted the unsubscription of the other and
    then its disconnection, and the connection is closed on both
    sides. *)
Theorem unsubscribing_all_closes_connection (nodeA nodeB : Node) :
  pairedOn s B nodeA -> pairedOn s A nodeB ->
  let net : gmap string Node := {[ A := nodeA; B := nodeB ]} in
  let net' := unsubscribe A (s, 1) (unsubscribe B (s, 2) net) in
  exists a b,
    net' !! A = Some a /\ net' !! B = Some b /\
    connections a = ∅ /\ connections b = ∅ /\
    events a = events nodeA ++ [NODE_UNSUBSCRIBED B (s, 2); NODE_DISCONNECTED B] /\
    events b = events nodeB ++ [NODE_UNSUBSCRIBED A (s, 1); NODE_DISCONNECTED A].
Proof.
  intros HA HB net net'. unfold net', net.
  rewrite (unsubscribe_paired s A B HAB _ _ HA HB).
  unfold unsubscribe. rewrite lookup_insert_eq.
  rewrite onlyFirst_neighbors1, elements_singleton. cbn [foldr].
  set (oA := onlyFirst s B [NODE_UNSUBSCRIBED B (s, 2)] nodeA).
  assert (Ha : closeIfUnshared B
                 (mkNode (<[(s, 1) := UNSUBSCRIBED]> (states oA))
                         (delete (s, 1) (subscriptions oA)) (connections oA)
                         (cacheSize oA) (dedupCache oA) (delivered oA) (events oA))
               = mkNode (<[(s, 1) := UNSUBSCRIBED]> (states nodeA)) ∅
                        (connections nodeA ∖ {[B]}) (cacheSize nodeA)
                        (dedupCache nodeA) (delivered nodeA)
                        ((events nodeA ++ [NODE_UNSUBSCRIBED B (s, 2)])
                           ++ [NODE_DISCONNECTED B])).
  { unfold oA, onlyFirst.
    cbn [states subscriptions connections cacheSize dedupCache delivered events].
    rewrite delete_only. unfold closeIfUnshared.
    rewrite decide_False by apply shares_nothing. reflexivity. }
  rewrite Ha.
  eexists. eexists. split; [apply lookup_insert_eq|]. split.
  - rewrite lookup_insert_ne by exact HAB.
    rewrite lookup_alter_eq, lookup_insert_ne by exact HAB.
    rewrite lookup_singleton_eq. cbn [fmap option_fmap option_map].
    rewrite onUnsubscribeRequest_last. reflexivity.
  - unfold withState.
    cbn [states subscriptions connections cacheSize dedupCache delivered events].
    destruct HA as [_ ->]. destruct HB as [_ ->].
    split; [apply difference_diag_L|]. split; [apply difference_diag_L|].
    split.
    + rewrite <- app_assoc. reflexivity.
    + rewrite app_nil_r, <- app_assoc. reflexivity.
Qed.
End Parting.

Section PartingWitness.
Import Gossip.

Lemma unsubscribing_all_closes_connection_witness :
  let net : gmap string Node :=
    {[ "a"%string := pairNode "b"%string; "b"%string := pairNode "a"%string ]} in
  let net' := unsubscribe "a"%string ("s"%string, 1)
                          (unsubscribe "b"%string ("s"%string, 2) net) in
  exists a b,
    net' !! "a"%string = Some a /\ net' !! "b"%string = Some b /\
    connections a = ∅ /\ connections b = ∅ /\
    events a = events (pairNode "b"%string)
               ++ [NODE_UNSUBSCRIBED "b"%string ("s"%string, 2);
                   NODE_DISCONNECTED "b"%string] /\
    events b = events (pairNode "a"%string)
               ++ [NODE_UNSUBSCRIBED "a"%string ("s"%string, 1);
                   NODE_DISCONNECTED "a"%string].
Proof.
  apply (unsubscribing_all_closes_connection
           "s"%string "a"%string "b"%string ltac:(discriminate)
           (pairNode "b"%string) (pairNode "a"%string)).
  - split; reflexivity.
  - split; reflexivity.
Defined.
End PartingWitness.
